(** * SourceLoader: file registry, parse pipeline and search-directory discovery

    A shallow embedding of [source/driver/SourceLoader.cpp].  The loader's
    members become the fields of the record [SourceLoader]; every member
    function becomes a function from loader states to loader states.  The
    collaborators the loader only calls (glob expansion, the parser, path
    arithmetic) are gathered in the record [Externals] and every theorem is
    quantified over it. *)

From Stdlib Require Import ZArith.
From stdpp Require Import gmap strings list fin_maps.

Local Open Scope string_scope.
Local Open Scope list_scope.
Local Open Scope nat_scope.

(** ** Elementary types *)

(** [std::filesystem::path]; [widen] turns a narrow string into a path. *)
Abbreviation fs_path := string (only parsing).

Definition widen (s : string) : fs_path := s.

(** [std::error_code]: the value zero means success, [if (ec)] tests for a
    non-zero value. *)
Abbreviation error_code := Z (only parsing).

Definition failed (ec : error_code) : bool := negb (ec =? 0)%Z.

Definition no_such_file_or_directory : error_code := 2%Z.

(** Modelled from the spec: [GlobRank], the enumeration [svGlob] returns
    and [addFilesInternal] compares by [<] and [==].  Its declaration is
    not part of the sources at hand; the spec describes it as a numeric
    precedence where the lower value wins. *)
Abbreviation GlobRank := Z (only parsing).

Inductive GlobMode := Files | Directories.

Record GlobResult := {
  globRank : GlobRank;
  globFiles : list fs_path;
  globEc : error_code
}.

(** [SourceLibrary]: identified by its name. A [const SourceLibrary*] is an
    [option SourceLibrary], [nullptr] being [None]. *)
Record SourceLibrary := { libName : string }.

#[global] Instance SourceLibrary_eq_dec : EqDecision SourceLibrary.
Proof. solve_decision. Defined.

(** [SourceBuffer]: the text read from one path on behalf of a library.  A
    default-constructed (invalid) buffer is [None] of [option SourceBuffer]. *)
Record SourceBuffer := {
  bufPath : fs_path;
  bufData : string;
  bufLibrary : option SourceLibrary
}.

(** Modelled from the spec: [SourceLoader::FileEntry].  The struct is
    declared in the header, which is not part of the sources at hand; the
    fields are the ones the member functions below read and write (path,
    library flag, owning library, rank, second library), and the
    constructor used by [emplace_back(path, isLibraryFile, library, rank)]
    stores its four arguments and leaves [secondLib] null. *)
Record FileEntry := {
  path : fs_path;
  isLibraryFile : bool;
  library : option SourceLibrary;
  libraryRank : GlobRank;
  secondLib : option SourceLibrary
}.

Definition newFileEntry (p : fs_path) (isLib : bool)
    (lib : option SourceLibrary) (rank : GlobRank) : FileEntry :=
  {| path := p; isLibraryFile := isLib; library := lib;
     libraryRank := rank; secondLib := None |}.

(** ** Library maps *)

(** The members of a [LibraryMapSyntax], by [SyntaxKind]; a file path
    spec is kept as its [valueText]. *)
Inductive LibraryMapMember :=
  | ConfigDeclaration
  | EmptyMember
  | LibraryIncludeStatement (filePath : string)
  | LibraryDeclaration (name : string) (filePaths : list string)
  | OtherMember.

Record LibraryMapTree := {
  mapBuffer : SourceBuffer;
  members : list LibraryMapMember
}.

(** ** Syntax trees and their metadata *)

(** A [DefineDirectiveSyntax*], named by the macro it defines. *)
Abbreviation Macro := string (only parsing).

(** [SyntaxTree]: the buffers it was parsed from, the macros handed to the
    parser as inherited, and the [isLibrary] flag the loader sets. *)
Record SyntaxTree := {
  treeBuffers : list SourceBuffer;
  treeInherited : list Macro;
  isLibrary : bool
}.

Definition markLibrary (t : SyntaxTree) : SyntaxTree :=
  {| treeBuffers := treeBuffers t; treeInherited := treeInherited t;
     isLibrary := true |}.

(** [std::shared_ptr<SyntaxTree>], null being [None]. *)
Abbreviation TreePtr := (option SyntaxTree) (only parsing).

(** [ParserMetadata], reduced to the name texts the loader reads:
    [nodeMap] holds [decl->header->name.valueText()] of each node,
    [classDecls] the class names, [classPackageNames] the identifiers,
    [packageImports] the package names of each import's items and
    [interfacePorts] the [nameOrKeyword] texts. *)
Record ParserMetadata := {
  nodeMap : list string;
  classDecls : list string;
  globalInstances : list string;
  classPackageNames : list string;
  packageImports : list (list string);
  interfacePorts : list string
}.

(** ** The source manager *)

(** Modelled from the spec: [SourceManager], implemented elsewhere in the
    repository.  The spec describes a filesystem-read cache tracking which
    paths have already been read. *)
Record SourceManager := {
  cached : gset string
}.

(** Modelled from the spec: [SourceManager::isCached], whether the path
    has been read already. *)
Definition isCached (sm : SourceManager) (p : fs_path) : bool :=
  bool_decide (p ∈ cached sm).

(** Modelled from the spec: [SourceManager::readSource].  Reading a
    readable path yields its buffer and records the path in the cache;
    reading any other path yields an error code and leaves the cache as it
    was. *)
Definition readSource (files : gmap string string) (sm : SourceManager)
    (p : fs_path) (lib : option SourceLibrary)
    : SourceManager * (error_code + SourceBuffer) :=
  match files !! p with
  | Some text =>
      ({| cached := {[p]} ∪ cached sm |},
       inr {| bufPath := p; bufData := text; bufLibrary := lib |})
  | None => (sm, inl no_such_file_or_directory)
  end.

(** ** External collaborators *)

Record Externals := {
  (** [svGlob basePath pattern mode expandEnvVars]: its rank, the paths
      appended to the output vector and the error code. *)
  svGlob : fs_path → string → GlobMode → bool → GlobResult;
  (** The readable files and their text. *)
  fsFiles : gmap string string;
  (** [path::parent_path], [path::operator/=], [path::replace_extension]. *)
  parent_path : fs_path → fs_path;
  path_append : fs_path → string → fs_path;
  replace_extension : fs_path → fs_path → fs_path;
  (** [SyntaxTree::fromLibraryMapBuffer], for the option bag in use. *)
  parseLibraryMap : SourceBuffer → list LibraryMapMember;
  (** What the parser finds in the given buffers under the given inherited
      macros: [getMetadata] and [getDefinedMacros]. *)
  parseMetadata : list SourceBuffer → list Macro → ParserMetadata;
  parseDefinedMacros : list SourceBuffer → list Macro → list Macro;
  (** [SourceLoader::MinFilesForThreading]. *)
  MinFilesForThreading : nat
}.

(** ** Faults *)

(** Modelled from the spec: the macros [SLANG_ASSERT] and
    [SLANG_UNREACHABLE] come from a header that is not part of the sources
    at hand; the spec treats a violated assertion as a programming-contract
    failure, not a recoverable error, so the call ends there.  The other
    ways in which a call can end without a result are the use of a null
    tree pointer or of an index outside a vector and, for the two unbounded
    loops of the loader, running out of the fuel the embedding gives
    them. *)
Inductive Fault :=
  | AssertionFailed
  | Unreachable
  | NullDereference
  | OutOfRange
  | OutOfFuel.

Inductive Checked (A : Type) :=
  | Done (a : A)
  | Abort (f : Fault).
Arguments Done {A} a.
Arguments Abort {A} f.

#[global] Instance Checked_ret : MRet Checked := λ A a, Done a.

#[global] Instance Checked_bind : MBind Checked := λ A B k c,
  match c with
  | Done a => k a
  | Abort f => Abort f
  end.

(** A loop over a container whose body may end the call. *)
Fixpoint foldC {A S} (step : S → A → Checked S) (s : S) (l : list A)
    : Checked S :=
  match l with
  | [] => Done s
  | a :: l' => s' ← step s a; foldC step s' l'
  end.

(** ** The loader *)

Record SourceLoader := {
  sourceManager : SourceManager;
  fileEntries : list FileEntry;
  fileIndex : gmap string nat;
  libraries : gmap string SourceLibrary;
  libraryMapTrees : list LibraryMapTree;
  searchDirectories : list fs_path;
  searchExtensions : list fs_path;
  uniqueExtensions : gset string;
  errors : list (fs_path * error_code)
}.

Definition set_sourceManager (sm : SourceManager) (s : SourceLoader) :=
  {| sourceManager := sm; fileEntries := fileEntries s;
     fileIndex := fileIndex s; libraries := libraries s;
     libraryMapTrees := libraryMapTrees s;
     searchDirectories := searchDirectories s;
     searchExtensions := searchExtensions s;
     uniqueExtensions := uniqueExtensions s; errors := errors s |}.

Definition set_registry (es : list FileEntry) (ix : gmap string nat)
    (s : SourceLoader) :=
  {| sourceManager := sourceManager s; fileEntries := es;
     fileIndex := ix; libraries := libraries s;
     libraryMapTrees := libraryMapTrees s;
     searchDirectories := searchDirectories s;
     searchExtensions := searchExtensions s;
     uniqueExtensions := uniqueExtensions s; errors := errors s |}.

Definition set_libraries (ls : gmap string SourceLibrary) (s : SourceLoader) :=
  {| sourceManager := sourceManager s; fileEntries := fileEntries s;
     fileIndex := fileIndex s; libraries := ls;
     libraryMapTrees := libraryMapTrees s;
     searchDirectories := searchDirectories s;
     searchExtensions := searchExtensions s;
     uniqueExtensions := uniqueExtensions s; errors := errors s |}.

Definition set_libraryMapTrees (ts : list LibraryMapTree) (s : SourceLoader) :=
  {| sourceManager := sourceManager s; fileEntries := fileEntries s;
     fileIndex := fileIndex s; libraries := libraries s;
     libraryMapTrees := ts;
     searchDirectories := searchDirectories s;
     searchExtensions := searchExtensions s;
     uniqueExtensions := uniqueExtensions s; errors := errors s |}.

Definition set_searchDirectories (ds : list fs_path) (s : SourceLoader) :=
  {| sourceManager := sourceManager s; fileEntries := fileEntries s;
     fileIndex := fileIndex s; libraries := libraries s;
     libraryMapTrees := libraryMapTrees s;
     searchDirectories := ds;
     searchExtensions := searchExtensions s;
     uniqueExtensions := uniqueExtensions s; errors := errors s |}.

Definition set_extensions (xs : list fs_path) (u : gset string)
    (s : SourceLoader) :=
  {| sourceManager := sourceManager s; fileEntries := fileEntries s;
     fileIndex := fileIndex s; libraries := libraries s;
     libraryMapTrees := libraryMapTrees s;
     searchDirectories := searchDirectories s;
     searchExtensions := xs;
     uniqueExtensions := u; errors := errors s |}.

(** [errors.emplace_back(p, ec)] *)
Definition add_error (p : fs_path) (ec : error_code) (s : SourceLoader) :=
  {| sourceManager := sourceManager s; fileEntries := fileEntries s;
     fileIndex := fileIndex s; libraries := libraries s;
     libraryMapTrees := libraryMapTrees s;
     searchDirectories := searchDirectories s;
     searchExtensions := searchExtensions s;
     uniqueExtensions := uniqueExtensions s;
     errors := errors s ++ [(p, ec)] |}.

(** The constructor: the two default extensions go through the hash set
    first and are listed in its iteration order. *)
Definition newSourceLoader (sm : SourceManager) : SourceLoader :=
  let u : gset string := {[ ".v" ]} ∪ {[ ".sv" ]} in
  {| sourceManager := sm; fileEntries := []; fileIndex := ∅;
     libraries := ∅; libraryMapTrees := [];
     searchDirectories := [];
     searchExtensions := widen <$> elements u;
     uniqueExtensions := u; errors := [] |}.

(** ** Registration: [addFilesInternal] and its callers *)

Definition isNull {A} (p : option A) : bool :=
  match p with
  | None => true
  | Some _ => false
  end.

Definition isEmpty (s : string) : bool := bool_decide (s = "").

(** The [else] branch of the loop in [addFilesInternal]: the path is in
    [fileIndex] already and [entry] is [fileEntries[it->second]]. *)
Definition updateEntry (isLib : bool) (lib : option SourceLibrary)
    (rank : GlobRank) (entry : FileEntry) : FileEntry :=
  let entry :=
    {| path := path entry;
       isLibraryFile := isLibraryFile entry && isLib;
       library := library entry; libraryRank := libraryRank entry;
       secondLib := secondLib entry |} in
  if isNull lib then entry
  else if isNull (library entry) || (rank <? libraryRank entry)%Z then
    {| path := path entry; isLibraryFile := isLibraryFile entry;
       library := lib; libraryRank := rank;
       secondLib := secondLib entry |}
  else if (rank =? libraryRank entry)%Z then
    {| path := path entry; isLibraryFile := isLibraryFile entry;
       library := library entry; libraryRank := libraryRank entry;
       secondLib := lib |}
  else entry.

(** One turn of the loop over the globbed files: [try_emplace] of the path
    with the next index, then either [emplace_back] of a new entry or the
    update of the existing one.  An index outside the vector cannot be
    stored in [fileIndex] (see [wf_registerFile]); [alter] leaves the
    vector alone there. *)
Definition registerFile (isLib : bool) (lib : option SourceLibrary)
    (rank : GlobRank) (s : SourceLoader) (p : fs_path) : SourceLoader :=
  match fileIndex s !! p with
  | None =>
      set_registry (fileEntries s ++ [newFileEntry p isLib lib rank])
                   (<[p := length (fileEntries s)]> (fileIndex s)) s
  | Some i =>
      set_registry (alter (updateEntry isLib lib rank) i (fileEntries s))
                   (fileIndex s) s
  end.

Definition getOrAddLibrary (name : string) (s : SourceLoader)
    : SourceLoader * option SourceLibrary :=
  if isEmpty name then (s, None)
  else match libraries s !! name with
       | Some lib => (s, Some lib)
       | None =>
           let lib := {| libName := name |} in
           (set_libraries (<[name := lib]> (libraries s)) s, Some lib)
       end.

Definition addSearchExtension (extension : string) (s : SourceLoader)
    : SourceLoader :=
  if bool_decide (extension ∈ uniqueExtensions s) then s
  else set_extensions (searchExtensions s ++ [widen extension])
                      ({[extension]} ∪ uniqueExtensions s) s.

Definition getPathFromSpec (text : string) : string :=
  if (String.length text <? 3)%nat then ""
  else String.substring 1 (String.length text - 2) text.

(** The entry registered for a path, through the index. *)
Definition entryOf (s : SourceLoader) (p : fs_path) : option FileEntry :=
  i ← fileIndex s !! p; fileEntries s !! i.

Section Registration.
Context (X : Externals).

Definition addFilesInternal (pattern : string) (basePath : fs_path)
    (isLib : bool) (lib : option SourceLibrary) (expandEnvVars : bool)
    (s : SourceLoader) : SourceLoader :=
  let g := svGlob X basePath pattern Files expandEnvVars in
  if failed (globEc g) then add_error (widen pattern) (globEc g) s
  else foldl (registerFile isLib lib (globRank g)) s (globFiles g).

Definition addFiles (pattern : string) (s : SourceLoader) : SourceLoader :=
  addFilesInternal pattern "" false None false s.

Definition addLibraryFiles (name pattern : string) (s : SourceLoader)
    : SourceLoader :=
  let '(s, lib) := getOrAddLibrary name s in
  addFilesInternal pattern "" true lib false s.

Definition addSearchDirectories (pattern : string) (s : SourceLoader)
    : SourceLoader :=
  let g := svGlob X "" pattern Directories false in
  if failed (globEc g) then add_error (widen pattern) (globEc g) s
  else set_searchDirectories (searchDirectories s ++ globFiles g) s.

Definition createLibrary (name : string) (filePaths : list string)
    (basePath : fs_path) (s : SourceLoader) : SourceLoader :=
  if isEmpty name then s
  else
    let '(s, lib) := getOrAddLibrary name s in
    foldl (λ s filePath,
             let spec := getPathFromSpec filePath in
             if isEmpty spec then s
             else addFilesInternal spec basePath true lib true s)
          s filePaths.

(** [addLibraryMaps] follows include statements without any bound; the
    embedding counts the nesting of includes down from [fuel]. *)
Fixpoint addLibraryMaps (fuel : nat) (pattern : string) (basePath : fs_path)
    (expandEnvVars : bool) (s : SourceLoader) : Checked SourceLoader :=
  match fuel with
  | O => Abort OutOfFuel
  | S fuel' =>
      let g := svGlob X basePath pattern Files expandEnvVars in
      if failed (globEc g) then Done (add_error (widen pattern) (globEc g) s)
      else
        foldC (λ s p,
          match readSource (fsFiles X) (sourceManager s) p None with
          | (sm, inl ec) => Done (add_error p ec (set_sourceManager sm s))
          | (sm, inr buffer) =>
              let tree := {| mapBuffer := buffer;
                             members := parseLibraryMap X buffer |} in
              let s := set_libraryMapTrees (libraryMapTrees s ++ [tree])
                         (set_sourceManager sm s) in
              let parentPath := parent_path X p in
              foldC (λ s member,
                match member with
                | ConfigDeclaration | EmptyMember => Done s
                | LibraryIncludeStatement filePath =>
                    let spec := getPathFromSpec filePath in
                    if isEmpty spec then Done s
                    else addLibraryMaps fuel' spec parentPath true s
                | LibraryDeclaration name filePaths =>
                    Done (createLibrary name filePaths parentPath s)
                | OtherMember => Abort Unreachable
                end) s (members tree)
          end) s (globFiles g)
  end.

End Registration.

(** ** The parse pipeline *)

(** Modelled from the spec: [SourceOptions].  The struct is declared in a
    header that is not part of the sources at hand; these are the four
    members [loadAndParseSources] and [loadAndParse] read. *)
Record SourceOptions := {
  numThreads : option nat;
  singleUnit : bool;
  onlyLint : bool;
  librariesInheritMacros : bool
}.

(** [SourceLoader::LoadResult], a variant of three alternatives in this
    order; a value-initialised one holds a null tree. *)
Inductive LoadResult :=
  | LoadedTree (tree : TreePtr)
  | LoadedBuffer (buffer : SourceBuffer) (isDeferredLib : bool)
  | LoadFailed (entry : FileEntry) (code : error_code).

(** [SyntaxTree::fromBuffer] and [SyntaxTree::fromBuffers]; without the
    last argument no macro is inherited. *)
Definition fromBuffer (buffer : SourceBuffer) (inherited : list Macro)
    : SyntaxTree :=
  {| treeBuffers := [buffer]; treeInherited := inherited;
     isLibrary := false |}.

Definition fromBuffers (buffers : list SourceBuffer) : SyntaxTree :=
  {| treeBuffers := buffers; treeInherited := []; isLibrary := false |}.

(** The locals of [loadAndParseSources] together with the two members it
    writes, the source manager and the error list. *)
Record Frame := {
  sm : SourceManager;
  errs : list (fs_path * error_code);
  syntaxTrees : list TreePtr;
  singleUnitBuffers : list SourceBuffer;
  deferredLibBuffers : list SourceBuffer;
  inheritedMacros : list Macro;
  knownNames : gset string;
  nextMissingNames : gset string
}.

Definition set_sm (m : SourceManager) (fr : Frame) : Frame :=
  {| sm := m; errs := errs fr; syntaxTrees := syntaxTrees fr;
     singleUnitBuffers := singleUnitBuffers fr;
     deferredLibBuffers := deferredLibBuffers fr;
     inheritedMacros := inheritedMacros fr;
     knownNames := knownNames fr;
     nextMissingNames := nextMissingNames fr |}.

Definition set_errs (es : list (fs_path * error_code)) (fr : Frame) : Frame :=
  {| sm := sm fr; errs := es; syntaxTrees := syntaxTrees fr;
     singleUnitBuffers := singleUnitBuffers fr;
     deferredLibBuffers := deferredLibBuffers fr;
     inheritedMacros := inheritedMacros fr;
     knownNames := knownNames fr;
     nextMissingNames := nextMissingNames fr |}.

Definition set_syntaxTrees (ts : list TreePtr) (fr : Frame) : Frame :=
  {| sm := sm fr; errs := errs fr; syntaxTrees := ts;
     singleUnitBuffers := singleUnitBuffers fr;
     deferredLibBuffers := deferredLibBuffers fr;
     inheritedMacros := inheritedMacros fr;
     knownNames := knownNames fr;
     nextMissingNames := nextMissingNames fr |}.

Definition set_singleUnitBuffers (bs : list SourceBuffer) (fr : Frame) : Frame :=
  {| sm := sm fr; errs := errs fr; syntaxTrees := syntaxTrees fr;
     singleUnitBuffers := bs;
     deferredLibBuffers := deferredLibBuffers fr;
     inheritedMacros := inheritedMacros fr;
     knownNames := knownNames fr;
     nextMissingNames := nextMissingNames fr |}.

Definition set_deferredLibBuffers (bs : list SourceBuffer) (fr : Frame) : Frame :=
  {| sm := sm fr; errs := errs fr; syntaxTrees := syntaxTrees fr;
     singleUnitBuffers := singleUnitBuffers fr;
     deferredLibBuffers := bs;
     inheritedMacros := inheritedMacros fr;
     knownNames := knownNames fr;
     nextMissingNames := nextMissingNames fr |}.

Definition set_inheritedMacros (ms : list Macro) (fr : Frame) : Frame :=
  {| sm := sm fr; errs := errs fr; syntaxTrees := syntaxTrees fr;
     singleUnitBuffers := singleUnitBuffers fr;
     deferredLibBuffers := deferredLibBuffers fr;
     inheritedMacros := ms;
     knownNames := knownNames fr;
     nextMissingNames := nextMissingNames fr |}.

Definition set_knownNames (k : gset string) (fr : Frame) : Frame :=
  {| sm := sm fr; errs := errs fr; syntaxTrees := syntaxTrees fr;
     singleUnitBuffers := singleUnitBuffers fr;
     deferredLibBuffers := deferredLibBuffers fr;
     inheritedMacros := inheritedMacros fr;
     knownNames := k;
     nextMissingNames := nextMissingNames fr |}.

Definition set_nextMissingNames (n : gset string) (fr : Frame) : Frame :=
  {| sm := sm fr; errs := errs fr; syntaxTrees := syntaxTrees fr;
     singleUnitBuffers := singleUnitBuffers fr;
     deferredLibBuffers := deferredLibBuffers fr;
     inheritedMacros := inheritedMacros fr;
     knownNames := knownNames fr;
     nextMissingNames := n |}.

(** The frame on entry: empty locals, the loader's manager and errors. *)
Definition enterFrame (s : SourceLoader) : Frame :=
  {| sm := sourceManager s; errs := errors s; syntaxTrees := [];
     singleUnitBuffers := []; deferredLibBuffers := [];
     inheritedMacros := []; knownNames := ∅; nextMissingNames := ∅ |}.

(** The loader on return: the manager and the error list written back. *)
Definition leaveFrame (fr : Frame) (s : SourceLoader) : SourceLoader :=
  {| sourceManager := sm fr; fileEntries := fileEntries s;
     fileIndex := fileIndex s; libraries := libraries s;
     libraryMapTrees := libraryMapTrees s;
     searchDirectories := searchDirectories s;
     searchExtensions := searchExtensions s;
     uniqueExtensions := uniqueExtensions s; errors := errs fr |}.

(** The lambda [handleLoadResult]: one case per alternative. *)
Definition handleLoadResult (fr : Frame) (result : LoadResult) : Frame :=
  match result with
  | LoadedTree tree => set_syntaxTrees (syntaxTrees fr ++ [tree]) fr
  | LoadedBuffer buffer isDeferredLib =>
      if isDeferredLib
      then set_deferredLibBuffers (deferredLibBuffers fr ++ [buffer]) fr
      else set_singleUnitBuffers (singleUnitBuffers fr ++ [buffer]) fr
  | LoadFailed entry code => set_errs (errs fr ++ [(path entry, code)]) fr
  end.

(** The thread pool.  [ThreadPool::pushLoop(0, n, body)] hands blocks of
    [0..n) to worker threads, and [waitForAll] returns when all are done.
    A schedule names, for each of the two loops of
    [loadAndParseSources] and each [n], the order in which the iterations
    take effect; it is fair when that order lists exactly the indices
    below [n]. *)
Record Schedule := {
  firstPass : nat → list nat;
  secondPass : nat → list nat
}.

Definition fair (sched : Schedule) : Prop :=
  ∀ n, firstPass sched n ≡ₚ seq 0 n ∧ secondPass sched n ≡ₚ seq 0 n.

Definition pushLoop {S} (order : list nat) (body : nat → S → Checked S)
    (st : S) : Checked S :=
  foldC (λ st i, body i st) st order.

Section Pipeline.
Context (X : Externals).

Definition getMetadata (tree : SyntaxTree) : ParserMetadata :=
  parseMetadata X (treeBuffers tree) (treeInherited tree).

Definition getDefinedMacros (tree : SyntaxTree) : list Macro :=
  parseDefinedMacros X (treeBuffers tree) (treeInherited tree).

(** [SourceLoader::loadAndParse]: the read, then the three-way choice; the
    second branch asserts that the entry is a library file. *)
Definition loadAndParse (m : SourceManager) (entry : FileEntry)
    (srcOptions : SourceOptions) : SourceManager * Checked LoadResult :=
  match readSource (fsFiles X) m (path entry) (library entry) with
  | (m, inl ec) => (m, Done (LoadFailed entry ec))
  | (m, inr buffer) =>
      if negb (isLibraryFile entry) && singleUnit srcOptions then
        (m, Done (LoadedBuffer buffer false))
      else if librariesInheritMacros srcOptions then
        if isLibraryFile entry then (m, Done (LoadedBuffer buffer true))
        else (m, Abort AssertionFailed)
      else
        let tree := fromBuffer buffer [] in
        let tree := if isLibraryFile entry || onlyLint srcOptions
                    then markLibrary tree else tree in
        (m, Done (LoadedTree (Some tree)))
  end.

(** The lambda [parseSingleUnit]. *)
Definition parseSingleUnit (srcOptions : SourceOptions) (fr : Frame)
    (buffers : list SourceBuffer) : Frame :=
  match buffers with
  | [] => fr
  | _ =>
      let tree := fromBuffers buffers in
      let tree := if onlyLint srcOptions then markLibrary tree else tree in
      let fr := set_syntaxTrees (syntaxTrees fr ++ [Some tree]) fr in
      set_inheritedMacros (getDefinedMacros tree) fr
  end.

(** A deferred library buffer parsed with the inherited macros. *)
Definition parseDeferred (fr : Frame) (buffer : SourceBuffer) : SyntaxTree :=
  markLibrary (fromBuffer buffer (inheritedMacros fr)).

(** The [else] branch of [loadAndParseSources]: everything on the calling
    thread, entry by entry. *)
Definition parseSequential (srcOptions : SourceOptions)
    (entries : list FileEntry) (fr : Frame) : Checked Frame :=
  fr ← foldC (λ fr entry,
               let '(m, result) := loadAndParse (sm fr) entry srcOptions in
               result ← result;
               Done (handleLoadResult (set_sm m fr) result))
             fr entries;
  let fr := parseSingleUnit srcOptions fr (singleUnitBuffers fr) in
  match deferredLibBuffers fr with
  | [] => Done fr
  | _ =>
      Done (foldl (λ fr buffer,
                     set_syntaxTrees
                       (syntaxTrees fr ++ [Some (parseDeferred fr buffer)]) fr)
                  fr (deferredLibBuffers fr))
  end.

(** The [then] branch: the per-file pass fills [loadResults] slot by slot
    on the pool, the results are handled after the barrier, and the
    deferred libraries are parsed into the resized tail of [syntaxTrees]. *)
Definition parseThreaded (sched : Schedule) (srcOptions : SourceOptions)
    (entries : list FileEntry) (fr : Frame) : Checked Frame :=
  let loadResults := replicate (length entries) (LoadedTree None) in
  '(m, loadResults) ←
    pushLoop (firstPass sched (length entries))
      (λ i '(m, loadResults),
         match entries !! i with
         | None => Abort OutOfRange
         | Some entry =>
             let '(m, result) := loadAndParse m entry srcOptions in
             result ← result;
             Done (m, <[i := result]> loadResults)
         end)
      (sm fr, loadResults);
  let fr := foldl handleLoadResult (set_sm m fr) loadResults in
  let fr := parseSingleUnit srcOptions fr (singleUnitBuffers fr) in
  match deferredLibBuffers fr with
  | [] => Done fr
  | _ =>
      let numTrees := length (syntaxTrees fr) in
      let resized :=
        syntaxTrees fr ++ replicate (length (deferredLibBuffers fr)) None in
      trees ←
        pushLoop (secondPass sched (length (deferredLibBuffers fr)))
          (λ i trees,
             match deferredLibBuffers fr !! i with
             | None => Abort OutOfRange
             | Some buffer =>
                 Done (<[i + numTrees := Some (parseDeferred fr buffer)]> trees)
             end)
          resized;
      Done (set_syntaxTrees trees fr)
  end.

(** ** Discovery in the search directories *)

Definition insertNonEmpty (names : gset string) (name : string) : gset string :=
  if isEmpty name then names else {[name]} ∪ names.

(** The lambda [addKnownNames]. *)
Definition addKnownNames (known : gset string) (tree : SyntaxTree)
    : gset string :=
  let meta := getMetadata tree in
  let known := foldl insertNonEmpty known (nodeMap meta) in
  foldl insertNonEmpty known (classDecls meta).

(** The lambda [findMissingNames]; [known] is the captured [knownNames].
    Global instances and interface ports are not tested for an empty
    name. *)
Definition findMissingNames (known : gset string) (tree : SyntaxTree)
    (missing : gset string) : gset string :=
  let meta := getMetadata tree in
  let plain missing name :=
    if bool_decide (name ∈ known) then missing else {[name]} ∪ missing in
  let guarded missing name :=
    if negb (isEmpty name) && negb (bool_decide (name ∈ known))
    then {[name]} ∪ missing else missing in
  let missing := foldl plain missing (globalInstances meta) in
  let missing := foldl guarded missing (classPackageNames meta) in
  let missing := foldl (foldl guarded) missing (packageImports meta) in
  foldl plain missing (interfacePorts meta).

(** The loop over [searchExtensions] inside one directory: [p] is the
    path variable, whose extension is replaced in place. *)
Fixpoint tryExtensions (m : SourceManager) (p : fs_path)
    (exts : list fs_path) : SourceManager * option SourceBuffer :=
  match exts with
  | [] => (m, None)
  | ext :: exts' =>
      let p := replace_extension X p ext in
      if isCached m p then tryExtensions m p exts'
      else match readSource (fsFiles X) m p None with
           | (m, inr buffer) => (m, Some buffer)
           | (m, inl _) => tryExtensions m p exts'
           end
  end.

(** The loop over [searchDirectories] for one missing name. *)
Fixpoint searchDirs (m : SourceManager) (name : string)
    (dirs exts : list fs_path) : SourceManager * option SourceBuffer :=
  match dirs with
  | [] => (m, None)
  | dir :: dirs' =>
      let p := path_append X dir name in
      match tryExtensions m p exts with
      | (m, Some buffer) => (m, Some buffer)
      | (m, None) => searchDirs m name dirs' exts
      end
  end.

(** The body of the loop over [missingNames]. *)
Definition discoverName (dirs exts : list fs_path) (fr : Frame)
    (name : string) : Frame :=
  match searchDirs (sm fr) name dirs exts with
  | (m, Some buffer) =>
      let tree := markLibrary (fromBuffer buffer (inheritedMacros fr)) in
      let fr := set_syntaxTrees (syntaxTrees fr ++ [Some tree]) (set_sm m fr) in
      let fr := set_knownNames (addKnownNames (knownNames fr) tree) fr in
      set_nextMissingNames
        (findMissingNames (knownNames fr) tree (nextMissingNames fr)) fr
  | (m, None) => set_sm m fr
  end.

(** One turn of the [while (true)] loop up to its exit test: every name of
    [missingNames], in the iteration order of the hash set. *)
Definition discoverRound (dirs exts : list fs_path) (fr : Frame)
    (missingNames : gset string) : Frame :=
  foldl (discoverName dirs exts) fr (elements missingNames).

(** The [while (true)] loop; [nextMissingNames] is empty on entry and
    emptied again after it has been moved into [missingNames]. *)
Fixpoint discoverLoop (fuel : nat) (dirs exts : list fs_path) (fr : Frame)
    (missingNames : gset string) : Checked Frame :=
  match fuel with
  | O => Abort OutOfFuel
  | S fuel' =>
      let fr := discoverRound dirs exts fr missingNames in
      if bool_decide (nextMissingNames fr = ∅) then Done fr
      else discoverLoop fuel' dirs exts (set_nextMissingNames ∅ fr)
                        (nextMissingNames fr)
  end.

(** Using a tree of [syntaxTrees] through its pointer. *)
Definition deref (tree : TreePtr) : Checked SyntaxTree :=
  match tree with
  | Some t => Done t
  | None => Abort NullDereference
  end.

(** The block guarded by [!searchDirectories.empty()]. *)
Definition discover (fuel : nat) (dirs exts : list fs_path) (fr : Frame)
    : Checked Frame :=
  known ← foldC (λ known tree, t ← deref tree; Done (addKnownNames known t))
                ∅ (syntaxTrees fr);
  missingNames ←
    foldC (λ missing tree, t ← deref tree;
                           Done (findMissingNames known t missing))
          ∅ (syntaxTrees fr);
  discoverLoop fuel dirs exts
    (set_nextMissingNames ∅ (set_knownNames known fr)) missingNames.

(** The parse phase: the choice between the two branches. *)
Definition parsePhase (sched : Schedule) (srcOptions : SourceOptions)
    (entries : list FileEntry) (fr : Frame) : Checked Frame :=
  if bool_decide (MinFilesForThreading X ≤ length entries)
     && negb (bool_decide (numThreads srcOptions = Some 1))
  then parseThreaded sched srcOptions entries fr
  else parseSequential srcOptions entries fr.

(** [SourceLoader::loadAndParseSources]. *)
Definition loadAndParseSources (sched : Schedule) (fuel : nat)
    (srcOptions : SourceOptions) (s : SourceLoader)
    : Checked (list TreePtr * SourceLoader) :=
  fr ← parsePhase sched srcOptions (fileEntries s) (enterFrame s);
  fr ← (match searchDirectories s with
        | [] => Done fr
        | _ => discover fuel (searchDirectories s) (searchExtensions s) fr
        end);
  Done (syntaxTrees fr, leaveFrame fr s).

End Pipeline.

(** * Derived notions

    What the theorems are stated with: registration requests and the
    registry invariant, the parse phase and the search in closed form, and
    the order of the tree list. *)

(** ** Registration requests *)

(** One registration request: the arguments of one turn of the loop in
    [addFilesInternal]. *)
Record Registration := {
  regPath : fs_path;
  regIsLibraryFile : bool;
  regLibrary : option SourceLibrary;
  regRank : GlobRank
}.

Definition register (s : SourceLoader) (r : Registration) : SourceLoader :=
  registerFile (regIsLibraryFile r) (regLibrary r) (regRank r) s (regPath r).

Definition registerAll (s : SourceLoader) (rs : list Registration)
    : SourceLoader :=
  foldl register s rs.

(** The flags of the requests made for one path. *)
Definition flagsFor (p : fs_path) (rs : list Registration) : list bool :=
  regIsLibraryFile <$> filter (λ r, regPath r = p) rs.

(** The registry invariant: the index holds exactly the positions of the
    entries, by path. *)
Definition wfRegistry (s : SourceLoader) : Prop :=
  ∀ p i, fileIndex s !! p = Some i ↔
         ∃ e, fileEntries s !! i = Some e ∧ path e = p.

(** What a failed pattern expansion may change: one more error record for
    the widened pattern, and none of the three registries. *)
Definition onlyErrorAdded (pattern : string) (ec : error_code)
    (s s' : SourceLoader) : Prop :=
  errors s' = errors s ++ [(widen pattern, ec)]
  ∧ fileEntries s' = fileEntries s
  ∧ fileIndex s' = fileIndex s
  ∧ searchDirectories s' = searchDirectories s.

(** ** The parse phase in closed form

    The outcome of the per-file pass described entry by entry, and the tree
    list described group by group: the trees parsed at once, then the one
    single-unit tree, then the trees of the deferred libraries. *)

Section ClosedForm.
Context (X : Externals) (srcOptions : SourceOptions).

(** The result [loadAndParse] has for an entry, the assertion set aside. *)
Definition outcomeOf (entry : FileEntry) : LoadResult :=
  match fsFiles X !! path entry with
  | None => LoadFailed entry no_such_file_or_directory
  | Some text =>
      let buffer := {| bufPath := path entry; bufData := text;
                       bufLibrary := library entry |} in
      if negb (isLibraryFile entry) && singleUnit srcOptions then
        LoadedBuffer buffer false
      else if librariesInheritMacros srcOptions then
        LoadedBuffer buffer true
      else
        LoadedTree
          (Some (if isLibraryFile entry || onlyLint srcOptions
                 then markLibrary (fromBuffer buffer [])
                 else fromBuffer buffer []))
  end.

(** Whether the asserted condition of [loadAndParse] holds for an entry,
    or is not reached. *)
Definition assertionHolds (entry : FileEntry) : bool :=
  match fsFiles X !! path entry with
  | None => true
  | Some _ =>
      (negb (isLibraryFile entry) && singleUnit srcOptions)
      || negb (librariesInheritMacros srcOptions)
      || isLibraryFile entry
  end.

(** The cache after reading a path, and after reading several. *)
Definition noteRead (m : SourceManager) (p : fs_path) : SourceManager :=
  match fsFiles X !! p with
  | Some _ => {| cached := {[p]} ∪ cached m |}
  | None => m
  end.

Definition noteReads (m : SourceManager) (ps : list fs_path) : SourceManager :=
  {| cached := list_to_set (filter (λ p, is_Some (fsFiles X !! p)) ps)
               ∪ cached m |}.

(** The results of each kind, in the order of the results. *)
Definition eagerTrees (rs : list LoadResult) : list TreePtr :=
  omap (λ r, match r with LoadedTree t => Some t | _ => None end) rs.

Definition singleBuffers (rs : list LoadResult) : list SourceBuffer :=
  omap (λ r, match r with LoadedBuffer b false => Some b | _ => None end) rs.

Definition deferredBuffers (rs : list LoadResult) : list SourceBuffer :=
  omap (λ r, match r with LoadedBuffer b true => Some b | _ => None end) rs.

Definition failures (rs : list LoadResult) : list (fs_path * error_code) :=
  omap (λ r, match r with LoadFailed e c => Some (path e, c) | _ => None end) rs.

(** The frame after all results have been handled. *)
Definition handled (fr : Frame) (m : SourceManager) (rs : list LoadResult)
    : Frame :=
  {| sm := m; errs := errs fr ++ failures rs;
     syntaxTrees := syntaxTrees fr ++ eagerTrees rs;
     singleUnitBuffers := singleUnitBuffers fr ++ singleBuffers rs;
     deferredLibBuffers := deferredLibBuffers fr ++ deferredBuffers rs;
     inheritedMacros := inheritedMacros fr;
     knownNames := knownNames fr;
     nextMissingNames := nextMissingNames fr |}.

(** The frame with the trees of all deferred libraries appended. *)
Definition withDeferred (fr : Frame) : Frame :=
  set_syntaxTrees
    (syntaxTrees fr
     ++ ((λ b, Some (parseDeferred fr b)) <$> deferredLibBuffers fr)) fr.

(** The frame the parse phase ends with. *)
Definition parsed (entries : list FileEntry) (fr : Frame) : Frame :=
  let fr := handled fr (noteReads (sm fr) (path <$> entries))
                    (outcomeOf <$> entries) in
  withDeferred (parseSingleUnit X srcOptions fr (singleUnitBuffers fr)).

(** The entries the iterations of a schedule visit, in that order. *)
Definition visited (entries : list FileEntry) (order : list nat)
    : list FileEntry :=
  omap (λ i, entries !! i) order.

(** The result vector after the iterations of the first loop on the pool:
    slot [i] is written by iteration [i]. *)
Definition fillSlots (entries : list FileEntry) (slots : list LoadResult)
    (order : list nat) : list LoadResult :=
  foldl (λ slots i,
           <[i := from_option outcomeOf (LoadedTree None)
                    (entries !! i)]> slots)
        slots order.

(** The tree vector after the iterations of the second loop on the pool. *)
Definition fillTrees (fr : Frame) (buffers : list SourceBuffer)
    (numTrees : nat) (trees : list TreePtr) (order : list nat)
    : list TreePtr :=
  foldl (λ trees i,
           <[i + numTrees :=
               from_option (λ b, Some (parseDeferred fr b)) None
                 (buffers !! i)]> trees)
        trees order.

End ClosedForm.

(** ** The search in the search directories, in closed form *)

Section SearchOrder.
Context (X : Externals).

(** The values the path variable takes inside one directory: the
    extension is replaced on the value the previous turn left. *)
Fixpoint extensionChain (p : fs_path) (exts : list fs_path) : list fs_path :=
  match exts with
  | [] => []
  | ext :: exts' =>
      let p := replace_extension X p ext in p :: extensionChain p exts'
  end.

(** All candidate paths for a name: directory by directory and, within a
    directory, extension by extension. *)
Fixpoint candidatePaths (name : string) (dirs exts : list fs_path)
    : list fs_path :=
  match dirs with
  | [] => []
  | dir :: dirs' =>
      extensionChain (path_append X dir name) exts
      ++ candidatePaths name dirs' exts
  end.

(** A candidate is taken when it is not cached and can be read. *)
Definition acceptable (m : SourceManager) (p : fs_path) : bool :=
  negb (isCached m p) && bool_decide (is_Some (fsFiles X !! p)).

Definition accept (m : SourceManager) (p : fs_path)
    : SourceManager * option SourceBuffer :=
  match fsFiles X !! p with
  | Some text =>
      ({| cached := {[p]} ∪ cached m |},
       Some {| bufPath := p; bufData := text; bufLibrary := None |})
  | None => (m, None)
  end.

Definition firstAcceptable (m : SourceManager) (ps : list fs_path)
    : SourceManager * option SourceBuffer :=
  match find (acceptable m) ps with
  | Some p => accept m p
  | None => (m, None)
  end.

(** The number of readable files not yet read. *)
Definition unread (m : SourceManager) : nat :=
  size (dom (fsFiles X) ∖ cached m).

(** A tree as discovery makes it: one buffer read for no library, parsed
    under the given inherited macros, marked as library. *)
Definition discovered (inherited : list Macro) (tree : TreePtr) : Prop :=
  ∃ b, tree = Some {| treeBuffers := [b]; treeInherited := inherited;
                      isLibrary := true |}
       ∧ bufLibrary b = None
       ∧ fsFiles X !! bufPath b = Some (bufData b).

(** What discovery may do to a frame: append discovered trees, each of
    them one more file read. *)
Definition grows (fr fr' : Frame) : Prop :=
  ∃ new, syntaxTrees fr' = syntaxTrees fr ++ new
         ∧ Forall (discovered (inheritedMacros fr)) new
         ∧ inheritedMacros fr' = inheritedMacros fr
         ∧ errs fr' = errs fr
         ∧ unread (sm fr') + length new ≤ unread (sm fr).

End SearchOrder.

(** ** The order of the tree list *)

Section TreeOrder.
Context (X : Externals) (srcOptions : SourceOptions).

(** The single-unit tree over the given buffers. *)
Definition unitTree (buffers : list SourceBuffer) : SyntaxTree :=
  if onlyLint srcOptions then markLibrary (fromBuffers buffers)
  else fromBuffers buffers.

(** The macros the deferred libraries inherit: those the single-unit tree
    defines, and none when there is no such tree. *)
Definition finalMacros (buffers : list SourceBuffer) : list Macro :=
  match buffers with
  | [] => []
  | _ => getDefinedMacros X (unitTree buffers)
  end.

(** The tree list of the parse phase: first the trees parsed at once, in
    the order of the file entries; then the one single-unit tree, if any
    buffer was kept for it; then one tree per deferred library buffer, in
    the order of the file entries. *)
Definition treeOrder (entries : list FileEntry) : list TreePtr :=
  let rs := outcomeOf X srcOptions <$> entries in
  eagerTrees rs
  ++ match singleBuffers rs with
     | [] => []
     | buffers => [Some (unitTree buffers)]
     end
  ++ ((λ b, Some (markLibrary (fromBuffer b (finalMacros (singleBuffers rs)))))
      <$> deferredBuffers rs).

End TreeOrder.

(** The options with threading turned off. *)
Definition singleThreaded (srcOptions : SourceOptions) : SourceOptions :=
  {| numThreads := Some 1; singleUnit := singleUnit srcOptions;
     onlyLint := onlyLint srcOptions;
     librariesInheritMacros := librariesInheritMacros srcOptions |}.

(** * Examples *)

Definition libA : SourceLibrary := {| libName := "A" |}.
Definition libB : SourceLibrary := {| libName := "B" |}.
Definition libC : SourceLibrary := {| libName := "C" |}.

Definition freshLoader : SourceLoader := newSourceLoader {| cached := ∅ |}.

(** A path registered once for library A at rank 1. *)
Definition registeredOnce : SourceLoader :=
  registerFile true (Some libA) 1 freshLoader "a.v".

(** Library and direct registrations of one path among those of another. *)
Definition mixedRequests : list Registration :=
  [ {| regPath := "a.v"; regIsLibraryFile := true;
       regLibrary := Some libA; regRank := 1 |};
    {| regPath := "b.v"; regIsLibraryFile := true;
       regLibrary := Some libA; regRank := 1 |};
    {| regPath := "a.v"; regIsLibraryFile := false;
       regLibrary := None; regRank := 0 |};
    {| regPath := "a.v"; regIsLibraryFile := true;
       regLibrary := Some libB; regRank := 0 |} ].

(** Collaborators whose glob expansion fails for every pattern. *)
Definition brokenGlob : Externals :=
  {| svGlob := λ _ _ _ _, {| globRank := 0; globFiles := []; globEc := 13 |};
     fsFiles := ∅;
     parent_path := λ p, p;
     path_append := λ d n, d;
     replace_extension := λ p e, p;
     parseLibraryMap := λ _, [];
     parseMetadata := λ _ _,
       {| nodeMap := []; classDecls := []; globalInstances := [];
          classPackageNames := []; packageImports := [];
          interfacePorts := [] |};
     parseDefinedMacros := λ _ _, [];
     MinFilesForThreading := 4 |}.

(** ** A small project for the examples

    Two readable sources on the command line ([top.v], [cell.v]), one that
    cannot be read ([gone.v]), and a search directory [lib] holding
    [leaf.sv].  [top] instantiates [leaf] and [ghost]; no file defines
    [ghost]. *)

Fixpoint stem (s : string) : string :=
  match s with
  | EmptyString => EmptyString
  | String c rest => if Ascii.eqb c (Ascii.ascii_of_nat 46) then EmptyString else String c (stem rest)
  end.

Definition demoDeclared (b : SourceBuffer) : list string :=
  if bool_decide (bufPath b = "top.v") then ["top"]
  else if bool_decide (bufPath b = "cell.v") then ["cell"]
  else if bool_decide (bufPath b = "lib/leaf.sv") then ["leaf"]
  else [].

Definition demoInstances (b : SourceBuffer) : list string :=
  if bool_decide (bufPath b = "top.v") then ["leaf"; "ghost"] else [].

Definition demoMacros (b : SourceBuffer) : list Macro :=
  if bool_decide (bufPath b = "top.v") then ["WIDTH"] else [].

Definition demo : Externals :=
  {| svGlob := λ _ pattern _ _,
       {| globRank := 0; globFiles := [pattern]; globEc := 0 |};
     fsFiles := {[ "top.v" := "module top; leaf l(); ghost g(); endmodule";
                   "cell.v" := "module cell; endmodule";
                   "lib/leaf.sv" := "module leaf; endmodule" ]};
     parent_path := λ p, p;
     path_append := λ d n, d +:+ "/" +:+ n;
     replace_extension := λ p e, stem p +:+ e;
     parseLibraryMap := λ _, [];
     parseMetadata := λ buffers _,
       {| nodeMap := flat_map demoDeclared buffers; classDecls := [];
          globalInstances := flat_map demoInstances buffers;
          classPackageNames := []; packageImports := [];
          interfacePorts := [] |};
     parseDefinedMacros := λ buffers _, flat_map demoMacros buffers;
     MinFilesForThreading := 2 |}.

Definition demoLoader : SourceLoader :=
  addSearchDirectories demo "lib"
    (addLibraryFiles demo "cells" "cell.v"
       (addFiles demo "gone.v" (addFiles demo "top.v" freshLoader))).

Definition plainOptions : SourceOptions :=
  {| numThreads := None; singleUnit := false; onlyLint := false;
     librariesInheritMacros := false |}.

(** Libraries inherit macros, with no single unit to inherit from. *)
Definition inheritOptions : SourceOptions :=
  {| numThreads := None; singleUnit := false; onlyLint := false;
     librariesInheritMacros := true |}.

(** Single-unit mode with macro inheritance. *)
Definition unitOptions : SourceOptions :=
  {| numThreads := None; singleUnit := true; onlyLint := false;
     librariesInheritMacros := true |}.

(** What a returned tree was parsed from, what it inherited and its flag. *)
Definition describe (tree : TreePtr)
    : option (list fs_path * list Macro * bool) :=
  (λ t, (bufPath <$> treeBuffers t, treeInherited t, isLibrary t)) <$> tree.

Definition describeRun (r : Checked (list TreePtr * SourceLoader))
    : option (list (option (list fs_path * list Macro * bool))
              * list (fs_path * error_code)) :=
  match r with
  | Done (trees, s) => Some (describe <$> trees, errors s)
  | Abort _ => None
  end.

(** The pool finishing its iterations last to first. *)
Definition reversed : Schedule :=
  {| firstPass := λ n, rev (seq 0 n); secondPass := λ n, rev (seq 0 n) |}.

(** * More of the loader *)

(** [SourceLoader::loadSources]: the buffers of the entries that can be
    read, in the order of the entries; a failed read adds an error record
    and the loop goes on. *)
Definition loadSources (X : Externals) (s : SourceLoader)
    : list SourceBuffer * SourceLoader :=
  foldl (λ '(results, s) entry,
           match readSource (fsFiles X) (sourceManager s) (path entry)
                   (library entry) with
           | (m, inl ec) =>
               (results, add_error (path entry) ec (set_sourceManager m s))
           | (m, inr buffer) =>
               (results ++ [buffer], set_sourceManager m s)
           end)
        ([], s) (fileEntries s).

(** ** Derived notions for the registry *)

(** The requests made for one path, and one request applied to the entry
    the path already has. *)
Definition requestsFor (p : fs_path) (rs : list Registration)
    : list Registration :=
  filter (λ r, regPath r = p) rs.

Definition applyRequest (e : FileEntry) (r : Registration) : FileEntry :=
  updateEntry (regIsLibraryFile r) (regLibrary r) (regRank r) e.

(** The requests [addFilesInternal] makes for a list of globbed paths. *)
Definition requestsOf (isLib : bool) (lib : option SourceLibrary)
    (rank : GlobRank) (files : list fs_path) : list Registration :=
  (λ p, {| regPath := p; regIsLibraryFile := isLib;
           regLibrary := lib; regRank := rank |}) <$> files.

(** Every library is filed under its own name. *)
(** The paths of a list that a registry does not hold yet, each at its
    first occurrence. *)
Fixpoint newPaths (seen : gset string) (files : list fs_path)
    : list fs_path :=
  match files with
  | [] => []
  | p :: rest =>
      if bool_decide (p ∈ seen) then newPaths seen rest
      else p :: newPaths ({[p]} ∪ seen) rest
  end.

Definition namesKeyed (s : SourceLoader) : Prop :=
  ∀ n lib, libraries s !! n = Some lib → libName lib = n.

(** The extension list holds each unique extension once. *)
Definition extensionsListed (s : SourceLoader) : Prop :=
  NoDup (searchExtensions s)
  ∧ list_to_set (searchExtensions s) = uniqueExtensions s.

(** An entry owned by the given library and reached through libraries
    only. *)
Definition libraryOwned (lib : SourceLibrary) (e : FileEntry) : Prop :=
  isLibraryFile e = true ∧ library e = Some lib.

(** What a loader holds is only ever added to: the second loader has
    everything the first one has, at the same positions. *)
Definition onlyGrows (s s' : SourceLoader) : Prop :=
  errors s `prefix_of` errors s'
  ∧ (path <$> fileEntries s) `prefix_of` (path <$> fileEntries s')
  ∧ libraries s ⊆ libraries s'
  ∧ libraryMapTrees s `prefix_of` libraryMapTrees s'
  ∧ searchDirectories s `prefix_of` searchDirectories s'
  ∧ searchExtensions s `prefix_of` searchExtensions s'.

(** The members of a library map that [addLibraryMaps] handles without
    loading a further map. *)
Definition plainMember (m : LibraryMapMember) : bool :=
  match m with
  | ConfigDeclaration | EmptyMember | LibraryDeclaration _ _ => true
  | LibraryIncludeStatement _ | OtherMember => false
  end.

(** The first map file of one pattern includes, after plain members only,
    a second pattern. *)
Definition includesNext (X : Externals) (pattern : string)
    (basePath : fs_path) (pattern' : string) (basePath' : fs_path) : Prop :=
  let g := svGlob X basePath pattern Files true in
  ∃ p rest text plain filePath others,
    failed (globEc g) = false
    ∧ globFiles g = p :: rest
    ∧ fsFiles X !! p = Some text
    ∧ parseLibraryMap X {| bufPath := p; bufData := text; bufLibrary := None |}
      = plain ++ LibraryIncludeStatement filePath :: others
    ∧ forallb plainMember plain = true
    ∧ getPathFromSpec filePath = pattern'
    ∧ pattern' ≠ ""
    ∧ parent_path X p = basePath'.

(** The library map tree of a readable map file. *)
Definition mapTreeOf (X : Externals) (p : fs_path) : option LibraryMapTree :=
  (λ text, let buffer := {| bufPath := p; bufData := text;
                            bufLibrary := None |} in
           {| mapBuffer := buffer; members := parseLibraryMap X buffer |})
  <$> fsFiles X !! p.

(** Whether the include statements reachable from a pattern nest to
    fewer than [depth] levels, with no member of an unknown kind on the
    way. *)
Fixpoint finiteIncludes (X : Externals) (depth : nat) (pattern : string)
    (basePath : fs_path) (expandEnvVars : bool) : bool :=
  match depth with
  | O => false
  | S depth' =>
      let g := svGlob X basePath pattern Files expandEnvVars in
      failed (globEc g)
      || forallb (λ p,
           match mapTreeOf X p with
           | None => true
           | Some tree =>
               forallb (λ member,
                 match member with
                 | ConfigDeclaration | EmptyMember
                 | LibraryDeclaration _ _ => true
                 | LibraryIncludeStatement filePath =>
                     isEmpty (getPathFromSpec filePath)
                     || finiteIncludes X depth' (getPathFromSpec filePath)
                          (parent_path X p) true
                 | OtherMember => false
                 end) (members tree)
           end) (globFiles g)
  end.

(** A map file that cannot be read, or that holds plain members only. *)
Definition flatMap (X : Externals) (p : fs_path) : bool :=
  match mapTreeOf X p with
  | Some tree => forallb plainMember (members tree)
  | None => true
  end.

(** A library map that includes a second one, which declares a
    library. *)
Definition nestedMaps : Externals :=
  {| svGlob := λ _ pattern _ _,
       {| globRank := 0; globFiles := [pattern]; globEc := 0 |};
     fsFiles := {[ "top.map" := "include <sub.map>;";
                   "sub.map" := "library cells <cell.v>;";
                   "cell.v" := "module cell; endmodule" ]};
     parent_path := λ _, "";
     path_append := λ d n, d +:+ "/" +:+ n;
     replace_extension := λ p e, p +:+ e;
     parseLibraryMap := λ b,
       if bool_decide (bufPath b = "top.map")
       then [LibraryIncludeStatement "<sub.map>"]
       else [LibraryDeclaration "cells" ["<cell.v>"]];
     parseMetadata := λ _ _, {| nodeMap := []; classDecls := [];
                                globalInstances := [];
                                classPackageNames := [];
                                packageImports := [];
                                interfacePorts := [] |};
     parseDefinedMacros := λ _ _, [];
     MinFilesForThreading := 2 |}.

(** A library map that includes itself. *)
Definition loopMap : Externals :=
  {| svGlob := λ _ pattern _ _,
       {| globRank := 0; globFiles := [pattern]; globEc := 0 |};
     fsFiles := {[ "maps.lib" := "include <maps.lib>;" ]};
     parent_path := λ _, "";
     path_append := λ d n, d +:+ "/" +:+ n;
     replace_extension := λ p e, p +:+ e;
     parseLibraryMap := λ _, [EmptyMember; LibraryIncludeStatement "<maps.lib>"];
     parseMetadata := λ _ _, {| nodeMap := []; classDecls := [];
                              globalInstances := [];
                              classPackageNames := [];
                              packageImports := [];
                              interfacePorts := [] |};
     parseDefinedMacros := λ _ _, [];
     MinFilesForThreading := 2 |}.

(** The library declarations of a map, taken in order. *)
Definition declareLibraries (X : Externals) (basePath : fs_path)
    (s : SourceLoader) (ms : list LibraryMapMember) : SourceLoader :=
  foldl (λ s member,
           match member with
           | LibraryDeclaration name filePaths =>
               createLibrary X name filePaths basePath s
           | _ => s
           end) s ms.

(** What [addLibraryMaps] does for one map file without includes. *)
Definition loadFlatMap (X : Externals) (s : SourceLoader) (p : fs_path)
    : SourceLoader :=
  match mapTreeOf X p with
  | Some tree =>
      declareLibraries X (parent_path X p)
        (set_libraryMapTrees (libraryMapTrees s ++ [tree])
           (set_sourceManager {| cached := {[p]} ∪ cached (sourceManager s) |}
              s))
        (members tree)
  | None =>
      add_error p no_such_file_or_directory
        (set_sourceManager (sourceManager s) s)
  end.

(** The buffer a file entry is read into, if it can be read, and the error
    recorded for it otherwise. *)
Definition bufferOf (X : Externals) (e : FileEntry) : option SourceBuffer :=
  (λ text, {| bufPath := path e; bufData := text; bufLibrary := library e |})
  <$> fsFiles X !! path e.

Definition readFailure (X : Externals) (e : FileEntry)
    : option (fs_path * error_code) :=
  match fsFiles X !! path e with
  | Some _ => None
  | None => Some (path e, no_such_file_or_directory)
  end.

(** The buffers of the trees of a list. *)
Definition buffersOf (trees : list TreePtr) : list SourceBuffer :=
  flat_map (from_option treeBuffers []) trees.

(** The paths the trees of a list were read from. *)
Definition pathsOf (trees : list TreePtr) : list fs_path :=
  bufPath <$> buffersOf trees.

(** Discovery as a reader: the trees it appends are read from readable
    files that were not cached and are pairwise different, and the cache
    grows by exactly these files. *)
Definition readsFresh (X : Externals) (fr fr' : Frame) : Prop :=
  ∃ new, syntaxTrees fr' = syntaxTrees fr ++ new
         ∧ NoDup (pathsOf new)
         ∧ (∀ p, p ∈ pathsOf new →
                 (p ∉ cached (sm fr)) ∧ is_Some (fsFiles X !! p))
         ∧ cached (sm fr') = cached (sm fr) ∪ list_to_set (pathsOf new).

(** The names a tree declares and the names it refers to, as
    [addKnownNames] and [findMissingNames] read them from its metadata. *)
Definition declaredNames (X : Externals) (tree : SyntaxTree) : list string :=
  nodeMap (getMetadata X tree) ++ classDecls (getMetadata X tree).

Definition instanceNames (X : Externals) (tree : SyntaxTree) : list string :=
  globalInstances (getMetadata X tree) ++ interfacePorts (getMetadata X tree).

Definition scopeNames (X : Externals) (tree : SyntaxTree) : list string :=
  classPackageNames (getMetadata X tree)
  ++ concat (packageImports (getMetadata X tree)).

(** The buffers of the readable direct files, and of the readable library
    files, in the order of the file entries. *)
Definition directBuffers (X : Externals) (entries : list FileEntry)
    : list SourceBuffer :=
  omap (bufferOf X) (filter (λ e, isLibraryFile e = false) entries).

Definition libraryBuffers (X : Externals) (entries : list FileEntry)
    : list SourceBuffer :=
  omap (bufferOf X) (filter (λ e, isLibraryFile e = true) entries).

(** The tree of a file parsed on its own. *)
Definition ownTree (srcOptions : SourceOptions) (e : FileEntry)
    (b : SourceBuffer) : SyntaxTree :=
  if isLibraryFile e || onlyLint srcOptions
  then markLibrary (fromBuffer b []) else fromBuffer b [].

(** The options with [librariesInheritMacros] set as given. *)
Definition inheriting (inherit : bool) (srcOptions : SourceOptions)
    : SourceOptions :=
  {| numThreads := numThreads srcOptions; singleUnit := singleUnit srcOptions;
     onlyLint := onlyLint srcOptions; librariesInheritMacros := inherit |}.

(** A loader of library files only. *)
Definition cellsOnly : SourceLoader :=
  addSearchDirectories demo "lib"
    (addLibraryFiles demo "cells" "cell.v" freshLoader).

(** * ParameterBuilder *)

(** The embedding of [source/symbols/ParameterBuilder.cpp]: the matching
    of parameter assignments with parameter declarations in
    [setAssignments], and the two [createDecls].  Syntax nodes are records
    of what the functions read from them; a diagnostic is what is handed
    to [Scope::addDiag], with its arguments and notes. *)
Module ParameterBuilder.

Definition SourceLocation := nat.

(** An expression node, named by its text. *)
Definition ExpressionSyntax := string.

Inductive DiagCode :=
  | MixingOrderedAndNamedParams
  | DuplicateParamAssignment
  | NotePreviousUsage
  | TooManyParamAssignments
  | AssignedToLocalPortParam
  | AssignedToLocalBodyParam
  | NoteDeclarationHere
  | ParameterDoesNotExist.

Inductive DiagArg :=
  | ArgText (text : string)
  | ArgNumber (n : Z).

Record Diagnostic := {
  code : DiagCode;
  diagLocation : SourceLocation;
  args : list DiagArg;
  notes : list (DiagCode * SourceLocation)
}.

(** [OrderedParamAssignmentSyntax]: its first token and [expr]. *)
Record OrderedParamAssignmentSyntax := {
  ordFirstToken : SourceLocation;
  ordExpr : ExpressionSyntax
}.

(** [NamedParamAssignmentSyntax]: its first token, the text and the
    location of [name], and [expr], which may be null. *)
Record NamedParamAssignmentSyntax := {
  nasFirstToken : SourceLocation;
  nasName : string;
  nasNameLocation : SourceLocation;
  nasExpr : option ExpressionSyntax
}.

Inductive ParamAssignmentSyntax :=
  | OrderedParamAssignment (o : OrderedParamAssignmentSyntax)
  | NamedParamAssignment (nas : NamedParamAssignmentSyntax).

Definition isOrderedKind (paramBase : ParamAssignmentSyntax) : bool :=
  match paramBase with
  | OrderedParamAssignment _ => true
  | NamedParamAssignment _ => false
  end.

Definition firstTokenLocation (paramBase : ParamAssignmentSyntax)
    : SourceLocation :=
  match paramBase with
  | OrderedParamAssignment o => ordFirstToken o
  | NamedParamAssignment nas => nasFirstToken nas
  end.

(** [Definition::ParameterDecl], declared in a header that is not among
    the sources: the members [setAssignments] reads. *)
Record Decl := {
  name : string;
  location : SourceLocation;
  isLocalParam : bool;
  isPortParam : bool
}.

(** The builder: the members [setAssignments] reads and writes, and the
    diagnostics of its scope. *)
Record Builder := {
  definitionName : string;
  parameterDecls : list Decl;
  assignments : gmap string ExpressionSyntax;
  diags : list Diagnostic
}.

(** [SmallMap::emplace]: a key that is present keeps its value. *)
Definition emplace {V} (key : string) (value : V) (m : gmap string V)
    : gmap string V :=
  match m !! key with
  | Some _ => m
  | None => <[key := value]> m
  end.

(** The locals of [setAssignments] the first loop fills, with the
    diagnostics it adds. *)
Record Collected := {
  hasParamAssignments : bool;
  orderedAssignments : bool;
  orderedParams : list OrderedParamAssignmentSyntax;
  namedParams : gmap string (NamedParamAssignmentSyntax * bool);
  collectedDiags : list Diagnostic
}.

Definition set_kind (isOrdered : bool) (c : Collected) : Collected :=
  {| hasParamAssignments := true; orderedAssignments := isOrdered;
     orderedParams := orderedParams c; namedParams := namedParams c;
     collectedDiags := collectedDiags c |}.

Definition add_diag (d : Diagnostic) (c : Collected) : Collected :=
  {| hasParamAssignments := hasParamAssignments c;
     orderedAssignments := orderedAssignments c;
     orderedParams := orderedParams c; namedParams := namedParams c;
     collectedDiags := collectedDiags c ++ [d] |}.

(** The diagnostics [setAssignments] adds, with their arguments and
    notes. *)
Definition mixingDiag (paramBase : ParamAssignmentSyntax) : Diagnostic :=
  {| code := MixingOrderedAndNamedParams;
     diagLocation := firstTokenLocation paramBase;
     args := []; notes := [] |}.

Definition duplicateDiag (nas previous : NamedParamAssignmentSyntax)
    : Diagnostic :=
  {| code := DuplicateParamAssignment;
     diagLocation := nasNameLocation nas;
     args := [ArgText (nasName nas)];
     notes := [(NotePreviousUsage, nasNameLocation previous)] |}.

Definition tooManyDiag (definition : string) (size orderedIndex : Z)
    (o : OrderedParamAssignmentSyntax) : Diagnostic :=
  {| code := TooManyParamAssignments;
     diagLocation := ordFirstToken o;
     args := [ArgText definition; ArgNumber size; ArgNumber orderedIndex];
     notes := [] |}.

Definition localDiag (param : Decl) (arg : NamedParamAssignmentSyntax)
    : Diagnostic :=
  {| code := if isPortParam param then AssignedToLocalPortParam
             else AssignedToLocalBodyParam;
     diagLocation := nasNameLocation arg;
     args := [];
     notes := [(NoteDeclarationHere, location param)] |}.

Definition unknownDiag (definition : string)
    (argSyntax : NamedParamAssignmentSyntax) : Diagnostic :=
  {| code := ParameterDoesNotExist;
     diagLocation := nasNameLocation argSyntax;
     args := [ArgText (nasName argSyntax); ArgText definition];
     notes := [] |}.

(** The second half of the body of the first loop. *)
Definition recordParam (paramBase : ParamAssignmentSyntax) (c : Collected)
    : Collected :=
  match paramBase with
  | OrderedParamAssignment o =>
      {| hasParamAssignments := hasParamAssignments c;
         orderedAssignments := orderedAssignments c;
         orderedParams := orderedParams c ++ [o];
         namedParams := namedParams c;
         collectedDiags := collectedDiags c |}
  | NamedParamAssignment nas =>
      if isEmpty (nasName nas) then c
      else
        match namedParams c !! nasName nas with
        | None =>
            {| hasParamAssignments := hasParamAssignments c;
               orderedAssignments := orderedAssignments c;
               orderedParams := orderedParams c;
               namedParams := <[nasName nas := (nas, false)]> (namedParams c);
               collectedDiags := collectedDiags c |}
        | Some (previous, _) => add_diag (duplicateDiag nas previous) c
        end
  end.

(** The first loop; it is left at the first assignment of the other
    kind. *)
Fixpoint collectParams (parameters : list ParamAssignmentSyntax)
    (c : Collected) : Collected :=
  match parameters with
  | [] => c
  | paramBase :: rest =>
      let isOrdered := isOrderedKind paramBase in
      if negb (hasParamAssignments c) then
        collectParams rest (recordParam paramBase (set_kind isOrdered c))
      else if negb (Bool.eqb isOrdered (orderedAssignments c)) then
        add_diag (mixingDiag paramBase) c
      else collectParams rest (recordParam paramBase c)
  end.

(** [uint32_t] arithmetic. *)
Definition uint32 (z : Z) : Z := (z mod 2 ^ 32)%Z.

(** The loop over [parameterDecls] for ordered assignments; it yields
    [orderedIndex] and the assignments. *)
Fixpoint assignOrdered (ordered : list OrderedParamAssignmentSyntax)
    (decls : list Decl) (orderedIndex : Z)
    (assigned : gmap string ExpressionSyntax)
    : Checked (Z * gmap string ExpressionSyntax) :=
  match decls with
  | [] => Done (orderedIndex, assigned)
  | param :: rest =>
      if (Z.of_nat (length ordered) <=? orderedIndex)%Z
      then Done (orderedIndex, assigned)
      else if isLocalParam param
      then assignOrdered ordered rest orderedIndex assigned
      else
        match ordered !! Z.to_nat orderedIndex with
        | Some o =>
            assignOrdered ordered rest (uint32 (orderedIndex + 1))
              (emplace (name param) (ordExpr o) assigned)
        | None => Abort OutOfRange
        end
  end.

(** The body of the loop over [parameterDecls] for named assignments. *)
Definition assignNamed
    (st : gmap string (NamedParamAssignmentSyntax * bool)
          * gmap string ExpressionSyntax * list Diagnostic)
    (param : Decl)
    : gmap string (NamedParamAssignmentSyntax * bool)
      * gmap string ExpressionSyntax * list Diagnostic :=
  let '(named, assigned, ds) := st in
  match named !! name param with
  | None => st
  | Some (arg, _) =>
      let named := <[name param := (arg, true)]> named in
      if isLocalParam param then
        (named, assigned, ds ++ [localDiag param arg])
      else
        match nasExpr arg with
        | None => (named, assigned, ds)
        | Some expr => (named, emplace (name param) expr assigned, ds)
        end
  end.

(** The loop over [namedParams] for what was not used, in the iteration
    order of the map. *)
Definition reportUnused (definition : string)
    (named : gmap string (NamedParamAssignmentSyntax * bool))
    (ds : list Diagnostic) : list Diagnostic :=
  foldl (λ ds '(_, (argSyntax, used)),
           if used : bool then ds
           else ds ++ [unknownDiag definition argSyntax])
        ds (map_to_list named).

(** [ParameterBuilder::setAssignments]. *)
Definition setAssignments (b : Builder)
    (parameters : list ParamAssignmentSyntax) : Checked Builder :=
  let c := collectParams parameters
             {| hasParamAssignments := false; orderedAssignments := true;
                orderedParams := []; namedParams := ∅;
                collectedDiags := diags b |} in
  if orderedAssignments c then
    '(orderedIndex, assigned) ←
      assignOrdered (orderedParams c) (parameterDecls b) 0 (assignments b);
    if (orderedIndex <? Z.of_nat (length (orderedParams c)))%Z then
      match orderedParams c !! Z.to_nat orderedIndex with
      | Some o =>
          Done {| definitionName := definitionName b;
                  parameterDecls := parameterDecls b;
                  assignments := assigned;
                  diags := collectedDiags c
                           ++ [tooManyDiag (definitionName b)
                                 (Z.of_nat (length (orderedParams c)))
                                 orderedIndex o] |}
      | None => Abort OutOfRange
      end
    else
      Done {| definitionName := definitionName b;
              parameterDecls := parameterDecls b;
              assignments := assigned;
              diags := collectedDiags c |}
  else
    let '(named, assigned, ds) :=
      foldl assignNamed (namedParams c, assignments b, collectedDiags c)
            (parameterDecls b) in
    Done {| definitionName := definitionName b;
            parameterDecls := parameterDecls b;
            assignments := assigned;
            diags := reportUnused (definitionName b) named ds |}.

(** The first named assignment of a name. *)
Definition firstNamed (ns : list NamedParamAssignmentSyntax) (x : string)
    : option NamedParamAssignmentSyntax :=
  find (λ nas, bool_decide (nasName nas = x)) ns.

(** ** [createDecls] *)

Inductive TokenKind := ParameterKeyword | LocalParamKeyword.

(** A declarator of a value parameter or of a type parameter, named by
    its text. *)
Definition DeclaratorSyntax := string.

(** [ParameterDeclarationBaseSyntax]: one of two kinds, each with its
    [keyword] token, which may be missing, and its declarators. *)
Inductive ParameterDeclarationBaseSyntax :=
  | ParameterDeclaration (keyword : option TokenKind)
      (declarators : list DeclaratorSyntax)
  | TypeParameterDeclaration (keyword : option TokenKind)
      (declarators : list DeclaratorSyntax).

Definition keywordOf (syntax : ParameterDeclarationBaseSyntax)
    : option TokenKind :=
  match syntax with
  | ParameterDeclaration keyword _ | TypeParameterDeclaration keyword _ =>
      keyword
  end.

Definition declaratorsOf (syntax : ParameterDeclarationBaseSyntax)
    : list DeclaratorSyntax :=
  match syntax with
  | ParameterDeclaration _ ds | TypeParameterDeclaration _ ds => ds
  end.

(** What [results.emplace] is given: the constructor of a declaration is
    not among the sources, so a result is the record of its arguments;
    [ofType] tells which of the two constructors is called. *)
Record DeclArgs := {
  ofType : bool;
  declSyntax : ParameterDeclarationBaseSyntax;
  declarator : DeclaratorSyntax;
  isLocal : bool;
  isPort : bool
}.

(** [createDecls] for one declaration. *)
Definition createDecls (syntax : ParameterDeclarationBaseSyntax)
    (isLocal isPort : bool) (results : list DeclArgs) : list DeclArgs :=
  match syntax with
  | ParameterDeclaration _ declarators =>
      foldl (λ results decl,
               results ++ [{| ofType := false; declSyntax := syntax;
                              declarator := decl; isLocal := isLocal;
                              isPort := isPort |}])
            results declarators
  | TypeParameterDeclaration _ declarators =>
      foldl (λ results decl,
               results ++ [{| ofType := true; declSyntax := syntax;
                              declarator := decl; isLocal := isLocal;
                              isPort := isPort |}])
            results declarators
  end.

(** The body of the loop of [createDecls] for a parameter port list: a
    declaration without keyword takes over the keyword of the one
    before. *)
Definition portStep (st : bool * list DeclArgs)
    (declaration : ParameterDeclarationBaseSyntax) : bool * list DeclArgs :=
  let '(lastLocal, results) := st in
  let lastLocal :=
    match keywordOf declaration with
    | Some kind =>
        match kind with
        | LocalParamKeyword => true
        | ParameterKeyword => false
        end
    | None => lastLocal
    end in
  (lastLocal, createDecls declaration lastLocal true results).

(** [createDecls] for a parameter port list. *)
Definition createPortDecls (declarations : list ParameterDeclarationBaseSyntax)
    (results : list DeclArgs) : list DeclArgs :=
  (foldl portStep (false, results) declarations).2.

(** The keyword in force after a run of declarations: that of the last
    declaration that has one, and [parameter] when none has. *)
Definition inheritedLocal (declarations : list ParameterDeclarationBaseSyntax)
    : bool :=
  match last (omap keywordOf declarations) with
  | Some LocalParamKeyword => true
  | Some ParameterKeyword | None => false
  end.

(** What [createDecls] hands over for one declarator. *)
Definition declFor (syntax : ParameterDeclarationBaseSyntax)
    (isLocal isPort : bool) (decl : DeclaratorSyntax) : DeclArgs :=
  {| ofType := match syntax with
               | ParameterDeclaration _ _ => false
               | TypeParameterDeclaration _ _ => true
               end;
     declSyntax := syntax; declarator := decl;
     isLocal := isLocal; isPort := isPort |}.

End ParameterBuilder.

(** A definition with two port parameters around a local one, and three
    assignments for it. *)
Definition widthDecls : list ParameterBuilder.Decl :=
  [ {| ParameterBuilder.name := "WIDTH"; ParameterBuilder.location := 1;
       ParameterBuilder.isLocalParam := false;
       ParameterBuilder.isPortParam := true |};
    {| ParameterBuilder.name := "HALF"; ParameterBuilder.location := 2;
       ParameterBuilder.isLocalParam := true;
       ParameterBuilder.isPortParam := true |};
    {| ParameterBuilder.name := "DEPTH"; ParameterBuilder.location := 3;
       ParameterBuilder.isLocalParam := false;
       ParameterBuilder.isPortParam := true |} ].

Definition fifoBuilder : ParameterBuilder.Builder :=
  {| ParameterBuilder.definitionName := "fifo";
     ParameterBuilder.parameterDecls := widthDecls;
     ParameterBuilder.assignments := ∅;
     ParameterBuilder.diags := [] |}.

Definition threeOrdered : list ParameterBuilder.OrderedParamAssignmentSyntax :=
  [ {| ParameterBuilder.ordFirstToken := 10; ParameterBuilder.ordExpr := "8" |};
    {| ParameterBuilder.ordFirstToken := 11; ParameterBuilder.ordExpr := "16" |};
    {| ParameterBuilder.ordFirstToken := 12; ParameterBuilder.ordExpr := "32" |} ].

Definition threeNamed : list ParameterBuilder.NamedParamAssignmentSyntax :=
  [ {| ParameterBuilder.nasFirstToken := 20;
       ParameterBuilder.nasName := "DEPTH";
       ParameterBuilder.nasNameLocation := 21;
       ParameterBuilder.nasExpr := Some "16" |};
    {| ParameterBuilder.nasFirstToken := 22;
       ParameterBuilder.nasName := "HALF";
       ParameterBuilder.nasNameLocation := 23;
       ParameterBuilder.nasExpr := Some "4" |};
    {| ParameterBuilder.nasFirstToken := 24;
       ParameterBuilder.nasName := "SPEED";
       ParameterBuilder.nasNameLocation := 25;
       ParameterBuilder.nasExpr := Some "2" |} ].

(** An ordered assignment followed by a named one and more. *)
Definition mixedFirst : ParameterBuilder.ParamAssignmentSyntax :=
  ParameterBuilder.OrderedParamAssignment
    {| ParameterBuilder.ordFirstToken := 10; ParameterBuilder.ordExpr := "8" |}.

Definition mixedOther : ParameterBuilder.ParamAssignmentSyntax :=
  ParameterBuilder.NamedParamAssignment
    {| ParameterBuilder.nasFirstToken := 20;
       ParameterBuilder.nasName := "DEPTH";
       ParameterBuilder.nasNameLocation := 21;
       ParameterBuilder.nasExpr := Some "16" |}.

(** A parameter port list: [parameter A, B, localparam C, type T]. *)
Definition portList : list ParameterBuilder.ParameterDeclarationBaseSyntax :=
  [ ParameterBuilder.ParameterDeclaration
      (Some ParameterBuilder.ParameterKeyword) ["A"];
    ParameterBuilder.ParameterDeclaration None ["B"];
    ParameterBuilder.ParameterDeclaration
      (Some ParameterBuilder.LocalParamKeyword) ["C"];
    ParameterBuilder.TypeParameterDeclaration None ["T"] ].

(** * Theorems *)

(** ** The registry *)

Lemma path_updateEntry isLib lib rank e :
  path (updateEntry isLib lib rank e) = path e.
Proof.
  unfold updateEntry. repeat case_match; reflexivity.
Qed.

Lemma isLibraryFile_updateEntry isLib lib rank e :
  isLibraryFile (updateEntry isLib lib rank e) = isLibraryFile e && isLib.
Proof.
  unfold updateEntry. repeat case_match; reflexivity.
Qed.

Lemma wf_freshLoader m : wfRegistry (newSourceLoader m).
Proof.
  intros p i. cbn. rewrite lookup_empty. split; [done|].
  intros (e & He & _). by rewrite lookup_nil in He.
Qed.

Lemma wf_registerFile isLib lib rank s p :
  wfRegistry s → wfRegistry (registerFile isLib lib rank s p).
Proof.
  unfold wfRegistry. intros Hwf q i. unfold registerFile.
  destruct (fileIndex s !! p) as [j|] eqn:Hp; cbn.
  - rewrite Hwf. rewrite list_lookup_alter. split.
    + intros (e & He & Hq). case_decide; subst.
      * rewrite He. eexists; split; [done|]. apply path_updateEntry.
      * eauto.
    + intros (e & He & Hq). case_decide; subst; [|eauto].
      destruct (fileEntries s !! i) as [e0|]; [|done].
      injection He as <-. rewrite path_updateEntry. eauto.
  - destruct (decide (p = q)) as [<-|Hne].
    + rewrite lookup_insert_eq. split.
      * intros [= <-]. eexists. split; [apply list_lookup_middle; done|done].
      * intros (e & He & Hq).
        destruct (decide (i < length (fileEntries s))) as [Hlt|Hge].
        -- rewrite lookup_app_l in He by done.
           assert (fileIndex s !! p = Some i) by (apply Hwf; eauto). congruence.
        -- apply lookup_lt_Some in He as Hi. rewrite length_app in Hi. cbn in Hi.
           f_equal. lia.
    + rewrite lookup_insert_ne by done. rewrite Hwf. split.
      * intros (e & He & Hq). exists e. split; [|done].
        by apply lookup_app_l_Some.
      * intros (e & He & Hq). exists e. split; [|done].
        apply lookup_app_Some in He as [He|[Hlen He]]; [done|].
        destruct (i - length (fileEntries s)) eqn:Hd; cbn in He; [|done].
        injection He as <-. cbn in Hq. done.
Qed.

Lemma entryOf_registerFile_fresh isLib lib rank s p :
  fileIndex s !! p = None →
  entryOf (registerFile isLib lib rank s p) p
  = Some (newFileEntry p isLib lib rank).
Proof.
  intros Hp. unfold entryOf, registerFile. rewrite Hp. cbn.
  rewrite lookup_insert_eq. cbn. by apply list_lookup_middle.
Qed.

Lemma entryOf_registerFile_seen isLib lib rank s p e :
  entryOf s p = Some e →
  entryOf (registerFile isLib lib rank s p) p
  = Some (updateEntry isLib lib rank e).
Proof.
  unfold entryOf, registerFile.
  destruct (fileIndex s !! p) as [i|] eqn:Hp; [|done]. cbn.
  intros He. rewrite Hp. cbn. rewrite list_lookup_alter_eq, He. done.
Qed.

Lemma fileIndex_registerFile_other isLib lib rank s p q :
  p ≠ q →
  fileIndex (registerFile isLib lib rank s q) !! p = fileIndex s !! p.
Proof.
  intros Hne. unfold registerFile.
  destruct (fileIndex s !! q); cbn; [done|]. by rewrite lookup_insert_ne.
Qed.

Lemma entryOf_registerFile_other isLib lib rank s p q :
  wfRegistry s → p ≠ q →
  entryOf (registerFile isLib lib rank s q) p = entryOf s p.
Proof.
  intros Hwf Hne. unfold entryOf.
  rewrite fileIndex_registerFile_other by done.
  destruct (fileIndex s !! p) as [i|] eqn:Hp; [|done]. cbn.
  apply Hwf in Hp as (e & He & Hpe).
  unfold registerFile.
  destruct (fileIndex s !! q) as [j|] eqn:Hq; cbn.
  - rewrite list_lookup_alter_ne; [done|].
    intros ->. apply Hwf in Hq as (e' & He' & Hqe). congruence.
  - rewrite He. by apply lookup_app_l_Some.
Qed.

Lemma wf_registerAll s rs : wfRegistry s → wfRegistry (registerAll s rs).
Proof.
  revert s. induction rs as [|r rs IH]; intros s Hwf; [done|].
  cbn. apply IH. by apply wf_registerFile.
Qed.

Lemma flagsFor_cons_eq r rs :
  flagsFor (regPath r) (r :: rs) = regIsLibraryFile r :: flagsFor (regPath r) rs.
Proof. unfold flagsFor. by rewrite filter_cons_True. Qed.

Lemma flagsFor_cons_ne p r rs :
  regPath r ≠ p → flagsFor p (r :: rs) = flagsFor p rs.
Proof. intros Hne. unfold flagsFor. by rewrite filter_cons_False. Qed.

Lemma registerAll_flag_seen s rs p e :
  wfRegistry s → entryOf s p = Some e →
  ∃ e', entryOf (registerAll s rs) p = Some e'
        ∧ isLibraryFile e' = isLibraryFile e && forallb id (flagsFor p rs).
Proof.
  revert s e. induction rs as [|r rs IH]; intros s e Hwf He.
  - exists e. split; [done|]. cbn. by rewrite andb_true_r.
  - change (registerAll s (r :: rs)) with (registerAll (register s r) rs).
    destruct (decide (regPath r = p)) as [<-|Hne].
    + edestruct (IH (register s r)) as (e' & He' & Hflag).
      * by apply wf_registerFile.
      * unfold register. by apply entryOf_registerFile_seen.
      * exists e'. split; [done|].
        rewrite Hflag, isLibraryFile_updateEntry, flagsFor_cons_eq. cbn.
        unfold id at 1. by rewrite andb_assoc.
    + rewrite flagsFor_cons_ne by done. apply IH.
      * by apply wf_registerFile.
      * unfold register. by rewrite entryOf_registerFile_other.
Qed.

Lemma registerAll_flag_unseen s rs p :
  wfRegistry s → fileIndex s !! p = None → p ∈ regPath <$> rs →
  ∃ e', entryOf (registerAll s rs) p = Some e'
        ∧ isLibraryFile e' = forallb id (flagsFor p rs).
Proof.
  revert s. induction rs as [|r rs IH]; intros s Hwf Hp Hin.
  - by apply elem_of_nil in Hin.
  - change (registerAll s (r :: rs)) with (registerAll (register s r) rs).
    destruct (decide (regPath r = p)) as [<-|Hne].
    + edestruct (registerAll_flag_seen (register s r) rs (regPath r))
        as (e' & He' & Hflag).
      * by apply wf_registerFile.
      * unfold register. by apply entryOf_registerFile_fresh.
      * exists e'. split; [done|]. by rewrite Hflag, flagsFor_cons_eq.
    + rewrite flagsFor_cons_ne by done. apply IH.
      * by apply wf_registerFile.
      * unfold register. by rewrite fileIndex_registerFile_other.
      * rewrite fmap_cons in Hin. apply elem_of_cons in Hin as [Heq|Hin]; [congruence|done].
Qed.

Lemma registerFile_keeps_direct isLib lib rank s p q e :
  entryOf s p = Some e → isLibraryFile e = false →
  ∃ e', entryOf (registerFile isLib lib rank s q) p = Some e'
        ∧ isLibraryFile e' = false.
Proof.
  unfold entryOf, registerFile.
  destruct (fileIndex s !! p) as [i|] eqn:Hp; [|done]. cbn. intros He Hflag.
  destruct (fileIndex s !! q) as [j|] eqn:Hq; cbn.
  - rewrite Hp. cbn. rewrite list_lookup_alter.
    case_decide; subst; rewrite He; cbn.
    + eexists. split; [done|]. by rewrite isLibraryFile_updateEntry, Hflag.
    + by exists e.
  - destruct (decide (q = p)) as [->|Hne]; [congruence|].
    rewrite lookup_insert_ne, Hp by done. cbn.
    exists e. split; [|done]. by apply lookup_app_l_Some.
Qed.

(** A lower rank takes over the library and the rank and leaves the second
    library as it was. *)
Lemma updateEntry_lower_rank isLib lib rank e :
  (rank < libraryRank e)%Z →
  updateEntry isLib (Some lib) rank e
  = {| path := path e; isLibraryFile := isLibraryFile e && isLib;
       library := Some lib; libraryRank := rank; secondLib := secondLib e |}.
Proof.
  intros Hlt. unfold updateEntry. cbn.
  apply Z.ltb_lt in Hlt. rewrite Hlt, orb_true_r. done.
Qed.

(** C1: a path registered for library A and then library B at rank 1 has
    its tie recorded; the later registration for library C at rank 0 takes
    over library and rank, and the recorded second library B is still
    there. *)
Theorem lower_rank_leaves_tie_record :
  entryOf (registerFile true (Some libC) 0
             (registerFile true (Some libB) 1
                (registerFile true (Some libA) 1 freshLoader "a.v") "a.v")
             "a.v") "a.v"
  = Some {| path := "a.v"; isLibraryFile := true; library := Some libC;
            libraryRank := 0; secondLib := Some libB |}.
Proof. vm_compute. reflexivity. Qed.

(** C2, as stated, fails: registering a path twice for the same library at
    the same rank leaves an entry that differs from the one a single
    registration leaves, its second library being the library itself. *)
Lemma identical_reregistration_differs :
  entryOf (registerFile true (Some libA) 1 registeredOnce "a.v") "a.v"
  ≠ entryOf registeredOnce "a.v"
  ∧ (secondLib <$> entryOf registeredOnce "a.v") = Some None
  ∧ (secondLib <$>
       entryOf (registerFile true (Some libA) 1 registeredOnce "a.v") "a.v")
    = Some (Some libA).
Proof. vm_compute. split; [discriminate|split; reflexivity]. Qed.

(** C2, amended: registering a fresh path twice with the same flag, the
    same library and the same rank adds exactly one entry; it has the path,
    flag, library and rank of the entry a single registration adds, and
    its second library is the registered library.  An equal-rank
    registration of a library records it as second library whether or not
    it differs from the stored one. *)
Theorem reregistration_adds_one_entry (s : SourceLoader) (p : fs_path)
    (isLib : bool) (lib : SourceLibrary) (rank : GlobRank) :
  fileIndex s !! p = None →
  let once := registerFile isLib (Some lib) rank s p in
  let twice := registerFile isLib (Some lib) rank once p in
  fileEntries once
    = fileEntries s ++ [{| path := p; isLibraryFile := isLib;
                           library := Some lib; libraryRank := rank;
                           secondLib := None |}]
  ∧ fileEntries twice
    = fileEntries s ++ [{| path := p; isLibraryFile := isLib;
                           library := Some lib; libraryRank := rank;
                           secondLib := Some lib |}]
  ∧ fileIndex twice = fileIndex once
  ∧ (∀ (e : FileEntry) (stored incoming : SourceLibrary) (f : bool),
       library e = Some stored →
       secondLib (updateEntry f (Some incoming) (libraryRank e) e)
       = Some incoming).
Proof.
  intros Hp once twice.
  assert (Honce : fileEntries once
    = fileEntries s ++ [newFileEntry p isLib (Some lib) rank]).
  { unfold once, registerFile. by rewrite Hp. }
  assert (Hix : fileIndex once !! p = Some (length (fileEntries s))).
  { unfold once, registerFile. rewrite Hp. cbn. apply lookup_insert_eq. }
  split; [done|]. split; [|split].
  - unfold twice, registerFile. rewrite Hix. cbn. rewrite Honce.
    rewrite alter_app_r_alt by done.
    rewrite Nat.sub_diag. cbn. f_equal. f_equal.
    unfold updateEntry. cbn. rewrite Z.ltb_irrefl, Z.eqb_refl.
    by rewrite andb_diag.
  - unfold twice, registerFile. by rewrite Hix.
  - intros e stored incoming f He. unfold updateEntry. cbn.
    rewrite He. cbn. by rewrite Z.ltb_irrefl, Z.eqb_refl.
Qed.

Lemma reregistration_adds_one_entry_witness :
  fileIndex freshLoader !! "a.v" = None
  ∧ fileEntries (registerFile true (Some libA) 1
                   (registerFile true (Some libA) 1 freshLoader "a.v") "a.v")
    = [{| path := "a.v"; isLibraryFile := true; library := Some libA;
          libraryRank := 1; secondLib := Some libA |}].
Proof.
  split; [reflexivity|].
  apply (reregistration_adds_one_entry freshLoader "a.v" true libA 1).
  reflexivity.
Defined.

(** C5: for a path registered twice for libraries, rank 2 then rank 1
    ends with the second library as owner at rank 1 and no tie; rank 1 then
    rank 1 for distinct libraries keeps the first as owner and records the
    second as tie; and a registration whose rank is above the stored one
    leaves library, rank and tie record alone, also on any entry already
    owned by a library. *)
Theorem library_precedence (s : SourceLoader) (p : fs_path)
    (A B : SourceLibrary) (f1 f2 : bool) :
  fileIndex s !! p = None →
  entryOf (registerFile f2 (Some B) 1 (registerFile f1 (Some A) 2 s p) p) p
  = Some {| path := p; isLibraryFile := f1 && f2; library := Some B;
            libraryRank := 1; secondLib := None |}
  ∧ (A ≠ B →
     entryOf (registerFile f2 (Some B) 1 (registerFile f1 (Some A) 1 s p) p) p
     = Some {| path := p; isLibraryFile := f1 && f2; library := Some A;
               libraryRank := 1; secondLib := Some B |})
  ∧ (∀ (r1 r2 : GlobRank) (lib2 : option SourceLibrary),
       (r1 < r2)%Z →
       entryOf (registerFile f2 lib2 r2 (registerFile f1 (Some A) r1 s p) p) p
       = Some {| path := p; isLibraryFile := f1 && f2; library := Some A;
                 libraryRank := r1; secondLib := None |})
  ∧ (∀ (s0 : SourceLoader) (e : FileEntry) (f : bool)
       (lib : option SourceLibrary) (rank : GlobRank),
       entryOf s0 p = Some e → library e ≠ None →
       (libraryRank e < rank)%Z →
       ∃ e', entryOf (registerFile f lib rank s0 p) p = Some e'
             ∧ library e' = library e
             ∧ libraryRank e' = libraryRank e
             ∧ secondLib e' = secondLib e).
Proof.
  intros Hp. repeat split.
  - erewrite entryOf_registerFile_seen
      by (by apply entryOf_registerFile_fresh). done.
  - intros _. erewrite entryOf_registerFile_seen
      by (by apply entryOf_registerFile_fresh). done.
  - intros r1 r2 lib2 Hlt.
    erewrite entryOf_registerFile_seen
      by (by apply entryOf_registerFile_fresh).
    f_equal. unfold updateEntry, newFileEntry. cbn.
    assert ((r2 <? r1)%Z = false) as -> by lia.
    assert ((r2 =? r1)%Z = false) as -> by lia.
    by destruct lib2.
  - intros s0 e f lib rank He Hlib Hlt.
    erewrite entryOf_registerFile_seen by done.
    eexists. split; [done|].
    unfold updateEntry. cbn.
    destruct (library e) as [l|] eqn:Hl; [|done]. cbn.
    assert ((rank <? libraryRank e)%Z = false) as -> by lia.
    assert ((rank =? libraryRank e)%Z = false) as -> by lia.
    by destruct lib.
Qed.

Lemma library_precedence_witness :
  fileIndex freshLoader !! "a.v" = None
  ∧ entryOf (registerFile true (Some libB) 1
               (registerFile true (Some libA) 2 freshLoader "a.v") "a.v")
            "a.v"
    = Some {| path := "a.v"; isLibraryFile := true; library := Some libB;
              libraryRank := 1; secondLib := None |}.
Proof.
  split; [reflexivity|].
  apply (library_precedence freshLoader "a.v" libA libB true true).
  reflexivity.
Defined.

(** ** Failed pattern expansion *)

Section GlobFailure.
Context (X : Externals).

(** Once the pattern is expanded, [addFilesInternal] is a run of
    registrations, one per path, all with the rank of the pattern. *)
Lemma addFilesInternal_registerAll pattern basePath isLib lib expandEnvVars s :
  let g := svGlob X basePath pattern Files expandEnvVars in
  failed (globEc g) = false →
  addFilesInternal X pattern basePath isLib lib expandEnvVars s
  = registerAll s
      ((λ p, {| regPath := p; regIsLibraryFile := isLib;
                regLibrary := lib; regRank := globRank g |}) <$> globFiles g).
Proof.
  intros g Hok. unfold addFilesInternal. fold g. rewrite Hok.
  unfold registerAll. generalize (globFiles g). intros l. revert s.
  induction l as [|p l IH]; intros s; [done|]. cbn. apply IH.
Qed.

Lemma addFilesInternal_failed pattern basePath isLib lib expandEnvVars s :
  let g := svGlob X basePath pattern Files expandEnvVars in
  failed (globEc g) = true →
  addFilesInternal X pattern basePath isLib lib expandEnvVars s
  = add_error (widen pattern) (globEc g) s.
Proof. intros g Hfail. unfold addFilesInternal. fold g. by rewrite Hfail. Qed.

Lemma onlyErrorAdded_add_error pattern ec s :
  onlyErrorAdded pattern ec s (add_error (widen pattern) ec s).
Proof. done. Qed.

Lemma getOrAddLibrary_registries name s :
  let s' := (getOrAddLibrary name s).1 in
  errors s' = errors s ∧ fileEntries s' = fileEntries s
  ∧ fileIndex s' = fileIndex s ∧ searchDirectories s' = searchDirectories s.
Proof.
  unfold getOrAddLibrary. destruct (isEmpty name); [done|].
  by destruct (libraries s !! name).
Qed.

End GlobFailure.

(** C10: when the expansion of the pattern fails, each of [addFiles],
    [addLibraryFiles], [addSearchDirectories] and [addLibraryMaps] returns
    with exactly one more error record, holding the widened pattern and the
    error code, and with the file entries, the path index and the search
    directories as they were. *)
Theorem failed_glob_only_adds_error (X : Externals) (s : SourceLoader)
    (pattern name : string) (basePath : fs_path) (expandEnvVars : bool)
    (fuel : nat) :
  (failed (globEc (svGlob X "" pattern Files false)) = true →
   onlyErrorAdded pattern (globEc (svGlob X "" pattern Files false)) s
     (addFiles X pattern s)
   ∧ onlyErrorAdded pattern (globEc (svGlob X "" pattern Files false)) s
       (addLibraryFiles X name pattern s))
  ∧ (failed (globEc (svGlob X "" pattern Directories false)) = true →
     onlyErrorAdded pattern (globEc (svGlob X "" pattern Directories false)) s
       (addSearchDirectories X pattern s))
  ∧ (failed (globEc (svGlob X basePath pattern Files expandEnvVars)) = true →
     ∃ s', addLibraryMaps X (S fuel) pattern basePath expandEnvVars s = Done s'
           ∧ onlyErrorAdded pattern
               (globEc (svGlob X basePath pattern Files expandEnvVars)) s s').
Proof.
  split; [|split].
  - intros Hfail. split.
    + unfold addFiles. rewrite addFilesInternal_failed by done.
      apply onlyErrorAdded_add_error.
    + unfold addLibraryFiles.
      pose proof (getOrAddLibrary_registries name s) as Hlib.
      destruct (getOrAddLibrary name s) as [s1 lib]. cbn in Hlib.
      destruct Hlib as (He & Hf & Hi & Hd).
      rewrite addFilesInternal_failed by done.
      unfold onlyErrorAdded. cbn. by rewrite He, Hf, Hi, Hd.
  - intros Hfail. unfold addSearchDirectories. by rewrite Hfail.
  - intros Hfail. cbn. rewrite Hfail. eexists. split; [done|].
    apply onlyErrorAdded_add_error.
Qed.

Lemma failed_glob_only_adds_error_witness :
  failed (globEc (svGlob brokenGlob "" "*.v" Files false)) = true
  ∧ onlyErrorAdded "*.v" 13 freshLoader
      (addLibraryFiles brokenGlob "lib" "*.v" freshLoader).
Proof.
  split; [reflexivity|].
  apply (proj1 (failed_glob_only_adds_error brokenGlob freshLoader
                  "*.v" "lib" "" false 0)).
  reflexivity.
Defined.

(** One direct registration of a path not yet in a well-formed registry
    makes its entry a direct file, whatever else is registered. *)
Lemma registerAll_direct s rs p :
  wfRegistry s → fileIndex s !! p = None → false ∈ flagsFor p rs →
  ∃ e, entryOf (registerAll s rs) p = Some e ∧ isLibraryFile e = false.
Proof.
  intros Hwf Hp Hfalse.
  assert (Hin : p ∈ regPath <$> rs).
  { unfold flagsFor in Hfalse.
    apply list_elem_of_fmap in Hfalse as (r & _ & Hr).
    apply list_elem_of_filter in Hr as [<- Hr].
    apply list_elem_of_fmap. eauto. }
  destruct (registerAll_flag_unseen s rs p Hwf Hp Hin) as (e & He & Hflag).
  exists e. split; [done|].
  rewrite Hflag. apply not_true_is_false. intros Hall.
  rewrite forallb_forall in Hall.
  apply list_elem_of_In, Hall in Hfalse. done.
Qed.

Lemma registerAll_app s rs1 rs2 :
  registerAll s (rs1 ++ rs2) = registerAll (registerAll s rs1) rs2.
Proof. unfold registerAll. apply foldl_app. Qed.

Lemma flagsFor_app p rs1 rs2 :
  flagsFor p (rs1 ++ rs2) = flagsFor p rs1 ++ flagsFor p rs2.
Proof. unfold flagsFor. by rewrite filter_app, fmap_app. Qed.

Lemma flagsFor_requests p isLib lib rank (files : list fs_path) :
  p ∈ files →
  isLib ∈ flagsFor p ((λ q, {| regPath := q; regIsLibraryFile := isLib;
                               regLibrary := lib; regRank := rank |})
                      <$> files).
Proof.
  intros Hin. unfold flagsFor.
  apply list_elem_of_fmap. eexists {| regPath := p |}. split; [reflexivity|].
  apply list_elem_of_filter. split; [done|].
  apply list_elem_of_fmap. by exists p.
Qed.

(** A path matched by a library pattern and by a direct pattern, on a new
    loader, in either order of the two calls. *)
Lemma addFiles_addLibraryFiles (X : Externals) m name libPattern pattern p :
  failed (globEc (svGlob X "" libPattern Files false)) = false →
  failed (globEc (svGlob X "" pattern Files false)) = false →
  p ∈ globFiles (svGlob X "" libPattern Files false) →
  p ∈ globFiles (svGlob X "" pattern Files false) →
  (∃ e, entryOf (addFiles X pattern
                   (addLibraryFiles X name libPattern (newSourceLoader m)))
                p = Some e
        ∧ isLibraryFile e = false)
  ∧ (∃ e, entryOf (addLibraryFiles X name libPattern
                     (addFiles X pattern (newSourceLoader m)))
                  p = Some e
          ∧ isLibraryFile e = false).
Proof.
  intros Hok1 Hok2 Hin1 Hin2. split.
  - unfold addFiles, addLibraryFiles.
    pose proof (getOrAddLibrary_registries name (newSourceLoader m)) as Hlib.
    destruct (getOrAddLibrary name (newSourceLoader m)) as [s1 lib].
    cbn in Hlib. destruct Hlib as (_ & Hf & Hi & _).
    rewrite !addFilesInternal_registerAll by done.
    rewrite <- registerAll_app. apply registerAll_direct.
    + intros q i. rewrite Hf, Hi. apply (wf_freshLoader m).
    + by rewrite Hi.
    + rewrite flagsFor_app. apply elem_of_app. right.
      by apply flagsFor_requests.
  - unfold addFiles, addLibraryFiles.
    rewrite (addFilesInternal_registerAll X pattern) by done.
    set (s1 := registerAll _ _).
    pose proof (getOrAddLibrary_registries name s1) as Hlib.
    destruct (getOrAddLibrary name s1) as [s2 lib].
    cbn in Hlib. destruct Hlib as (_ & Hf & Hi & _).
    rewrite addFilesInternal_registerAll by done.
    destruct (registerAll_direct (newSourceLoader m)
                ((λ q, {| regPath := q; regIsLibraryFile := false;
                          regLibrary := None;
                          regRank := globRank (svGlob X "" pattern Files false) |})
                 <$> globFiles (svGlob X "" pattern Files false)) p)
      as (e & He & Hflag);
      [apply wf_freshLoader|done|by apply flagsFor_requests|].
    fold s1 in He.
    assert (Hwf2 : wfRegistry s2).
    { intros q i. rewrite Hf, Hi. apply wf_registerAll, wf_freshLoader. }
    assert (He2 : entryOf s2 p = Some e).
    { unfold entryOf in *. by rewrite Hf, Hi. }
    destruct (registerAll_flag_seen s2
                ((λ q, {| regPath := q; regIsLibraryFile := true;
                          regLibrary := lib;
                          regRank := globRank (svGlob X "" libPattern Files false) |})
                 <$> globFiles (svGlob X "" libPattern Files false)) p e Hwf2 He2)
      as (e' & He' & Hflag').
    exists e'. split; [done|]. by rewrite Hflag', Hflag.
Qed.

(** C6: in the registry built from a new loader by any sequence of
    registrations, the flag of a registered path is the conjunction of the
    flags of all registrations of that path; one direct registration among
    them makes it false; a false flag stays false under any further
    registration, of whatever path; and a path matched by a pattern given
    to [addLibraryFiles] and by one given to [addFiles] is a direct file in
    the end, whichever call came first. *)
Theorem direct_wins_over_library (m : SourceManager)
    (rs : list Registration) (p : fs_path) :
  (p ∈ regPath <$> rs →
   ∃ e, entryOf (registerAll (newSourceLoader m) rs) p = Some e
        ∧ isLibraryFile e = forallb id (flagsFor p rs))
  ∧ (false ∈ flagsFor p rs →
     ∃ e, entryOf (registerAll (newSourceLoader m) rs) p = Some e
          ∧ isLibraryFile e = false)
  ∧ (∀ (s : SourceLoader) (e : FileEntry) (r : Registration),
       entryOf s p = Some e → isLibraryFile e = false →
       ∃ e', entryOf (register s r) p = Some e'
             ∧ isLibraryFile e' = false)
  ∧ (∀ (X : Externals) (name libPattern pattern : string),
       failed (globEc (svGlob X "" libPattern Files false)) = false →
       failed (globEc (svGlob X "" pattern Files false)) = false →
       p ∈ globFiles (svGlob X "" libPattern Files false) →
       p ∈ globFiles (svGlob X "" pattern Files false) →
       (∃ e, entryOf (addFiles X pattern
                        (addLibraryFiles X name libPattern (newSourceLoader m)))
                     p = Some e
             ∧ isLibraryFile e = false)
       ∧ (∃ e, entryOf (addLibraryFiles X name libPattern
                          (addFiles X pattern (newSourceLoader m)))
                       p = Some e
               ∧ isLibraryFile e = false)).
Proof.
  assert (Hand : p ∈ regPath <$> rs →
    ∃ e, entryOf (registerAll (newSourceLoader m) rs) p = Some e
         ∧ isLibraryFile e = forallb id (flagsFor p rs)).
  { intros Hin. apply registerAll_flag_unseen; [apply wf_freshLoader|done|done]. }
  split; [done|]. split_and!.
  - intros Hfalse. apply registerAll_direct; [apply wf_freshLoader|done..].
  - intros s e r He Hflag. unfold register.
    by eapply registerFile_keeps_direct.
  - intros X name libPattern pattern Hok1 Hok2 Hin1 Hin2.
    by apply addFiles_addLibraryFiles.
Qed.

Lemma direct_wins_over_library_witness :
  false ∈ flagsFor "a.v" mixedRequests
  ∧ ∃ e, entryOf (registerAll freshLoader mixedRequests) "a.v" = Some e
         ∧ isLibraryFile e = false.
Proof.
  assert (H : false ∈ flagsFor "a.v" mixedRequests).
  { vm_compute. apply list_elem_of_further, list_elem_of_here. }
  split; [exact H|].
  exact (proj1 (proj2 (direct_wins_over_library {| cached := ∅ |}
                         mixedRequests "a.v")) H).
Defined.

(** ** The parse phase *)

Section ParsePhase.
Context (X : Externals) (srcOptions : SourceOptions).

Lemma loadAndParse_unfold m entry :
  loadAndParse X m entry srcOptions
  = (noteRead X m (path entry),
     if assertionHolds X srcOptions entry
     then Done (outcomeOf X srcOptions entry) else Abort AssertionFailed).
Proof.
  unfold loadAndParse, readSource, noteRead, assertionHolds, outcomeOf.
  destruct (fsFiles X !! path entry) as [text|]; [|done].
  destruct (isLibraryFile entry), (singleUnit srcOptions),
    (librariesInheritMacros srcOptions); reflexivity.
Qed.

Lemma handled_nil fr : handled fr (sm fr) [] = fr.
Proof. destruct fr. unfold handled. cbn. by rewrite !app_nil_r. Qed.

Lemma handled_cons fr m r rs :
  handled (handleLoadResult fr r) m rs = handled fr m (r :: rs).
Proof.
  unfold handled.
  destruct r as [t|b [|]|e c]; cbn; rewrite <- ?app_assoc; reflexivity.
Qed.

Lemma handleLoadResult_set_sm fr m r :
  handleLoadResult (set_sm m fr) r = set_sm m (handleLoadResult fr r).
Proof. by destruct r as [t|b [|]|e c]. Qed.

Lemma handled_set_sm fr m m' rs :
  handled (set_sm m' fr) m rs = handled fr m rs.
Proof. done. Qed.

Lemma foldl_handleLoadResult fr rs :
  foldl handleLoadResult fr rs = handled fr (sm fr) rs.
Proof.
  revert fr. induction rs as [|r rs IH]; intros fr.
  - by rewrite handled_nil.
  - cbn. rewrite IH, handled_cons. f_equal. by destruct r as [t|b [|]|e c].
Qed.

Lemma noteReads_nil m : noteReads X m [] = m.
Proof.
  destruct m as [c]. unfold noteReads. cbn. f_equal. set_solver.
Qed.

Lemma noteReads_cons m p ps :
  noteReads X (noteRead X m p) ps = noteReads X m (p :: ps).
Proof.
  unfold noteReads, noteRead.
  destruct (fsFiles X !! p) as [text|] eqn:Hp.
  - rewrite filter_cons_True by (by rewrite Hp). cbn. f_equal. set_solver.
  - rewrite filter_cons_False; [done|]. rewrite Hp. by intros [? ?].
Qed.

Lemma sm_handleLoadResult fr r : sm (handleLoadResult fr r) = sm fr.
Proof. by destruct r as [t|b [|]|e c]. Qed.

(** The per-file pass of the sequential branch. *)
Lemma perFile_sequential entries fr :
  foldC (λ fr entry,
           let '(m, result) := loadAndParse X (sm fr) entry srcOptions in
           result ← result;
           Done (handleLoadResult (set_sm m fr) result))
        fr entries
  = if forallb (assertionHolds X srcOptions) entries
    then Done (handled fr (noteReads X (sm fr) (path <$> entries))
                       (outcomeOf X srcOptions <$> entries))
    else Abort AssertionFailed.
Proof.
  revert fr. induction entries as [|entry entries IH]; intros fr.
  - cbn. by rewrite noteReads_nil, handled_nil.
  - cbn [foldC forallb]. rewrite loadAndParse_unfold.
    destruct (assertionHolds X srcOptions entry); [|done]. cbn.
    rewrite IH. destruct (forallb _ entries); [|done].
    rewrite sm_handleLoadResult. cbn [sm set_sm].
    by rewrite noteReads_cons, handled_cons, handled_set_sm.
Qed.

Lemma visited_cons entries i order entry :
  entries !! i = Some entry →
  visited entries (i :: order) = entry :: visited entries order.
Proof. intros H. unfold visited. cbn. by rewrite H. Qed.

(** The per-file pass on the pool, for any order of in-range indices. *)
Lemma perFile_pool entries order m slots :
  Forall (λ i, i < length entries) order →
  pushLoop order
    (λ i '(m, loadResults),
       match entries !! i with
       | None => Abort OutOfRange
       | Some entry =>
           let '(m, result) := loadAndParse X m entry srcOptions in
           result ← result;
           Done (m, <[i := result]> loadResults)
       end)
    (m, slots)
  = if forallb (assertionHolds X srcOptions) (visited entries order)
    then Done (noteReads X m (path <$> visited entries order),
               fillSlots X srcOptions entries slots order)
    else Abort AssertionFailed.
Proof.
  unfold pushLoop. intros Hrange. revert m slots.
  induction Hrange as [|i order Hi Hrange IH]; intros m slots.
  - cbn. by rewrite noteReads_nil.
  - apply lookup_lt_is_Some_2 in Hi as [entry Hentry].
    rewrite (visited_cons _ _ _ _ Hentry).
    cbn [foldC fillSlots foldl forallb fmap list_fmap]. rewrite Hentry.
    rewrite loadAndParse_unfold.
    destruct (assertionHolds X srcOptions entry); [|done]. cbn.
    rewrite IH.
    destruct (forallb _ (visited entries order)); [|done].
    by rewrite noteReads_cons.
Qed.

Lemma visited_seq_app front back :
  visited (front ++ back) (seq (length front) (length back)) = back.
Proof.
  revert front. induction back as [|entry back IH]; intros front; [done|].
  cbn [length seq].
  rewrite (visited_cons _ _ _ entry) by (by apply list_lookup_middle).
  f_equal. specialize (IH (front ++ [entry])).
  rewrite <- app_assoc, length_app in IH. cbn in IH.
  by rewrite Nat.add_1_r in IH.
Qed.

Lemma visited_fair entries order :
  order ≡ₚ seq 0 (length entries) → visited entries order ≡ₚ entries.
Proof.
  intros Hperm. unfold visited. rewrite Hperm.
  apply (reflexive_eq (R := (≡ₚ))). apply (visited_seq_app [] entries).
Qed.

Lemma forallb_Permutation {A} (f : A → bool) (l k : list A) :
  l ≡ₚ k → forallb f l = forallb f k.
Proof.
  intros Hperm. apply eq_bool_prop_intro.
  rewrite !forallb_True. by rewrite Hperm.
Qed.

Lemma noteReads_Permutation m ps qs :
  ps ≡ₚ qs → noteReads X m ps = noteReads X m qs.
Proof. intros Hperm. unfold noteReads. by rewrite Hperm. Qed.

Lemma length_fillSlots entries slots order :
  length (fillSlots X srcOptions entries slots order) = length slots.
Proof.
  revert slots. induction order as [|i order IH]; intros slots; [done|].
  cbn. unfold fillSlots in IH. by rewrite IH, length_insert.
Qed.

Lemma fillSlots_lookup entries slots order j :
  fillSlots X srcOptions entries slots order !! j
  = if decide (j ∈ order ∧ j < length slots)
    then Some (from_option (outcomeOf X srcOptions) (LoadedTree None)
                 (entries !! j))
    else slots !! j.
Proof.
  revert slots. induction order as [|i order IH]; intros slots.
  - cbn. case_decide as H; [|done]. destruct H as [H _].
    by apply elem_of_nil in H.
  - cbn [fillSlots foldl]. unfold fillSlots in IH. rewrite IH.
    rewrite length_insert, list_lookup_insert.
    repeat case_decide; subst; try done.
    all: try (exfalso; set_solver).
    all: f_equal; f_equal; f_equal; naive_solver.
Qed.

Lemma fillSlots_fair entries slots order :
  order ≡ₚ seq 0 (length entries) → length slots = length entries →
  fillSlots X srcOptions entries slots order = outcomeOf X srcOptions <$> entries.
Proof.
  intros Hperm Hlen. apply list_eq. intros j.
  rewrite fillSlots_lookup, list_lookup_fmap.
  case_decide as Hj.
  - destruct Hj as [_ Hj]. rewrite Hlen in Hj.
    apply lookup_lt_is_Some_2 in Hj as [entry ->]. done.
  - destruct (decide (j < length entries)) as [Hlt|Hge].
    + exfalso. apply Hj. split; [|lia].
      rewrite Hperm. apply elem_of_seq. lia.
    + rewrite !lookup_ge_None_2 by lia. done.
Qed.

Lemma set_syntaxTrees_id fr : set_syntaxTrees (syntaxTrees fr ++ []) fr = fr.
Proof. destruct fr. unfold set_syntaxTrees. cbn. by rewrite app_nil_r. Qed.

(** The deferred libraries of the sequential branch, one after another. *)
Lemma deferred_sequential fr buffers :
  foldl (λ fr buffer,
           set_syntaxTrees
             (syntaxTrees fr ++ [Some (parseDeferred fr buffer)]) fr)
        fr buffers
  = set_syntaxTrees
      (syntaxTrees fr ++ ((λ b, Some (parseDeferred fr b)) <$> buffers)) fr.
Proof.
  revert fr. induction buffers as [|b buffers IH]; intros fr.
  - cbn. by rewrite set_syntaxTrees_id.
  - cbn [foldl]. rewrite IH. unfold set_syntaxTrees, parseDeferred. cbn.
    by rewrite <- app_assoc.
Qed.

(** The deferred libraries on the pool, for any order of in-range
    indices. *)
Lemma deferred_pool fr buffers numTrees order trees :
  Forall (λ i, i < length buffers) order →
  pushLoop order
    (λ i trees,
       match buffers !! i with
       | None => Abort OutOfRange
       | Some buffer =>
           Done (<[i + numTrees := Some (parseDeferred fr buffer)]> trees)
       end)
    trees
  = Done (fillTrees fr buffers numTrees trees order).
Proof.
  unfold pushLoop. intros Hrange. revert trees.
  induction Hrange as [|i order Hi Hrange IH]; intros trees; [done|].
  apply lookup_lt_is_Some_2 in Hi as [b Hb].
  cbn [foldC fillTrees foldl]. rewrite Hb. cbn. by rewrite IH.
Qed.

Lemma fillTrees_lookup fr buffers numTrees trees order j :
  fillTrees fr buffers numTrees trees order !! j
  = if decide (numTrees ≤ j ∧ j - numTrees ∈ order ∧ j < length trees)
    then Some (from_option (λ b, Some (parseDeferred fr b)) None
                 (buffers !! (j - numTrees)))
    else trees !! j.
Proof.
  revert trees. induction order as [|i order IH]; intros trees.
  - cbn. case_decide as H; [|done]. destruct H as (_ & H & _).
    by apply elem_of_nil in H.
  - cbn [fillTrees foldl]. unfold fillTrees in IH. rewrite IH.
    rewrite length_insert, list_lookup_insert.
    repeat case_decide; try done.
    all: try (exfalso; set_solver by lia).
    all: try (repeat f_equal; lia).
Qed.

Lemma fillTrees_fair fr buffers front order :
  order ≡ₚ seq 0 (length buffers) →
  fillTrees fr buffers (length front)
    (front ++ replicate (length buffers) None) order
  = front ++ ((λ b, Some (parseDeferred fr b)) <$> buffers).
Proof.
  intros Hperm. apply list_eq. intros j.
  rewrite fillTrees_lookup, length_app, length_replicate.
  case_decide as Hj.
  - destruct Hj as (Hge & _ & Hlt).
    rewrite lookup_app_r, list_lookup_fmap by done.
    destruct (lookup_lt_is_Some_2 buffers (j - length front)) as [b ->];
      [lia|done].
  - destruct (decide (j < length front)) as [Hfront|Hback].
    + by rewrite !lookup_app_l.
    + destruct (decide (j < length front + length buffers)) as [Hlt|Hge].
      * exfalso. apply Hj. split_and!; [lia| |lia].
        rewrite Hperm. apply elem_of_seq. lia.
      * rewrite !lookup_ge_None_2; [done| |].
        -- rewrite length_app, length_fmap. lia.
        -- rewrite length_app, length_replicate. lia.
Qed.

Lemma fair_in_range (order : list nat) n :
  order ≡ₚ seq 0 n → Forall (λ i, i < n) order.
Proof.
  intros Hperm. rewrite Hperm. apply Forall_seq. intros; lia.
Qed.

Lemma withDeferred_no_buffers fr :
  deferredLibBuffers fr = [] → withDeferred fr = fr.
Proof.
  intros H. unfold withDeferred. rewrite H. apply set_syntaxTrees_id.
Qed.

(** The sequential branch in closed form. *)
Lemma parseSequential_closed entries fr :
  parseSequential X srcOptions entries fr
  = if forallb (assertionHolds X srcOptions) entries
    then Done (parsed X srcOptions entries fr)
    else Abort AssertionFailed.
Proof.
  unfold parseSequential. rewrite perFile_sequential.
  destruct (forallb _ entries); [|done]. cbn.
  unfold parsed.
  set (fr1 := handled _ _ _). set (fr2 := parseSingleUnit _ _ _ _).
  destruct (deferredLibBuffers fr2) eqn:Hd.
  - by rewrite withDeferred_no_buffers.
  - rewrite <- Hd. by rewrite deferred_sequential.
Qed.

(** The pool branch in closed form, under any fair schedule. *)
Lemma parseThreaded_closed sched entries fr :
  fair sched →
  parseThreaded X sched srcOptions entries fr
  = if forallb (assertionHolds X srcOptions) entries
    then Done (parsed X srcOptions entries fr)
    else Abort AssertionFailed.
Proof.
  intros Hfair. unfold parseThreaded.
  destruct (Hfair (length entries)) as [Hfirst _].
  rewrite perFile_pool by (by apply fair_in_range).
  rewrite (forallb_Permutation _ _ entries) by (by apply visited_fair).
  destruct (forallb _ entries); [|done]. cbn.
  rewrite (noteReads_Permutation _ _ (path <$> entries))
    by (by rewrite visited_fair).
  rewrite fillSlots_fair by (done || by rewrite length_replicate).
  rewrite foldl_handleLoadResult. cbn [sm set_sm]. rewrite handled_set_sm.
  unfold parsed.
  set (fr1 := handled _ _ _). set (fr2 := parseSingleUnit _ _ _ _).
  destruct (deferredLibBuffers fr2) eqn:Hd.
  - by rewrite withDeferred_no_buffers.
  - rewrite <- Hd.
    destruct (Hfair (length (deferredLibBuffers fr2))) as [_ Hsecond].
    rewrite deferred_pool by (by apply fair_in_range).
    cbn. by rewrite fillTrees_fair.
Qed.

End ParsePhase.

(** ** Discovery *)

Section Discovery.
Context (X : Externals).

Lemma find_app {A} (f : A → bool) (l k : list A) :
  find f (l ++ k) = match find f l with
                    | Some x => Some x
                    | None => find f k
                    end.
Proof. induction l as [|x l IH]; [done|]. cbn. by destruct (f x). Qed.

Lemma accept_acceptable m p :
  acceptable X m p = true →
  ∃ text, fsFiles X !! p = Some text ∧ (p ∉ cached m)
          ∧ accept X m p
            = ({| cached := {[p]} ∪ cached m |},
               Some {| bufPath := p; bufData := text; bufLibrary := None |}).
Proof.
  unfold acceptable, accept, isCached. intros H.
  apply andb_true_iff in H as [Hc Hr].
  apply negb_true_iff, bool_decide_eq_false in Hc.
  apply bool_decide_eq_true in Hr as [text Hr].
  exists text. by rewrite Hr.
Qed.

Lemma tryExtensions_first m p exts :
  tryExtensions X m p exts = firstAcceptable X m (extensionChain X p exts).
Proof.
  unfold firstAcceptable. revert p.
  induction exts as [|ext exts IH]; intros p; [done|].
  cbn [tryExtensions extensionChain find].
  unfold acceptable at 1. unfold readSource.
  destruct (isCached m (replace_extension X p ext)) eqn:Hc; cbn.
  - apply IH.
  - destruct (fsFiles X !! replace_extension X p ext) as [text|] eqn:Hr.
    + rewrite bool_decide_eq_true_2 by eauto. unfold accept. by rewrite Hr.
    + rewrite bool_decide_eq_false_2 by (by intros [? ?]). apply IH.
Qed.

(** The search for one name takes the first acceptable candidate, in the
    order of the directories and, within each, of the extensions; the
    cache is the one the search started with. *)
Lemma searchDirs_first m name dirs exts :
  searchDirs X m name dirs exts
  = firstAcceptable X m (candidatePaths X name dirs exts).
Proof.
  induction dirs as [|dir dirs IH]; [done|].
  cbn [searchDirs candidatePaths]. rewrite tryExtensions_first.
  unfold firstAcceptable. rewrite find_app.
  destruct (find _ (extensionChain _ _ _)) as [q|] eqn:Hq.
  - apply find_some in Hq as [_ Hq].
    apply accept_acceptable in Hq as (text & _ & _ & ->). done.
  - apply IH.
Qed.

Lemma searchDirs_cases m name dirs exts :
  searchDirs X m name dirs exts = (m, None)
  ∨ ∃ q text,
      q ∈ candidatePaths X name dirs exts ∧ (q ∉ cached m)
      ∧ fsFiles X !! q = Some text
      ∧ searchDirs X m name dirs exts
        = ({| cached := {[q]} ∪ cached m |},
           Some {| bufPath := q; bufData := text; bufLibrary := None |}).
Proof.
  rewrite searchDirs_first. unfold firstAcceptable.
  destruct (find _ _) as [q|] eqn:Hq; [right|by left].
  apply find_some in Hq as [Hin Hq].
  apply accept_acceptable in Hq as (text & Hr & Hc & ->).
  exists q, text. split_and!; try done. by apply list_elem_of_In.
Qed.

Lemma unread_accept m q :
  q ∉ cached m → is_Some (fsFiles X !! q) →
  unread X {| cached := {[q]} ∪ cached m |} + 1 ≤ unread X m.
Proof.
  intros Hc Hr. unfold unread. cbn.
  assert (Hq : q ∈ dom (fsFiles X) ∖ cached m).
  { apply elem_of_difference. split; [by apply elem_of_dom|done]. }
  assert (dom (fsFiles X) ∖ ({[q]} ∪ cached m)
          ⊂ dom (fsFiles X) ∖ cached m) as Hsub.
  { split; [set_solver|]. intros Hsup. specialize (Hsup q Hq). set_solver. }
  apply subset_size in Hsub. lia.
Qed.

Lemma set_sm_id fr : set_sm (sm fr) fr = fr.
Proof. by destruct fr. Qed.

Lemma discoverName_cases dirs exts fr name :
  (searchDirs X (sm fr) name dirs exts = (sm fr, None)
   ∧ discoverName X dirs exts fr name = fr)
  ∨ ∃ q text,
      q ∈ candidatePaths X name dirs exts ∧ (q ∉ cached (sm fr))
      ∧ fsFiles X !! q = Some text
      ∧ discoverName X dirs exts fr name
        = let b := {| bufPath := q; bufData := text; bufLibrary := None |} in
          let tree := markLibrary (fromBuffer b (inheritedMacros fr)) in
          let known := addKnownNames X (knownNames fr) tree in
          {| sm := {| cached := {[q]} ∪ cached (sm fr) |};
             errs := errs fr;
             syntaxTrees := syntaxTrees fr ++ [Some tree];
             singleUnitBuffers := singleUnitBuffers fr;
             deferredLibBuffers := deferredLibBuffers fr;
             inheritedMacros := inheritedMacros fr;
             knownNames := known;
             nextMissingNames :=
               findMissingNames X known tree (nextMissingNames fr) |}.
Proof.
  unfold discoverName.
  destruct (searchDirs_cases (sm fr) name dirs exts)
    as [->|(q & text & Hin & Hc & Hr & ->)].
  - left. by rewrite set_sm_id.
  - right. exists q, text. done.
Qed.

Lemma grows_refl fr : grows X fr fr.
Proof.
  exists []. rewrite app_nil_r. split_and!; try done. cbn. lia.
Qed.

Lemma grows_trans fr1 fr2 fr3 :
  grows X fr1 fr2 → grows X fr2 fr3 → grows X fr1 fr3.
Proof.
  intros (n1 & Ht1 & Hd1 & Hi1 & He1 & Hu1) (n2 & Ht2 & Hd2 & Hi2 & He2 & Hu2).
  exists (n1 ++ n2). split_and!.
  - by rewrite Ht2, Ht1, app_assoc.
  - apply Forall_app. split; [done|]. by rewrite <- Hi1.
  - congruence.
  - congruence.
  - rewrite length_app. lia.
Qed.

Lemma grows_discoverName dirs exts fr name :
  grows X fr (discoverName X dirs exts fr name).
Proof.
  destruct (discoverName_cases dirs exts fr name)
    as [[_ ->]|(q & text & _ & Hc & Hr & ->)]; [apply grows_refl|].
  eexists [_]. cbn. split_and!; try done.
  - constructor; [|done]. eexists. split_and!; done.
  - by apply unread_accept.
Qed.

(** A run of names: it grows the frame, by at most one tree per name, and
    when no tree was added nothing at all has changed. *)
Lemma discoverNames dirs exts names fr :
  let fr' := foldl (discoverName X dirs exts) fr names in
  grows X fr fr'
  ∧ length (syntaxTrees fr') ≤ length (syntaxTrees fr) + length names
  ∧ (fr' = fr ∨ length (syntaxTrees fr) < length (syntaxTrees fr')).
Proof.
  revert fr. induction names as [|name names IH]; intros fr.
  - cbn. split_and!; [apply grows_refl|lia|by left].
  - cbn [foldl]. destruct (IH (discoverName X dirs exts fr name))
      as (Hg & Hlen & Hsame).
    pose proof (grows_discoverName dirs exts fr name) as Hg1.
    cbn zeta. split_and!.
    + by eapply grows_trans.
    + destruct Hg1 as (new1 & Ht1 & _ & _ & _ & Hu1).
      assert (length new1 ≤ 1) as Hone.
      { destruct (discoverName_cases dirs exts fr name)
          as [[_ Heq]|(q & text & _ & _ & _ & Heq)];
          rewrite Heq in Ht1; cbn in Ht1.
        - rewrite <- (app_nil_r (syntaxTrees fr)) in Ht1 at 1.
          apply app_inv_head in Ht1 as <-. cbn. lia.
        - apply app_inv_head in Ht1 as <-. cbn. lia. }
      rewrite Ht1, length_app in Hlen. cbn [length]. lia.
    + destruct Hg as (new & Ht & _).
      assert (length (syntaxTrees (discoverName X dirs exts fr name))
              ≤ length (syntaxTrees
                          (foldl (discoverName X dirs exts)
                             (discoverName X dirs exts fr name) names)))
        as Hmono by (rewrite Ht, length_app; lia).
      destruct (discoverName_cases dirs exts fr name)
        as [[_ Heq]|(q & text & _ & _ & _ & Heq)].
      * rewrite Heq in *. done.
      * right. rewrite Heq in Hmono at 1. cbn in Hmono.
        rewrite length_app in Hmono. cbn in Hmono. lia.
Qed.

Lemma grows_set_nextMissingNames n fr fr' :
  grows X (set_nextMissingNames n fr) fr' ↔ grows X fr fr'.
Proof. done. Qed.

(** Whatever the loop returns has grown out of the frame it started with. *)
Lemma discoverLoop_grows fuel dirs exts fr missing fr' :
  discoverLoop X fuel dirs exts fr missing = Done fr' → grows X fr fr'.
Proof.
  revert fr missing. induction fuel as [|fuel IH]; intros fr missing; [done|].
  cbn [discoverLoop]. unfold discoverRound.
  destruct (discoverNames dirs exts (elements missing) fr) as (Hg & _ & _).
  cbn zeta in Hg. case_bool_decide.
  - by intros [= <-].
  - intros Hloop. apply IH in Hloop.
    eapply grows_trans; [done|]. by apply grows_set_nextMissingNames in Hloop.
Qed.

(** The loop runs out of fuel only; with more fuel than there are unread
    readable files it returns. *)
Lemma discoverLoop_terminates fuel dirs exts fr missing :
  nextMissingNames fr = ∅ → unread X (sm fr) < fuel →
  ∃ fr', discoverLoop X fuel dirs exts fr missing = Done fr'.
Proof.
  revert fr missing. induction fuel as [|fuel IH]; intros fr missing Hnext Hfuel;
    [lia|].
  cbn [discoverLoop]. unfold discoverRound.
  destruct (discoverNames dirs exts (elements missing) fr)
    as (Hg & _ & Hsame). cbn zeta in Hg, Hsame.
  set (fr1 := foldl _ fr _) in *.
  case_bool_decide as Hempty; [by eexists|].
  apply IH; [done|]. cbn.
  destruct Hsame as [Heq|Hlonger]; [congruence|].
  destruct Hg as (new & Ht & _ & _ & _ & Hu).
  rewrite Ht, length_app in Hlonger. lia.
Qed.

Lemma discoverLoop_fault fuel dirs exts fr missing f :
  discoverLoop X fuel dirs exts fr missing = Abort f → f = OutOfFuel.
Proof.
  revert fr missing. induction fuel as [|fuel IH]; intros fr missing.
  - by intros [= <-].
  - cbn [discoverLoop]. case_bool_decide; [done|]. apply IH.
Qed.

Lemma discoverLoop_more_fuel fuel fuel' dirs exts fr missing fr' :
  discoverLoop X fuel dirs exts fr missing = Done fr' → fuel ≤ fuel' →
  discoverLoop X fuel' dirs exts fr missing = Done fr'.
Proof.
  revert fuel' fr missing.
  induction fuel as [|fuel IH]; intros fuel' fr missing; [done|].
  intros Hloop Hle. destruct fuel' as [|fuel']; [lia|].
  cbn [discoverLoop] in *. case_bool_decide; [done|].
  apply IH; [done|lia].
Qed.

Lemma foldC_deref {A} (g : A → SyntaxTree → A) (a : A) (trees : list TreePtr) :
  Forall is_Some trees →
  ∃ r, foldC (λ acc tree, t ← deref tree; Done (g acc t)) a trees = Done r.
Proof.
  intros Hall. revert a.
  induction Hall as [|tree trees [t ->] _ IH]; intros a; [by eexists|].
  cbn. apply IH.
Qed.

(** With no null pointer among the trees, the discovery block is its
    loop, entered with an empty next-round set. *)
Lemma discover_loop fuel dirs exts fr :
  Forall is_Some (syntaxTrees fr) →
  ∃ known missing,
    discover X fuel dirs exts fr
    = discoverLoop X fuel dirs exts
        (set_nextMissingNames ∅ (set_knownNames known fr)) missing.
Proof.
  intros Hall. unfold discover.
  destruct (foldC_deref (addKnownNames X) ∅ _ Hall) as [known ->].
  destruct (foldC_deref (λ missing t, findMissingNames X known t missing)
              ∅ _ Hall) as [missing Hm].
  exists known, missing. cbn. rewrite Hm. done.
Qed.

End Discovery.

(** ** The whole call *)

Section WholeCall.
Context (X : Externals).

Lemma parsePhase_closed sched srcOptions entries fr :
  fair sched →
  parsePhase X sched srcOptions entries fr
  = if forallb (assertionHolds X srcOptions) entries
    then Done (parsed X srcOptions entries fr)
    else Abort AssertionFailed.
Proof.
  intros Hfair. unfold parsePhase.
  destruct (_ && _).
  - by apply parseThreaded_closed.
  - apply parseSequential_closed.
Qed.

Lemma parsePhase_singleThreaded sched srcOptions entries fr :
  parsePhase X sched (singleThreaded srcOptions) entries fr
  = parseSequential X srcOptions entries fr.
Proof.
  unfold parsePhase. cbn. by rewrite andb_false_r.
Qed.

Lemma parsed_trees srcOptions entries s :
  syntaxTrees (parsed X srcOptions entries (enterFrame s))
  = treeOrder X srcOptions entries.
Proof.
  unfold parsed, treeOrder, withDeferred, parseSingleUnit, handled,
    finalMacros, unitTree, parseDeferred. cbn.
  destruct (singleBuffers _) as [|b bs]; cbn; [done|].
  by rewrite <- app_assoc.
Qed.

Lemma parsed_errs srcOptions entries s :
  errs (parsed X srcOptions entries (enterFrame s))
  = errors s ++ failures (outcomeOf X srcOptions <$> entries).
Proof.
  unfold parsed, withDeferred, parseSingleUnit, handled. cbn.
  by destruct (singleBuffers _).
Qed.

(** The outcome for an entry: a failure when the file cannot be read, and
    otherwise a buffer kept for later or a tree over the one buffer. *)
Lemma outcomeOf_cases srcOptions e :
  (fsFiles X !! path e = None
   ∧ outcomeOf X srcOptions e = LoadFailed e no_such_file_or_directory)
  ∨ ∃ b, bufPath b = path e
         ∧ is_Some (fsFiles X !! path e)
         ∧ ((outcomeOf X srcOptions e = LoadedBuffer b false
             ∧ singleUnit srcOptions = true)
            ∨ outcomeOf X srcOptions e = LoadedBuffer b true
            ∨ ∃ t, outcomeOf X srcOptions e = LoadedTree (Some t)
                   ∧ treeBuffers t = [b]).
Proof.
  unfold outcomeOf.
  destruct (fsFiles X !! path e) as [text|]; [right|by left].
  eexists {| bufPath := path e |}. split; [done|]. split; [by eexists|].
  destruct (negb (isLibraryFile e)), (singleUnit srcOptions); cbn; eauto;
    destruct (librariesInheritMacros srcOptions); eauto;
    right; right; eexists; (split; [done|]);
    by destruct (isLibraryFile e || onlyLint srcOptions).
Qed.

Lemma is_Some_eagerTrees srcOptions entries :
  Forall is_Some (eagerTrees (outcomeOf X srcOptions <$> entries)).
Proof.
  induction entries as [|e entries IH]; [constructor|].
  rewrite fmap_cons. unfold eagerTrees in *. cbn.
  destruct (outcomeOf_cases srcOptions e)
    as [[_ ->]|(b & _ & _ & [[-> _]|[->|(t & -> & _)]])];
    try done. constructor; [by eexists|done].
Qed.

Lemma is_Some_treeOrder srcOptions entries :
  Forall is_Some (treeOrder X srcOptions entries).
Proof.
  unfold treeOrder. rewrite !Forall_app. split_and!.
  - apply is_Some_eagerTrees.
  - destruct (singleBuffers _); constructor; [by eexists|constructor].
  - apply Forall_fmap, Forall_true. by eexists.
Qed.

Lemma unread_le m : unread X m ≤ size (dom (fsFiles X)).
Proof. unfold unread. apply subseteq_size. set_solver. Qed.

(** The discovery block after any frame without null trees: it returns
    when the fuel exceeds the number of readable files, and what it returns
    has grown out of that frame. *)
Lemma discover_returns fuel dirs exts fr :
  Forall is_Some (syntaxTrees fr) → size (dom (fsFiles X)) < fuel →
  ∃ fr', discover X fuel dirs exts fr = Done fr' ∧ grows X fr fr'.
Proof.
  intros Hall Hfuel.
  destruct (discover_loop X fuel dirs exts fr Hall) as (known & missing & ->).
  destruct (discoverLoop_terminates X fuel dirs exts
              (set_nextMissingNames ∅ (set_knownNames known fr)) missing)
    as [fr' Hloop]; [done|pose proof (unread_le (sm fr)); cbn; lia|].
  exists fr'. split; [done|]. by apply discoverLoop_grows in Hloop.
Qed.

Lemma discover_grows fuel dirs exts fr fr' :
  discover X fuel dirs exts fr = Done fr' → grows X fr fr'.
Proof.
  unfold discover.
  destruct (foldC _ ∅ _) as [known|]; [|done]. cbn.
  destruct (foldC _ ∅ _) as [missing|]; [|done]. cbn.
  intros Hloop. by apply discoverLoop_grows in Hloop.
Qed.

Lemma bind_Abort {A B} (c : Checked A) (k : A → Checked B) f :
  c ≫= k = Abort f → c = Abort f ∨ ∃ a, c = Done a ∧ k a = Abort f.
Proof. destruct c as [a|f']; cbn; [eauto|]. intros [= <-]. by left. Qed.

Lemma foldC_deref_fault {A} (g : A → SyntaxTree → A) a (trees : list TreePtr) f :
  foldC (λ acc tree, t ← deref tree; Done (g acc t)) a trees = Abort f →
  f = NullDereference.
Proof.
  revert a. induction trees as [|[t|] trees IH]; intros a; cbn;
    [done|apply IH|]. by intros [= <-].
Qed.

Lemma discover_fault fuel dirs exts fr f :
  discover X fuel dirs exts fr = Abort f →
  f = OutOfFuel ∨ f = NullDereference.
Proof.
  unfold discover. intros H.
  apply bind_Abort in H as [H|(known & _ & H)].
  { right. eapply foldC_deref_fault, H. }
  apply bind_Abort in H as [H|(missing & _ & H)].
  { right. eapply (foldC_deref_fault
                     (λ missing t, findMissingNames X known t missing)), H. }
  left. eapply discoverLoop_fault, H.
Qed.

Lemma parsed_inherited srcOptions entries s :
  inheritedMacros (parsed X srcOptions entries (enterFrame s))
  = finalMacros X srcOptions
      (singleBuffers (outcomeOf X srcOptions <$> entries)).
Proof.
  unfold parsed, withDeferred, parseSingleUnit, handled, finalMacros, unitTree.
  cbn. by destruct (singleBuffers _).
Qed.

Lemma bind_inv_Done {A B} (c : Checked A) (k : A → Checked B) b :
  c ≫= k = Done b → ∃ a, c = Done a ∧ k a = Done b.
Proof. destruct c as [a|f]; [eauto|done]. Qed.

Lemma bind_Done {A B} (a : A) (k : A → Checked B) : Done a ≫= k = k a.
Proof. done. Qed.

(** The call as a whole, when no entry trips the assertion: with more fuel
    than there are readable files it returns; its tree list is the tree
    order of the parse phase followed by the discovered trees, and its
    error list has grown by the read failures. *)
Lemma loadAndParseSources_returns sched fuel srcOptions s :
  fair sched →
  forallb (assertionHolds X srcOptions) (fileEntries s) = true →
  size (dom (fsFiles X)) < fuel →
  ∃ new s',
    loadAndParseSources X sched fuel srcOptions s
    = Done (treeOrder X srcOptions (fileEntries s) ++ new, s')
    ∧ errors s'
      = errors s ++ failures (outcomeOf X srcOptions <$> fileEntries s)
    ∧ Forall (discovered X
                (finalMacros X srcOptions
                   (singleBuffers (outcomeOf X srcOptions <$> fileEntries s))))
             new
    ∧ (searchDirectories s = [] → new = []).
Proof.
  intros Hfair Hassert Hfuel. unfold loadAndParseSources.
  rewrite parsePhase_closed, Hassert by done. rewrite bind_Done.
  set (fr := parsed X srcOptions (fileEntries s) (enterFrame s)).
  destruct (searchDirectories s) as [|dir dirs] eqn:Hdirs.
  - exists [], (leaveFrame fr s). rewrite !bind_Done.
    rewrite app_nil_r. unfold fr at 1. rewrite parsed_trees.
    split_and!; try done. unfold fr. cbn [errors leaveFrame].
    apply parsed_errs.
  - destruct (discover_returns fuel (dir :: dirs) (searchExtensions s) fr)
      as (fr' & -> & new & Ht & Hd & Hi & He & _); [|done|].
    { unfold fr. rewrite parsed_trees. apply is_Some_treeOrder. }
    exists new, (leaveFrame fr' s). rewrite bind_Done.
    unfold fr in Ht, Hd, He.
    rewrite parsed_trees in Ht. rewrite parsed_errs in He.
    rewrite parsed_inherited in Hd. rewrite Ht.
    split_and!; done.
Qed.

Lemma foldC_fault {A S} (P : Fault → Prop) (step : S → A → Checked S)
    (s : S) (l : list A) f :
  (∀ s a f, step s a = Abort f → P f) → foldC step s l = Abort f → P f.
Proof.
  intros Hstep. revert s. induction l as [|a l IH]; intros s; [done|].
  cbn. intros H. apply bind_Abort in H as [H|(s' & _ & H)]; eauto.
Qed.

(** The parse phase ends without a frame only on the failed assertion or
    on an index the schedule should not have named. *)
Lemma parsePhase_fault sched srcOptions entries fr f :
  parsePhase X sched srcOptions entries fr = Abort f →
  f = AssertionFailed ∨ f = OutOfRange.
Proof.
  unfold parsePhase. destruct (_ && _).
  - unfold parseThreaded, pushLoop. intros H.
    apply bind_Abort in H as [H|([m rs] & _ & H)].
    + eapply (foldC_fault (λ f, f = AssertionFailed ∨ f = OutOfRange)),
        H. intros [m slots] i f'.
      destruct (entries !! i) as [e|]; [|intros [= <-]; by right].
      rewrite loadAndParse_unfold.
      destruct (assertionHolds X srcOptions e); [done|].
      intros [= <-]. by left.
    + destruct (deferredLibBuffers _) as [|b bs]; [done|].
      apply bind_Abort in H as [H|(? & _ & ?)]; [|done].
      eapply (foldC_fault (λ f, f = AssertionFailed ∨ f = OutOfRange)),
        H. intros trees i f'. cbn beta.
      destruct (_ !! i); [done|]. intros [= <-]. by right.
  - rewrite parseSequential_closed. destruct (forallb _ _); [done|].
    intros [= <-]. by left.
Qed.

(** In any case the call does not run out of fuel when the fuel exceeds
    the number of readable files. *)
Lemma loadAndParseSources_fuel sched fuel srcOptions s :
  size (dom (fsFiles X)) < fuel →
  loadAndParseSources X sched fuel srcOptions s ≠ Abort OutOfFuel.
Proof.
  intros Hfuel H. unfold loadAndParseSources in H.
  apply bind_Abort in H as [H|(fr & Hparse & H)].
  { by apply parsePhase_fault in H as [?|?]. }
  apply bind_Abort in H as [H|(? & _ & ?)]; [|done].
  destruct (searchDirectories s) as [|dir dirs]; [done|].
  unfold discover in H.
  apply bind_Abort in H as [H|(known & _ & H)].
  { by apply foldC_deref_fault in H. }
  apply bind_Abort in H as [H|(missing & _ & H)].
  { by apply (foldC_deref_fault
                (λ missing t, findMissingNames X known t missing)) in H. }
  destruct (discoverLoop_terminates X fuel (dir :: dirs) (searchExtensions s)
              (set_nextMissingNames ∅ (set_knownNames known fr)) missing)
    as [fr' Hloop]; [done|pose proof (unread_le (sm fr)); cbn; lia|].
  congruence.
Qed.

Lemma failures_readable srcOptions entries :
  Forall (λ e, is_Some (fsFiles X !! path e)) entries →
  failures (outcomeOf X srcOptions <$> entries) = [].
Proof.
  induction 1 as [|e entries [text He] _ IH]; [done|].
  rewrite fmap_cons. unfold failures in *. cbn. rewrite IH.
  destruct (outcomeOf_cases srcOptions e)
    as [[Hnone _]|(b & _ & _ & [[-> _]|[->|(t & -> & _)]])];
    [congruence|done..].
Qed.

Lemma failures_one srcOptions before bad after :
  fsFiles X !! path bad = None →
  Forall (λ e, is_Some (fsFiles X !! path e)) (before ++ after) →
  failures (outcomeOf X srcOptions <$> before ++ bad :: after)
  = [(path bad, no_such_file_or_directory)].
Proof.
  intros Hbad [Hbefore Hafter]%Forall_app.
  rewrite fmap_app, fmap_cons. unfold failures.
  rewrite omap_app. cbn.
  fold (failures (outcomeOf X srcOptions <$> before)).
  fold (failures (outcomeOf X srcOptions <$> after)).
  rewrite !failures_readable by done.
  unfold outcomeOf at 1. by rewrite Hbad.
Qed.

Lemma treeBuffers_unitTree srcOptions buffers :
  treeBuffers (unitTree srcOptions buffers) = buffers.
Proof. unfold unitTree. by destruct (onlyLint srcOptions). Qed.

(** Every readable entry is covered by a tree of the parse phase. *)
Lemma treeOrder_covers srcOptions entries e :
  e ∈ entries → is_Some (fsFiles X !! path e) →
  ∃ t b, Some t ∈ treeOrder X srcOptions entries
         ∧ b ∈ treeBuffers t ∧ bufPath b = path e.
Proof.
  intros Hin [text Hread].
  assert (Hr : outcomeOf X srcOptions e ∈ outcomeOf X srcOptions <$> entries)
    by (by apply list_elem_of_fmap_2).
  unfold treeOrder.
  destruct (outcomeOf_cases srcOptions e)
    as [[Hnone _]|(b & Hb & _ & [[Hout _]|[Hout|(t & Hout & Ht)]])];
    [congruence|..]; rewrite Hout in Hr.
  - assert (Hs : b ∈ singleBuffers (outcomeOf X srcOptions <$> entries)).
    { apply list_elem_of_omap. eexists. split; [exact Hr|done]. }
    destruct (singleBuffers _) as [|b0 bs] eqn:Hsingle;
      [by apply elem_of_nil in Hs|].
    exists (unitTree srcOptions (b0 :: bs)), b. split_and!; [|by rewrite treeBuffers_unitTree|done].
    apply elem_of_app. right. apply elem_of_app. left. apply list_elem_of_here.
  - eexists (markLibrary (fromBuffer b _)), b.
    split_and!; [|apply list_elem_of_here|done].
    apply elem_of_app. right. apply elem_of_app. right.
    apply list_elem_of_fmap. exists b. split; [reflexivity|].
    apply list_elem_of_omap. eexists. split; [exact Hr|done].
  - exists t, b. split_and!; [|rewrite Ht; apply list_elem_of_here|done].
    apply elem_of_app. left.
    apply list_elem_of_omap. eexists. split; [exact Hr|done].
Qed.

(** Without single-unit mode every entry gives one tree or one failure. *)
Lemma treeOrder_length srcOptions entries :
  singleUnit srcOptions = false →
  length (treeOrder X srcOptions entries)
  + length (failures (outcomeOf X srcOptions <$> entries))
  = length entries.
Proof.
  intros Hsingle.
  assert (Hnone : ∀ es, singleBuffers (outcomeOf X srcOptions <$> es) = []).
  { induction es as [|e es IH]; [done|].
    rewrite fmap_cons. unfold singleBuffers in *. cbn. rewrite IH.
    destruct (outcomeOf_cases srcOptions e)
      as [[_ ->]|(b & _ & _ & [[_ ?]|[->|(t & -> & _)]])];
      [done|congruence|done..]. }
  unfold treeOrder. rewrite Hnone. cbn.
  rewrite length_app, length_fmap.
  induction entries as [|e entries IH]; [done|].
  rewrite fmap_cons. unfold eagerTrees, deferredBuffers, failures in *.
  destruct (outcomeOf_cases srcOptions e)
    as [[_ Hout]|(b & _ & _ & [[_ ?]|[Hout|(t & Hout & _)]])];
    [|congruence|..]; cbn; rewrite Hout; cbn; lia.
Qed.

End WholeCall.

(** ** The claims about the pipeline *)

(** The assertion of [loadAndParse] fails exactly for a readable direct
    file met with macro inheritance on and single-unit mode off. *)
Lemma assertion_failure_iff (X : Externals) (m : SourceManager)
    (entry : FileEntry) (srcOptions : SourceOptions) :
  (loadAndParse X m entry srcOptions).2 = Abort AssertionFailed
  ↔ is_Some (fsFiles X !! path entry)
    ∧ isLibraryFile entry = false
    ∧ singleUnit srcOptions = false
    ∧ librariesInheritMacros srcOptions = true.
Proof.
  rewrite loadAndParse_unfold. cbn. unfold assertionHolds.
  destruct (fsFiles X !! path entry) as [text|].
  - destruct (isLibraryFile entry), (singleUnit srcOptions),
      (librariesInheritMacros srcOptions); cbn;
      (split; [try done|by intros (_ & ? & ? & ?)]).
  - split; [done|]. by intros [[? ?] _].
Qed.

(** C3: a readable file registered as a direct file, loaded with macro
    inheritance on and single-unit mode off, reaches the deferral branch
    although it is no library file: the assertion fails, and with it the
    whole call. *)
Theorem assertion_fails_for_direct_file :
  isLibraryFile (newFileEntry "top.v" false None 0) = false
  ∧ (loadAndParse demo {| cached := ∅ |} (newFileEntry "top.v" false None 0)
       inheritOptions).2
    = Abort AssertionFailed
  ∧ loadAndParseSources demo reversed 10 inheritOptions demoLoader
    = Abort AssertionFailed.
Proof. split_and!; vm_compute; reflexivity. Qed.

Lemma fair_reversed : fair reversed.
Proof.
  intros n. cbn. split; symmetry; apply Permutation_rev.
Qed.

(** C4: under any fair schedule the pool branch returns what the
    sequential branch returns, so that the call returns the same with
    threading turned off and the same under any other fair schedule; the
    parse phase ends, unless an entry trips the assertion, with the tree
    list in the stated order (trees parsed at once in entry order, the
    single-unit tree if any, the deferred library trees in entry order),
    and the list the call returns begins with it, discovery adding to its
    end only. *)
Theorem thread_pool_keeps_tree_order (X : Externals) (sched : Schedule)
    (srcOptions : SourceOptions) (s : SourceLoader) :
  fair sched →
  parseThreaded X sched srcOptions (fileEntries s) (enterFrame s)
  = parseSequential X srcOptions (fileEntries s) (enterFrame s)
  ∧ (∀ fuel,
       loadAndParseSources X sched fuel srcOptions s
       = loadAndParseSources X sched fuel (singleThreaded srcOptions) s)
  ∧ (∀ fuel sched', fair sched' →
       loadAndParseSources X sched' fuel srcOptions s
       = loadAndParseSources X sched fuel srcOptions s)
  ∧ parsePhase X sched srcOptions (fileEntries s) (enterFrame s)
    = (if forallb (assertionHolds X srcOptions) (fileEntries s)
       then Done (parsed X srcOptions (fileEntries s) (enterFrame s))
       else Abort AssertionFailed)
  ∧ syntaxTrees (parsed X srcOptions (fileEntries s) (enterFrame s))
    = treeOrder X srcOptions (fileEntries s)
  ∧ (∀ fuel trees s',
       loadAndParseSources X sched fuel srcOptions s = Done (trees, s') →
       treeOrder X srcOptions (fileEntries s) `prefix_of` trees
       ∧ (searchDirectories s = [] →
          trees = treeOrder X srcOptions (fileEntries s))).
Proof.
  intros Hfair. split_and!.
  - by rewrite parseThreaded_closed, parseSequential_closed.
  - intros fuel. unfold loadAndParseSources.
    rewrite parsePhase_singleThreaded, parsePhase_closed,
      parseSequential_closed by done.
    done.
  - intros fuel sched' Hfair'. unfold loadAndParseSources.
    by rewrite !parsePhase_closed.
  - by apply parsePhase_closed.
  - apply parsed_trees.
  - intros fuel trees s'. unfold loadAndParseSources.
    rewrite parsePhase_closed by done.
    destruct (forallb _ _); [|done]. rewrite bind_Done.
    set (fr := parsed X srcOptions (fileEntries s) (enterFrame s)).
    destruct (searchDirectories s) as [|dir dirs].
    + rewrite !bind_Done. intros [= <- <-].
      rewrite <- (parsed_trees X srcOptions (fileEntries s) s). done.
    + intros H. apply bind_inv_Done in H as (fr' & Hd & [= <- <-]).
      apply discover_grows in Hd as (new & Ht & _).
      unfold fr in Ht. rewrite parsed_trees in Ht. rewrite Ht.
      split; [by eexists|done].
Qed.

Lemma thread_pool_keeps_tree_order_witness :
  fair reversed
  ∧ parseThreaded demo reversed plainOptions (fileEntries demoLoader)
      (enterFrame demoLoader)
    = parseSequential demo plainOptions (fileEntries demoLoader)
        (enterFrame demoLoader).
Proof.
  split; [exact fair_reversed|].
  exact (proj1 (thread_pool_keeps_tree_order demo reversed plainOptions
                  demoLoader fair_reversed)).
Defined.

Lemma find_none_iff {A} (f : A → bool) (l : list A) :
  (∀ x, x ∈ l → f x = false) → find f l = None.
Proof.
  intros Hall. destruct (find f l) as [x|] eqn:Hfind; [|done].
  apply find_some in Hfind as [Hin Hx].
  apply list_elem_of_In, Hall in Hin. congruence.
Qed.

Lemma searchDirs_nothing_readable (X : Externals) m name dirs exts :
  (∀ q, q ∈ candidatePaths X name dirs exts → fsFiles X !! q = None) →
  searchDirs X m name dirs exts = (m, None).
Proof.
  intros Hnone. rewrite searchDirs_first. unfold firstAcceptable.
  rewrite find_none_iff; [done|].
  intros q Hq. unfold acceptable. rewrite (Hnone q Hq).
  rewrite bool_decide_eq_false_2 by (by intros [? ?]). apply andb_false_r.
Qed.

(** C7: entered with an empty next-round set, the discovery loop returns
    once the fuel exceeds the number of readable files not read yet, and
    returns the same with any more fuel; the call as a whole never runs
    out of fuel above the number of readable files.  A round adds at most
    one tree per missing name; a name whose search finds nothing leaves the
    frame as it was; a round that added no tree leaves the next-round set
    empty and the loop returns; and a name none of whose candidate paths
    is a readable file is searched without anything being read, the loop
    over that name alone returning the frame unchanged. *)
Theorem discovery_terminates (X : Externals) (dirs exts : list fs_path)
    (fr : Frame) (missing : gset string) (fuel : nat) :
  nextMissingNames fr = ∅ →
  (unread X (sm fr) < fuel →
   ∃ fr', discoverLoop X fuel dirs exts fr missing = Done fr'
          ∧ ∀ fuel', fuel ≤ fuel' →
              discoverLoop X fuel' dirs exts fr missing = Done fr')
  ∧ (∀ sched srcOptions s,
       size (dom (fsFiles X)) < fuel →
       loadAndParseSources X sched fuel srcOptions s ≠ Abort OutOfFuel)
  ∧ length (syntaxTrees (discoverRound X dirs exts fr missing))
    ≤ length (syntaxTrees fr) + size missing
  ∧ (∀ fr0 name,
       (searchDirs X (sm fr0) name dirs exts).2 = None →
       discoverName X dirs exts fr0 name = fr0)
  ∧ (syntaxTrees (discoverRound X dirs exts fr missing) = syntaxTrees fr →
     nextMissingNames (discoverRound X dirs exts fr missing) = ∅
     ∧ discoverLoop X (S fuel) dirs exts fr missing = Done fr)
  ∧ (∀ name,
       (∀ q, q ∈ candidatePaths X name dirs exts → fsFiles X !! q = None) →
       searchDirs X (sm fr) name dirs exts = (sm fr, None)
       ∧ discoverLoop X (S fuel) dirs exts fr {[name]} = Done fr).
Proof.
  intros Hnext. split_and!.
  - intros Hfuel.
    destruct (discoverLoop_terminates X fuel dirs exts fr missing Hnext Hfuel)
      as [fr' Hloop].
    exists fr'. split; [done|]. intros fuel' Hle.
    by eapply discoverLoop_more_fuel.
  - intros sched srcOptions s Hfuel. by apply loadAndParseSources_fuel.
  - destruct (discoverNames X dirs exts (elements missing) fr) as (_ & Hlen & _).
    exact Hlen.
  - intros fr0 name Hnone. unfold discoverName.
    destruct (searchDirs_cases X (sm fr0) name dirs exts)
      as [Heq|(q & text & _ & _ & _ & Heq)]; rewrite Heq in *; [|done].
    apply set_sm_id.
  - intros Hsame.
    destruct (discoverNames X dirs exts (elements missing) fr)
      as (_ & _ & [Heq|Hlonger]).
    + fold (discoverRound X dirs exts fr missing) in Heq.
      cbn [discoverLoop]. rewrite Heq, Hnext.
      by rewrite bool_decide_eq_true_2.
    + fold (discoverRound X dirs exts fr missing) in Hlonger.
      rewrite Hsame in Hlonger. lia.
  - intros name Hnone.
    pose proof (searchDirs_nothing_readable X (sm fr) name dirs exts Hnone)
      as Hsearch.
    split; [done|]. cbn [discoverLoop]. unfold discoverRound.
    rewrite elements_singleton. cbn [foldl]. unfold discoverName.
    rewrite Hsearch, set_sm_id, Hnext. by rewrite bool_decide_eq_true_2.
Qed.

Lemma discovery_terminates_witness :
  nextMissingNames (enterFrame demoLoader) = ∅
  ∧ (∀ name,
       (∀ q, q ∈ candidatePaths demo name ["lib"] [".sv"; ".v"] →
             fsFiles demo !! q = None) →
       searchDirs demo (sm (enterFrame demoLoader)) name ["lib"] [".sv"; ".v"]
       = (sm (enterFrame demoLoader), None)
       ∧ discoverLoop demo 1 ["lib"] [".sv"; ".v"] (enterFrame demoLoader)
           {[name]}
         = Done (enterFrame demoLoader)).
Proof.
  split; [reflexivity|].
  apply (discovery_terminates demo ["lib"] [".sv"; ".v"]
           (enterFrame demoLoader) ∅ 0).
  reflexivity.
Defined.

(** C9: the code departs from the claim where a sibling entry trips the
    assertion of [loadAndParse].  Of the three entries of the example
    project exactly one cannot be read, yet with macro inheritance on and
    single-unit mode off the call ends on that assertion, tripped by the
    direct file [top.v]; no tree is returned and no error record is
    appended, on the pool as on the calling thread. *)
Lemma read_failure_with_tripped_assertion :
  fileEntries demoLoader
  = [newFileEntry "top.v" false None 0; newFileEntry "gone.v" false None 0;
     newFileEntry "cell.v" true (Some {| libName := "cells" |}) 0]
  ∧ fsFiles demo !! "gone.v" = None
  ∧ fsFiles demo !! "top.v" ≠ None
  ∧ fsFiles demo !! "cell.v" ≠ None
  ∧ loadAndParseSources demo reversed 4 inheritOptions demoLoader
    = Abort AssertionFailed
  ∧ loadAndParseSources demo reversed 4 (singleThreaded inheritOptions)
      demoLoader
    = Abort AssertionFailed.
Proof. split_and!; vm_compute; done. Qed.

(** The read failure itself is never what ends the call: the read of an
    unreadable entry gives an error result; and with exactly one
    unreadable entry among those registered, and no entry tripping the
    assertion of [loadAndParse], the call returns; its error list has
    grown by exactly one record, carrying the path of the unreadable
    entry; every other entry is covered by a tree of the returned list;
    and, without single-unit mode and without search directories, there
    are as many trees as there are other entries. *)
Theorem read_failure_is_recorded_not_fatal (X : Externals) (sched : Schedule)
    (fuel : nat) (srcOptions : SourceOptions) (s : SourceLoader)
    (before after : list FileEntry) (bad : FileEntry) :
  fair sched →
  fileEntries s = before ++ bad :: after →
  fsFiles X !! path bad = None →
  Forall (λ e, is_Some (fsFiles X !! path e)) (before ++ after) →
  forallb (assertionHolds X srcOptions) (fileEntries s) = true →
  size (dom (fsFiles X)) < fuel →
  (∀ m, loadAndParse X m bad srcOptions
        = (m, Done (LoadFailed bad no_such_file_or_directory)))
  ∧ ∃ trees s',
      loadAndParseSources X sched fuel srcOptions s = Done (trees, s')
      ∧ errors s' = errors s ++ [(path bad, no_such_file_or_directory)]
      ∧ (∀ e, e ∈ before ++ after →
           ∃ t b, Some t ∈ trees ∧ b ∈ treeBuffers t ∧ bufPath b = path e)
      ∧ (singleUnit srcOptions = false → searchDirectories s = [] →
         length trees = length before + length after).
Proof.
  intros Hfair Hentries Hbad Hread Hassert Hfuel.
  split.
  { intros m. unfold loadAndParse, readSource. by rewrite Hbad. }
  destruct (loadAndParseSources_returns X sched fuel srcOptions s
              Hfair Hassert Hfuel) as (new & s' & Hrun & Herr & _ & Hnone).
  eexists _, s'. split; [exact Hrun|]. split_and!.
  - rewrite Herr, Hentries. by rewrite failures_one.
  - intros e He.
    destruct (treeOrder_covers X srcOptions (fileEntries s) e)
      as (t & b & Ht & Hb & Hp).
    + rewrite Hentries. set_solver.
    + by eapply (proj1 (Forall_forall _ _) Hread).
    + exists t, b. split_and!; [|done..]. apply elem_of_app. by left.
  - intros Hsingle Hdirs. rewrite (Hnone Hdirs), app_nil_r.
    pose proof (treeOrder_length X srcOptions (fileEntries s) Hsingle) as Hlen.
    rewrite Hentries in Hlen at 2 3.
    rewrite failures_one, length_app in Hlen by done. cbn in Hlen. lia.
Qed.

Lemma demo_entries_readable :
  Forall (λ e, is_Some (fsFiles demo !! path e))
    ([newFileEntry "top.v" false None 0]
     ++ [newFileEntry "cell.v" true (Some {| libName := "cells" |}) 0]).
Proof. repeat constructor; by eexists. Qed.

Lemma read_failure_is_recorded_not_fatal_witness :
  (∀ m, loadAndParse demo m (newFileEntry "gone.v" false None 0) plainOptions
        = (m, Done (LoadFailed (newFileEntry "gone.v" false None 0)
                      no_such_file_or_directory)))
  ∧ ∃ trees s',
    loadAndParseSources demo reversed 4 plainOptions demoLoader
    = Done (trees, s')
    ∧ errors s' = errors demoLoader ++ [("gone.v", no_such_file_or_directory)]
    ∧ (∀ e, e ∈ [newFileEntry "top.v" false None 0]
                ++ [newFileEntry "cell.v" true
                      (Some {| libName := "cells" |}) 0] →
         ∃ t b, Some t ∈ trees ∧ b ∈ treeBuffers t ∧ bufPath b = path e)
    ∧ (singleUnit plainOptions = false → searchDirectories demoLoader = [] →
       length trees = 1 + 1).
Proof.
  apply (read_failure_is_recorded_not_fatal demo reversed 4 plainOptions
           demoLoader
           [newFileEntry "top.v" false None 0]
           [newFileEntry "cell.v" true (Some {| libName := "cells" |}) 0]
           (newFileEntry "gone.v" false None 0)).
  - exact fair_reversed.
  - reflexivity.
  - reflexivity.
  - exact demo_entries_readable.
  - reflexivity.
  - vm_compute. lia.
Defined.

(** ** The example project, run *)

Example demo_returns_three_trees :
  describeRun (loadAndParseSources demo reversed 4 plainOptions demoLoader)
  = Some ([Some (["top.v"], [], false);
           Some (["cell.v"], [], true);
           Some (["lib/leaf.sv"], [], true)],
          [("gone.v", no_such_file_or_directory)]).
Proof. vm_compute. reflexivity. Qed.

Example demo_single_unit_inherits_macros :
  describeRun (loadAndParseSources demo reversed 4 unitOptions demoLoader)
  = Some ([Some (["top.v"], [], false);
           Some (["cell.v"], ["WIDTH"], true);
           Some (["lib/leaf.sv"], ["WIDTH"], true)],
          [("gone.v", no_such_file_or_directory)]).
Proof. vm_compute. reflexivity. Qed.

Example demo_same_on_one_thread :
  loadAndParseSources demo reversed 4 (singleThreaded unitOptions) demoLoader
  = loadAndParseSources demo reversed 4 unitOptions demoLoader.
Proof. vm_compute. reflexivity. Qed.

(** * Further properties of the loader *)

(** ** The registry *)

Lemma paths_registerFile isLib lib rank s p :
  path <$> fileEntries (registerFile isLib lib rank s p)
  = (path <$> fileEntries s)
    ++ (if fileIndex s !! p is Some _ then [] else [p]).
Proof.
  unfold registerFile. destruct (fileIndex s !! p) as [i|]; cbn.
  - rewrite app_nil_r. apply list_eq. intros j.
    rewrite !list_lookup_fmap, list_lookup_alter.
    case_decide; [subst|done].
    destruct (fileEntries s !! j); [|done]. cbn. by rewrite path_updateEntry.
  - by rewrite fmap_app.
Qed.

Lemma dom_registerFile isLib lib rank s p :
  dom (fileIndex (registerFile isLib lib rank s p))
  = dom (fileIndex s) ∪ {[p]}.
Proof.
  unfold registerFile. destruct (fileIndex s !! p) as [i|] eqn:Hp; cbn.
  - apply elem_of_dom_2 in Hp. set_solver.
  - rewrite dom_insert_L. set_solver.
Qed.

Lemma errors_registerFile isLib lib rank s p :
  errors (registerFile isLib lib rank s p) = errors s.
Proof. unfold registerFile. by destruct (fileIndex s !! p). Qed.

Lemma registerAll_requestsOf isLib lib rank s files :
  registerAll s (requestsOf isLib lib rank files)
  = foldl (registerFile isLib lib rank) s files.
Proof.
  unfold registerAll, requestsOf. revert s.
  induction files as [|p files IH]; intros s; [done|]. cbn. apply IH.
Qed.

(** In a well-formed registry no path has two entries, and the index
    holds exactly the paths of the entries. *)
Lemma wf_NoDup s : wfRegistry s → NoDup (path <$> fileEntries s).
Proof.
  intros Hwf. apply NoDup_alt. intros i j p Hi Hj.
  apply list_lookup_fmap_Some in Hi as (ei & -> & Hei).
  apply list_lookup_fmap_Some in Hj as (ej & Hp & Hej).
  assert (fileIndex s !! path ei = Some i) as H1 by (apply Hwf; eauto).
  assert (fileIndex s !! path ei = Some j) as H2 by (apply Hwf; eauto).
  congruence.
Qed.

Lemma wf_dom s :
  wfRegistry s → dom (fileIndex s) = list_to_set (path <$> fileEntries s).
Proof.
  intros Hwf. apply set_eq. intros p.
  rewrite elem_of_dom, elem_of_list_to_set, list_elem_of_fmap. split.
  - intros [i Hi]. apply Hwf in Hi as (e & He & <-).
    exists e. split; [done|]. by eapply list_elem_of_lookup_2.
  - intros (e & -> & He). apply list_elem_of_lookup_1 in He as [i Hi].
    exists i. apply Hwf. eauto.
Qed.

Lemma wf_size s :
  wfRegistry s → length (fileEntries s) = size (dom (fileIndex s)).
Proof.
  intros Hwf. rewrite (wf_dom s Hwf), size_list_to_set by (by apply wf_NoDup).
  by rewrite length_fmap.
Qed.

Lemma entryOf_path s p e : wfRegistry s → entryOf s p = Some e → path e = p.
Proof.
  intros Hwf. unfold entryOf.
  destruct (fileIndex s !! p) as [i|] eqn:Hp; [|done]. cbn. intros He.
  apply Hwf in Hp as (e' & He' & <-). congruence.
Qed.

Lemma entryOf_is_Some s p :
  wfRegistry s → is_Some (entryOf s p) ↔ p ∈ dom (fileIndex s).
Proof.
  intros Hwf. rewrite elem_of_dom. unfold entryOf. split.
  - intros [e He]. destruct (fileIndex s !! p); [by eexists|done].
  - intros [i Hi]. rewrite Hi. apply Hwf in Hi as (e & He & _).
    exists e. exact He.
Qed.

Lemma foldl_registerFile isLib lib rank files s :
  let s' := foldl (registerFile isLib lib rank) s files in
  dom (fileIndex s') = dom (fileIndex s) ∪ list_to_set files
  ∧ (path <$> fileEntries s) `prefix_of` (path <$> fileEntries s')
  ∧ errors s' = errors s
  ∧ libraries s' = libraries s
  ∧ searchDirectories s' = searchDirectories s.
Proof.
  revert s. induction files as [|p files IH]; intros s.
  - cbn. split_and!; try done. set_solver.
  - cbn [foldl]. destruct (IH (registerFile isLib lib rank s p))
      as (Hd & Hp & He & Hl & Hs). cbn zeta.
    rewrite Hd, He, Hl, Hs, dom_registerFile, errors_registerFile.
    split_and!; try (unfold registerFile; by destruct (fileIndex s !! p)).
    + set_solver.
    + etrans; [|exact Hp]. rewrite paths_registerFile. by apply prefix_app_r.
Qed.

Lemma wf_same_registry s s' :
  fileEntries s' = fileEntries s → fileIndex s' = fileIndex s →
  wfRegistry s → wfRegistry s'.
Proof. intros He Hi Hwf p i. rewrite He, Hi. apply Hwf. Qed.

Section Preservation.
Context (X : Externals).

Lemma wf_addFilesInternal pattern basePath isLib lib expandEnvVars s :
  wfRegistry s →
  wfRegistry (addFilesInternal X pattern basePath isLib lib expandEnvVars s).
Proof.
  intros Hwf. unfold addFilesInternal. destruct (failed _); [done|].
  rewrite <- registerAll_requestsOf. by apply wf_registerAll.
Qed.

(** What [createLibrary] keeps, given that the creation of a library and
    the registration of files keep it. *)
Lemma createLibrary_preserves (P : SourceLoader → Prop) name filePaths
    basePath s :
  (∀ s name, P s → P (getOrAddLibrary name s).1) →
  (∀ s pattern base isLib lib env,
     P s → P (addFilesInternal X pattern base isLib lib env s)) →
  P s → P (createLibrary X name filePaths basePath s).
Proof.
  intros Hlib Hadd Hs. unfold createLibrary.
  destruct (isEmpty name); [done|].
  assert (P (getOrAddLibrary name s).1) as Hs1 by auto.
  destruct (getOrAddLibrary name s) as [s1 lib]. cbn in Hs1.
  revert s1 Hs1. induction filePaths as [|fp filePaths IH]; intros s1 Hs1;
    [done|].
  cbn. apply IH. destruct (isEmpty _); auto.
Qed.

Lemma foldC_preserves {A S} (P : S → Prop) (step : S → A → Checked S)
    (l : list A) (s s' : S) :
  (∀ s a s', P s → step s a = Done s' → P s') →
  P s → foldC step s l = Done s' → P s'.
Proof.
  intros Hstep. revert s. induction l as [|a l IH]; intros s Hs.
  - by intros [= <-].
  - cbn. intros H. apply bind_inv_Done in H as (s1 & H1 & H).
    eapply IH; [|exact H]. by eapply Hstep.
Qed.

(** What [addLibraryMaps] keeps, whenever it returns. *)
Lemma addLibraryMaps_preserves (P : SourceLoader → Prop) :
  (∀ s p ec, P s → P (add_error p ec s)) →
  (∀ s m, P s → P (set_sourceManager m s)) →
  (∀ s ts, P s → P (set_libraryMapTrees ts s)) →
  (∀ s name filePaths base, P s → P (createLibrary X name filePaths base s)) →
  ∀ fuel pattern basePath expandEnvVars s s',
    P s →
    addLibraryMaps X fuel pattern basePath expandEnvVars s = Done s' → P s'.
Proof.
  intros Herr Hsm Htrees Hlib.
  induction fuel as [|fuel IH]; intros pattern basePath env s s' Hs; [done|].
  cbn [addLibraryMaps]. destruct (failed _).
  { intros [= <-]. auto. }
  apply foldC_preserves; [|done]. clear s s' Hs. intros s p s' Hs.
  unfold readSource. destruct (fsFiles X !! p) as [text|].
  - apply foldC_preserves; [|auto]. clear s s' Hs.
    intros s member s' Hs. destruct member as [| |fp|name fps|].
    + by intros [= <-].
    + by intros [= <-].
    + destruct (isEmpty _); [by intros [= <-]|]. by apply IH.
    + intros [= <-]. auto.
    + done.
  - intros [= <-]. auto.
Qed.

Lemma wf_getOrAddLibrary name s :
  wfRegistry s → wfRegistry (getOrAddLibrary name s).1.
Proof.
  destruct (getOrAddLibrary_registries name s) as (_ & Hf & Hi & _).
  by apply wf_same_registry.
Qed.

Lemma wf_createLibrary name filePaths basePath s :
  wfRegistry s → wfRegistry (createLibrary X name filePaths basePath s).
Proof.
  apply createLibrary_preserves.
  - intros. by apply wf_getOrAddLibrary.
  - intros. by apply wf_addFilesInternal.
Qed.

End Preservation.

Lemma wf_addSearchDirectories (X : Externals) pattern s :
  wfRegistry s → wfRegistry (addSearchDirectories X pattern s).
Proof.
  apply wf_same_registry; unfold addSearchDirectories; by destruct (failed _).
Qed.

Lemma wf_addSearchExtension extension s :
  wfRegistry s → wfRegistry (addSearchExtension extension s).
Proof.
  apply wf_same_registry; unfold addSearchExtension; by case_bool_decide.
Qed.

(** X1: the registry of a new loader is well formed, and every operation
    of the loader keeps it so: the index holds exactly the positions of
    the entries by path.  In such a registry no path has two entries,
    there are as many entries as indexed paths, and the entry found for a
    path carries that path. *)
Theorem registry_stays_well_formed (X : Externals) (s : SourceLoader) :
  wfRegistry s →
  (∀ m, wfRegistry (newSourceLoader m))
  ∧ NoDup (path <$> fileEntries s)
  ∧ length (fileEntries s) = size (dom (fileIndex s))
  ∧ (∀ p e, entryOf s p = Some e → path e = p)
  ∧ (∀ pattern, wfRegistry (addFiles X pattern s))
  ∧ (∀ name pattern, wfRegistry (addLibraryFiles X name pattern s))
  ∧ (∀ pattern, wfRegistry (addSearchDirectories X pattern s))
  ∧ (∀ extension, wfRegistry (addSearchExtension extension s))
  ∧ (∀ name filePaths basePath,
       wfRegistry (createLibrary X name filePaths basePath s))
  ∧ (∀ fuel pattern basePath expandEnvVars s',
       addLibraryMaps X fuel pattern basePath expandEnvVars s = Done s' →
       wfRegistry s').
Proof.
  intros Hwf. split_and!.
  - apply wf_freshLoader.
  - by apply wf_NoDup.
  - by apply wf_size.
  - intros p e. by apply entryOf_path.
  - intros pattern. by apply wf_addFilesInternal.
  - intros name pattern. unfold addLibraryFiles.
    pose proof (getOrAddLibrary_registries name s) as Hlib.
    destruct (getOrAddLibrary name s) as [s1 lib]. cbn in Hlib.
    destruct Hlib as (_ & Hf & Hi & _).
    apply wf_addFilesInternal. by eapply wf_same_registry.
  - intros pattern. by apply wf_addSearchDirectories.
  - intros extension. by apply wf_addSearchExtension.
  - intros. by apply wf_createLibrary.
  - intros fuel pattern basePath env s'.
    apply (addLibraryMaps_preserves X wfRegistry); try done.
    intros. by apply wf_createLibrary.
Qed.

Lemma registry_stays_well_formed_witness :
  wfRegistry freshLoader
  ∧ wfRegistry (addSearchExtension ".vh"
                  (addSearchDirectories demo "lib" freshLoader))
  ∧ NoDup (path <$> fileEntries (addFiles demo "top.v" freshLoader)).
Proof.
  assert (H0 : wfRegistry freshLoader) by apply wf_freshLoader.
  assert (H1 : wfRegistry (addSearchDirectories demo "lib" freshLoader)).
  { by apply (registry_stays_well_formed demo freshLoader). }
  assert (H2 : wfRegistry (addFiles demo "top.v" freshLoader)).
  { by apply (registry_stays_well_formed demo freshLoader). }
  split_and!.
  - exact H0.
  - by apply (registry_stays_well_formed demo
                (addSearchDirectories demo "lib" freshLoader)).
  - by apply (registry_stays_well_formed demo
                (addFiles demo "top.v" freshLoader)).
Defined.

(** The registry after a run of paths: the paths there were, followed by
    the new ones, each where it occurs first. *)
Lemma paths_foldl_registerFile isLib lib rank files s :
  path <$> fileEntries (foldl (registerFile isLib lib rank) s files)
  = (path <$> fileEntries s) ++ newPaths (dom (fileIndex s)) files.
Proof.
  revert s. induction files as [|p files IH]; intros s.
  { cbn. by rewrite app_nil_r. }
  cbn [foldl newPaths]. rewrite IH, paths_registerFile, dom_registerFile.
  case_bool_decide as Hp.
  - apply elem_of_dom in Hp as [i Hi]. rewrite Hi, app_nil_r.
    f_equal. f_equal. apply elem_of_dom_2 in Hi. set_solver.
  - apply not_elem_of_dom in Hp. rewrite Hp, <- app_assoc. cbn.
    do 3 f_equal. set_solver.
Qed.

Lemma newPaths_spec seen files :
  NoDup (newPaths seen files)
  ∧ (∀ p, p ∈ newPaths seen files ↔ p ∈ files ∧ p ∉ seen)
  ∧ newPaths seen files `sublist_of` files.
Proof.
  revert seen. induction files as [|q files IH]; intros seen.
  { cbn. split_and!; [constructor| |done].
    intros p. split; [by intros H%elem_of_nil|]. by intros [H%elem_of_nil _]. }
  cbn [newPaths]. case_bool_decide as Hq.
  - destruct (IH seen) as (Hn & Hm & Hs). split_and!; [done| |].
    + intros p. rewrite Hm, elem_of_cons. split; [naive_solver|].
      intros [[->|Hp] Hns]; [done|by split].
    + by apply sublist_cons.
  - destruct (IH ({[q]} ∪ seen)) as (Hn & Hm & Hs). split_and!.
    + constructor; [|done]. rewrite Hm. set_solver.
    + intros p. rewrite !elem_of_cons, Hm. split.
      * intros [->|[Hp Hns]]; [by split; [left|]|]. split; [by right|set_solver].
      * intros [[->|Hp] Hns]; [by left|].
        destruct (decide (p = q)) as [->|Hne]; [by left|].
        right. split; [done|set_solver].
    + by apply sublist_skip.
Qed.

Lemma newPaths_all_new seen files :
  NoDup files → (∀ p, p ∈ files → p ∉ seen) → newPaths seen files = files.
Proof.
  intros Hnd. revert seen. induction Hnd as [|q files Hq Hnd IH]; intros seen Hnew;
    [done|].
  cbn [newPaths]. rewrite bool_decide_eq_false_2
    by (apply Hnew, list_elem_of_here).
  f_equal. apply IH. intros p Hp. specialize (Hnew p (list_elem_of_further _ _ _ Hp)).
  set_solver.
Qed.

(** X2: when the pattern expands, [addFilesInternal] leaves exactly the
    paths registered that were registered before or are among the globbed
    ones; the entries there were keep their positions and paths; behind
    them comes one entry per globbed path not registered before, in the
    order of the expansion, each path where it occurs first; and the
    errors, the libraries, the library map trees, the search directories
    and the search extensions are left as they were. *)
Theorem addFilesInternal_registers_globbed (X : Externals) (s : SourceLoader)
    (pattern : string) (basePath : fs_path) (isLib : bool)
    (lib : option SourceLibrary) (expandEnvVars : bool) :
  wfRegistry s →
  failed (globEc (svGlob X basePath pattern Files expandEnvVars)) = false →
  let files := globFiles (svGlob X basePath pattern Files expandEnvVars) in
  let s' := addFilesInternal X pattern basePath isLib lib expandEnvVars s in
  (∀ p, is_Some (entryOf s' p) ↔ is_Some (entryOf s p) ∨ p ∈ files)
  ∧ (path <$> fileEntries s) `prefix_of` (path <$> fileEntries s')
  ∧ length (fileEntries s')
    = length (fileEntries s)
      + size (list_to_set files ∖ dom (fileIndex s) : gset string)
  ∧ errors s' = errors s
  ∧ path <$> fileEntries s'
    = (path <$> fileEntries s) ++ newPaths (dom (fileIndex s)) files
  ∧ NoDup (newPaths (dom (fileIndex s)) files)
  ∧ (∀ p, p ∈ newPaths (dom (fileIndex s)) files
          ↔ p ∈ files ∧ fileIndex s !! p = None)
  ∧ newPaths (dom (fileIndex s)) files `sublist_of` files
  ∧ (NoDup files → (∀ p, p ∈ files → fileIndex s !! p = None) →
     path <$> fileEntries s' = (path <$> fileEntries s) ++ files)
  ∧ libraries s' = libraries s
  ∧ libraryMapTrees s' = libraryMapTrees s
  ∧ searchDirectories s' = searchDirectories s
  ∧ searchExtensions s' = searchExtensions s.
Proof.
  intros Hwf Hok files s'.
  assert (Hwf' : wfRegistry s') by (by apply wf_addFilesInternal).
  assert (s' = foldl (registerFile isLib lib
                        (globRank (svGlob X basePath pattern Files expandEnvVars)))
                     s files) as Hs'.
  { unfold s', addFilesInternal. by rewrite Hok. }
  destruct (foldl_registerFile isLib lib
              (globRank (svGlob X basePath pattern Files expandEnvVars))
              files s) as (Hd & Hp & He & Hl & Hsd).
  cbn zeta in Hd, Hp, He, Hl, Hsd. rewrite <- Hs' in Hd, Hp, He, Hl, Hsd.
  destruct (newPaths_spec (dom (fileIndex s)) files) as (Hn & Hm & Hsub).
  assert (Hpaths : path <$> fileEntries s'
                   = (path <$> fileEntries s)
                     ++ newPaths (dom (fileIndex s)) files).
  { rewrite Hs'. apply paths_foldl_registerFile. }
  assert (Hkeep : libraryMapTrees s' = libraryMapTrees s
                  ∧ searchExtensions s' = searchExtensions s).
  { rewrite Hs'. clear. revert s. induction files as [|p files IH]; intros s;
      [done|].
    cbn [foldl]. destruct (IH (registerFile isLib lib
      (globRank (svGlob X basePath pattern Files expandEnvVars)) s p))
      as [-> ->].
    unfold registerFile. by destruct (fileIndex s !! p). }
  destruct Hkeep as [Ht Hx].
  split_and!; try done.
  - intros p. rewrite !entryOf_is_Some by done. rewrite Hd. set_solver.
  - rewrite (wf_size s' Hwf'), (wf_size s Hwf), Hd.
    rewrite size_union_alt. done.
  - intros p. rewrite Hm, not_elem_of_dom. done.
  - intros Hnd Hnew. rewrite Hpaths. f_equal.
    apply newPaths_all_new; [done|]. intros p Hp'.
    apply not_elem_of_dom. by apply Hnew.
Qed.

Lemma addFilesInternal_registers_globbed_witness :
  wfRegistry (addFiles demo "top.v" freshLoader)
  ∧ failed (globEc (svGlob demo "" "cell.v" Files false)) = false
  ∧ path <$> fileEntries
               (addFiles demo "cell.v" (addFiles demo "top.v" freshLoader))
    = (path <$> fileEntries (addFiles demo "top.v" freshLoader))
      ++ newPaths (dom (fileIndex (addFiles demo "top.v" freshLoader)))
           ["cell.v"].
Proof.
  assert (H : wfRegistry (addFiles demo "top.v" freshLoader)).
  { apply wf_addFilesInternal, wf_freshLoader. }
  split; [exact H|]. split; [reflexivity|].
  exact (proj1 (proj2 (proj2 (proj2 (proj2
           (addFilesInternal_registers_globbed demo
              (addFiles demo "top.v" freshLoader) "cell.v" ""
              false None false H eq_refl)))))).
Defined.

(** ** The owner of a file *)

Lemma requestsFor_cons_eq r rs :
  requestsFor (regPath r) (r :: rs) = r :: requestsFor (regPath r) rs.
Proof. unfold requestsFor. by rewrite filter_cons_True. Qed.

Lemma requestsFor_cons_ne p r rs :
  regPath r ≠ p → requestsFor p (r :: rs) = requestsFor p rs.
Proof. intros Hne. unfold requestsFor. by rewrite filter_cons_False. Qed.

(** The entry of a path after a run of registrations: the requests for
    that path applied, in their order, to the entry there was. *)
Lemma registerAll_entry_seen s rs p e :
  wfRegistry s → entryOf s p = Some e →
  entryOf (registerAll s rs) p = Some (foldl applyRequest e (requestsFor p rs)).
Proof.
  revert s e. induction rs as [|r rs IH]; intros s e Hwf He; [done|].
  change (registerAll s (r :: rs)) with (registerAll (register s r) rs).
  destruct (decide (regPath r = p)) as [<-|Hne].
  - rewrite requestsFor_cons_eq. cbn [foldl]. apply IH.
    + by apply wf_registerFile.
    + unfold register. by apply entryOf_registerFile_seen.
  - rewrite requestsFor_cons_ne by done. apply IH.
    + by apply wf_registerFile.
    + unfold register. by rewrite entryOf_registerFile_other.
Qed.

Lemma registerAll_entry_unseen s rs p :
  wfRegistry s → fileIndex s !! p = None →
  entryOf (registerAll s rs) p
  = match requestsFor p rs with
    | [] => None
    | r :: rest =>
        Some (foldl applyRequest
                (newFileEntry p (regIsLibraryFile r) (regLibrary r) (regRank r))
                rest)
    end.
Proof.
  revert s. induction rs as [|r rs IH]; intros s Hwf Hp.
  - cbn. unfold entryOf. by rewrite Hp.
  - change (registerAll s (r :: rs)) with (registerAll (register s r) rs).
    destruct (decide (regPath r = p)) as [<-|Hne].
    + rewrite requestsFor_cons_eq. apply registerAll_entry_seen.
      * by apply wf_registerFile.
      * unfold register. by apply entryOf_registerFile_fresh.
    + rewrite requestsFor_cons_ne by done. apply IH.
      * by apply wf_registerFile.
      * unfold register. by rewrite fileIndex_registerFile_other.
Qed.

(** One request applied to an entry that has a library: the library and
    the rank are those of the entry, or those of the request when its rank
    is lower. *)
Lemma applyRequest_owner e r :
  library e ≠ None →
  let e' := applyRequest e r in
  library e' ≠ None
  ∧ (libraryRank e' ≤ libraryRank e)%Z
  ∧ (regLibrary r ≠ None → (libraryRank e' ≤ regRank r)%Z)
  ∧ ((library e' = library e ∧ libraryRank e' = libraryRank e)
     ∨ (library e' = regLibrary r ∧ libraryRank e' = regRank r)).
Proof.
  intros Hlib. unfold applyRequest, updateEntry. cbn.
  destruct (regLibrary r) as [l|]; cbn;
    [|split_and!; [done|lia|done|by left]].
  destruct (library e) as [l0|]; [|done]. cbn.
  destruct (Z.ltb_spec (regRank r) (libraryRank e)); cbn.
  - split_and!; [done|lia|lia|by right].
  - destruct (Z.eqb_spec (regRank r) (libraryRank e)); cbn;
      (split_and!; [done|lia|lia|by left]).
Qed.

Lemma foldl_applyRequest_owner e rs :
  library e ≠ None →
  let e' := foldl applyRequest e rs in
  library e' ≠ None
  ∧ (libraryRank e' ≤ libraryRank e)%Z
  ∧ (∀ r, r ∈ rs → regLibrary r ≠ None → (libraryRank e' ≤ regRank r)%Z)
  ∧ ((library e' = library e ∧ libraryRank e' = libraryRank e)
     ∨ ∃ r, r ∈ rs ∧ library e' = regLibrary r ∧ libraryRank e' = regRank r).
Proof.
  revert e. induction rs as [|r rs IH]; intros e Hlib.
  - cbn. split_and!; [done|lia| |by left]. intros r Hr. by apply elem_of_nil in Hr.
  - cbn [foldl]. destruct (applyRequest_owner e r Hlib) as (H1 & H2 & H3 & H4).
    cbn zeta in *.
    destruct (IH (applyRequest e r) H1) as (G1 & G2 & G3 & G4). cbn zeta in *.
    split_and!; [done|lia| |].
    + intros r' [->|Hr']%elem_of_cons Hl.
      * specialize (H3 Hl). lia.
      * by apply G3.
    + destruct G4 as [[Ga Gb]|(r' & Hr' & Ga & Gb)].
      * destruct H4 as [[Ha Hb]|[Ha Hb]].
        -- left. split; congruence.
        -- right. exists r. split; [apply list_elem_of_here|]. split; congruence.
      * right. exists r'. split; [by apply list_elem_of_further|done].
Qed.

Lemma foldl_applyRequest_no_owner e rs :
  library e = None → Forall (λ r, regLibrary r = None) rs →
  library (foldl applyRequest e rs) = None.
Proof.
  intros He Hall. revert e He.
  induction Hall as [|r rs Hr _ IH]; intros e He; [done|].
  cbn. apply IH. unfold applyRequest, updateEntry. by rewrite Hr.
Qed.

(** From the first request of a library on, the entry has an owner. *)
Lemma foldl_applyRequest_first_owner e rs :
  library e = None → Exists (λ r, regLibrary r ≠ None) rs →
  let e' := foldl applyRequest e rs in
  library e' ≠ None
  ∧ (∀ r, r ∈ rs → regLibrary r ≠ None → (libraryRank e' ≤ regRank r)%Z)
  ∧ ∃ r, r ∈ rs ∧ library e' = regLibrary r ∧ libraryRank e' = regRank r.
Proof.
  intros He Hex. revert e He.
  induction Hex as [r rs Hr|r rs Hex IH]; intros e He.
  - cbn [foldl].
    assert (library (applyRequest e r) = regLibrary r
            ∧ libraryRank (applyRequest e r) = regRank r) as [Hl Hk].
    { unfold applyRequest, updateEntry. cbn.
      destruct (regLibrary r); [|done]. cbn. by rewrite He. }
    destruct (foldl_applyRequest_owner (applyRequest e r) rs)
      as (G1 & G2 & G3 & G4); [congruence|]. cbn zeta in *.
    split_and!; [done| |].
    + intros r' [->|Hr']%elem_of_cons Hl'; [lia|by apply G3].
    + destruct G4 as [[Ga Gb]|(r' & Hr' & Ga & Gb)].
      * exists r. split; [apply list_elem_of_here|]. split; congruence.
      * exists r'. split; [by apply list_elem_of_further|done].
  - cbn [foldl]. destruct (regLibrary r) as [l|] eqn:Hr.
    + assert (Exists (λ r, regLibrary r ≠ None) (r :: rs)) as Hex'
        by (apply Exists_cons_hd; congruence).
      clear IH.
      assert (library (applyRequest e r) = regLibrary r
              ∧ libraryRank (applyRequest e r) = regRank r) as [Hl Hk].
      { unfold applyRequest, updateEntry. cbn. rewrite Hr. cbn. by rewrite He. }
      destruct (foldl_applyRequest_owner (applyRequest e r) rs)
        as (G1 & G2 & G3 & G4); [congruence|]. cbn zeta in *.
      split_and!; [done| |].
      * intros r' [->|Hr']%elem_of_cons Hl'; [lia|by apply G3].
      * destruct G4 as [[Ga Gb]|(r' & Hr' & Ga & Gb)].
        -- exists r. split; [apply list_elem_of_here|]. split; congruence.
        -- exists r'. split; [by apply list_elem_of_further|done].
    + destruct (IH (applyRequest e r)) as (G1 & G3 & r' & Hr' & Ga & Gb).
      { unfold applyRequest, updateEntry. by rewrite Hr. }
      cbn zeta in *. split_and!; [done| |].
      * intros r'' [->|Hr'']%elem_of_cons Hl'; [congruence|by apply G3].
      * exists r'. split; [by apply list_elem_of_further|done].
Qed.

(** One request applied to an entry: either it takes the entry over,
    naming a library where the entry has none or at a lower rank, or it
    leaves library and rank as they are. *)
Lemma applyRequest_cases e r :
  (regLibrary r ≠ None
   ∧ (library e = None ∨ (regRank r < libraryRank e)%Z)
   ∧ library (applyRequest e r) = regLibrary r
   ∧ libraryRank (applyRequest e r) = regRank r)
  ∨ ((regLibrary r = None
      ∨ (library e ≠ None ∧ (libraryRank e ≤ regRank r)%Z))
     ∧ library (applyRequest e r) = library e
     ∧ libraryRank (applyRequest e r) = libraryRank e).
Proof.
  unfold applyRequest, updateEntry. cbn.
  destruct (regLibrary r) as [l|]; cbn; [|right; split_and!; by auto].
  destruct (library e) as [l0|]; cbn; [|left; split_and!; by auto].
  destruct (Z.ltb_spec (regRank r) (libraryRank e)); cbn.
  - left. split_and!; by auto.
  - right. destruct (Z.eqb_spec (regRank r) (libraryRank e)); cbn;
      (split_and!; [right; split; [done|lia]|done|done]).
Qed.

(** A run of requests applied to an entry: library and rank stay those of
    the entry, or become those of the first request, among those naming a
    library, whose rank is the lowest. *)
Lemma foldl_applyRequest_first_lowest e rs :
  (library (foldl applyRequest e rs) = library e
   ∧ libraryRank (foldl applyRequest e rs) = libraryRank e
   ∧ (library e = None → Forall (λ r, regLibrary r = None) rs)
   ∧ (∀ r, r ∈ rs → regLibrary r ≠ None → (libraryRank e ≤ regRank r)%Z))
  ∨ (∃ before r after,
       rs = before ++ r :: after ∧ regLibrary r ≠ None
       ∧ (∀ r', r' ∈ before → regLibrary r' ≠ None →
                (regRank r < regRank r')%Z)
       ∧ (library e ≠ None → (regRank r < libraryRank e)%Z)
       ∧ (∀ r', r' ∈ after → regLibrary r' ≠ None →
                (regRank r ≤ regRank r')%Z)
       ∧ library (foldl applyRequest e rs) = regLibrary r
       ∧ libraryRank (foldl applyRequest e rs) = regRank r).
Proof.
  induction rs as [|r rs IH] using rev_ind.
  { left. cbn. split_and!; [done|done|by constructor|].
    intros r H. by apply elem_of_nil in H. }
  rewrite foldl_app. cbn [foldl].
  set (en := foldl applyRequest e rs) in *.
  destruct (applyRequest_cases en r)
    as [(Hr & Htake & -> & ->)|(Hkeep & -> & ->)].
  - right. exists rs, r, []. split_and!; try done.
    + intros r' Hr' Hl'.
      destruct IH as [(Hl & Hk & Hnone & Hmin)
                     |(before & r0 & after & -> & Hr0 & Hb & He & Ha & Hl & Hk)].
      * destruct (library e) as [l|] eqn:Hle.
        -- destruct Htake as [Htake|Htake]; [congruence|].
           specialize (Hmin r' Hr' Hl'). lia.
        -- specialize (Hnone eq_refl). rewrite Forall_forall in Hnone.
           by specialize (Hnone r' Hr').
      * destruct Htake as [Htake|Htake]; [congruence|]. rewrite Hk in Htake.
        apply elem_of_app in Hr' as [Hr'|[->|Hr']%elem_of_cons].
        -- specialize (Hb r' Hr' Hl'). lia.
        -- done.
        -- specialize (Ha r' Hr' Hl'). lia.
    + intros Hle.
      destruct IH as [(Hl & Hk & _)
                     |(before & r0 & after & _ & Hr0 & _ & He & _ & Hl & Hk)].
      * destruct Htake as [Htake|Htake]; [congruence|]. by rewrite <- Hk.
      * destruct Htake as [Htake|Htake]; [congruence|].
        specialize (He Hle). lia.
    + intros r' H. by apply elem_of_nil in H.
  - destruct IH as [(Hl & Hk & Hnone & Hmin)
                   |(before & r0 & after & -> & Hr0 & Hb & He & Ha & Hl & Hk)].
    + left. split_and!; try done.
      * intros Hle. apply Forall_app. split; [by apply Hnone|].
        constructor; [|done].
        destruct Hkeep as [Hkeep|[Hkeep _]]; [done|congruence].
      * intros r' [Hr'|Hr']%elem_of_app Hl'; [by apply Hmin|].
        apply list_elem_of_singleton in Hr' as ->.
        destruct Hkeep as [Hkeep|[_ Hkeep]]; [done|]. by rewrite <- Hk.
    + right. exists before, r0, (after ++ [r]). split_and!; try done.
      * by rewrite <- app_assoc.
      * intros r' [Hr'|Hr']%elem_of_app Hl'; [by apply Ha|].
        apply list_elem_of_singleton in Hr' as ->.
        destruct Hkeep as [Hkeep|[_ Hkeep]]; [done|]. by rewrite <- Hk.
Qed.

(** X3: in the registry built from a new loader by any sequence of
    registrations, a path none of whose registrations named a library has
    no owner; and a path with a registration naming a library is owned by
    the library of one of them, at the rank of that registration, which is
    the lowest rank among all its registrations naming a library, and by
    the first of them at that rank: every registration of the path before
    it that names a library has a higher rank, and none after it has a
    lower one. *)
Theorem owner_has_lowest_rank (m : SourceManager) (rs : list Registration)
    (p : fs_path) :
  (Forall (λ r, regLibrary r = None) (requestsFor p rs) →
   ∀ e, entryOf (registerAll (newSourceLoader m) rs) p = Some e →
        library e = None)
  ∧ (Exists (λ r, regLibrary r ≠ None) (requestsFor p rs) →
     ∃ e, entryOf (registerAll (newSourceLoader m) rs) p = Some e
          ∧ library e ≠ None
          ∧ (∀ r, r ∈ rs → regPath r = p → regLibrary r ≠ None →
               (libraryRank e ≤ regRank r)%Z)
          ∧ (∃ r, r ∈ rs ∧ regPath r = p
                  ∧ regLibrary r = library e ∧ regRank r = libraryRank e)
          ∧ ∃ before r after,
              requestsFor p rs = before ++ r :: after
              ∧ regLibrary r = library e ∧ regRank r = libraryRank e
              ∧ (∀ r', r' ∈ before → regLibrary r' ≠ None →
                       (regRank r < regRank r')%Z)
              ∧ (∀ r', r' ∈ after → regLibrary r' ≠ None →
                       (regRank r ≤ regRank r')%Z)).
Proof.
  pose proof (registerAll_entry_unseen (newSourceLoader m) rs p
                (wf_freshLoader m) (lookup_empty _)) as Hentry.
  assert (Hmem : ∀ r, r ∈ requestsFor p rs ↔ regPath r = p ∧ r ∈ rs).
  { intros r. unfold requestsFor. by rewrite list_elem_of_filter. }
  split.
  - intros Hall e He. rewrite Hentry in He.
    destruct (requestsFor p rs) as [|r0 rest]; [done|].
    injection He as <-. apply Forall_cons in Hall as [H0 Hrest].
    by apply foldl_applyRequest_no_owner.
  - intros Hex. rewrite Hentry.
    destruct (requestsFor p rs) as [|r0 rest] eqn:Hreq;
      [by apply Exists_nil in Hex|].
    eexists. split; [done|].
    set (e0 := newFileEntry p (regIsLibraryFile r0) (regLibrary r0) (regRank r0)).
    assert (∃ before r after,
              r0 :: rest = before ++ r :: after
              ∧ regLibrary r ≠ None
              ∧ regLibrary r = library (foldl applyRequest e0 rest)
              ∧ regRank r = libraryRank (foldl applyRequest e0 rest)
              ∧ (∀ r', r' ∈ before → regLibrary r' ≠ None →
                       (regRank r < regRank r')%Z)
              ∧ (∀ r', r' ∈ after → regLibrary r' ≠ None →
                       (regRank r ≤ regRank r')%Z))
      as (before & r & after & Hsplit & Hr & Hl & Hk & Hb & Ha).
    { destruct (foldl_applyRequest_first_lowest e0 rest)
        as [(Hl & Hk & Hnone & Hmin)
           |(before & r & after & -> & Hr & Hb & He & Ha & Hl & Hk)].
      - destruct (regLibrary r0) as [l0|] eqn:Hl0.
        + exists [], r0, rest. rewrite Hl0, Hl, Hk. cbn.
          split_and!; try done.
          intros r' H. by apply elem_of_nil in H.
        + apply Exists_cons in Hex as [Hex|Hex]; [done|].
          specialize (Hnone eq_refl). apply Exists_exists in Hex as (r' & Hr' & Hl').
          rewrite Forall_forall in Hnone. by specialize (Hnone r' Hr').
      - exists (r0 :: before), r, after. split_and!; try done.
        intros r' [->|Hr']%elem_of_cons Hl'; [|by apply Hb].
        by apply He. }
    split_and!.
    + by rewrite <- Hl.
    + intros r' Hr' Hp Hl'.
      assert (r' ∈ before ++ r :: after) as Hin
        by (rewrite <- Hsplit; by apply Hmem).
      rewrite <- Hk.
      apply elem_of_app in Hin as [Hin|[->|Hin]%elem_of_cons].
      * specialize (Hb r' Hin Hl'). lia.
      * lia.
      * by apply Ha.
    + exists r. destruct (proj1 (Hmem r)) as [Hpr Hinr]; [|done].
      rewrite Hsplit. apply elem_of_app. right. apply list_elem_of_here.
    + by exists before, r, after.
Qed.

Lemma owner_has_lowest_rank_witness :
  Exists (λ r, regLibrary r ≠ None) (requestsFor "a.v" mixedRequests)
  ∧ ∃ e, entryOf (registerAll freshLoader mixedRequests) "a.v" = Some e
         ∧ library e ≠ None.
Proof.
  assert (H : Exists (λ r, regLibrary r ≠ None)
                (requestsFor "a.v" mixedRequests)).
  { vm_compute. by apply Exists_cons_hd. }
  split; [exact H|].
  destruct (proj2 (owner_has_lowest_rank {| cached := ∅ |} mixedRequests "a.v")
              H) as (e & He & Hl & _).
  by exists e.
Defined.

(** ** Libraries, extensions and path specs *)

Lemma namesKeyed_getOrAddLibrary name s :
  namesKeyed s → namesKeyed (getOrAddLibrary name s).1.
Proof.
  intros Hkeyed. unfold getOrAddLibrary. destruct (isEmpty name); [done|].
  destruct (libraries s !! name) as [lib|] eqn:Hname; [done|].
  intros n lib. cbn. destruct (decide (name = n)) as [<-|Hne].
  - rewrite lookup_insert_eq. by intros [= <-].
  - rewrite lookup_insert_ne by done. apply Hkeyed.
Qed.

Lemma libraries_addFilesInternal (X : Externals) pattern base isLib lib env s :
  libraries (addFilesInternal X pattern base isLib lib env s) = libraries s.
Proof.
  unfold addFilesInternal. destruct (failed _); [done|].
  by destruct (foldl_registerFile isLib lib
                 (globRank (svGlob X base pattern Files env))
                 (globFiles (svGlob X base pattern Files env)) s)
    as (_ & _ & _ & -> & _).
Qed.

(** X4: libraries are kept under their names.  An empty name gives no
    library and changes nothing; any other name gives a library of that
    name, the one already kept under it if there is one; asking again
    gives the same library and changes nothing more; the libraries kept
    under other names are not touched; and the registration of library
    files, the creation of a library and the loading of library maps keep
    every library under its name. *)
Theorem libraries_kept_by_name (X : Externals) (s : SourceLoader)
    (name : string) :
  namesKeyed s →
  (name = "" → getOrAddLibrary name s = (s, None))
  ∧ (name ≠ "" →
     ∃ lib, (getOrAddLibrary name s).2 = Some lib
            ∧ libName lib = name
            ∧ libraries (getOrAddLibrary name s).1 !! name = Some lib
            ∧ (∀ known, libraries s !! name = Some known → lib = known)
            ∧ getOrAddLibrary name (getOrAddLibrary name s).1
              = ((getOrAddLibrary name s).1, Some lib))
  ∧ (∀ other, other ≠ name →
       libraries (getOrAddLibrary name s).1 !! other = libraries s !! other)
  ∧ namesKeyed (getOrAddLibrary name s).1
  ∧ (∀ pattern, namesKeyed (addLibraryFiles X name pattern s))
  ∧ (∀ filePaths basePath,
       namesKeyed (createLibrary X name filePaths basePath s))
  ∧ (∀ fuel pattern basePath expandEnvVars s',
       addLibraryMaps X fuel pattern basePath expandEnvVars s = Done s' →
       namesKeyed s').
Proof.
  intros Hkeyed.
  assert (Hadd : ∀ s pattern base isLib lib env,
    namesKeyed s → namesKeyed (addFilesInternal X pattern base isLib lib env s)).
  { intros s0 pattern base isLib lib env H n l.
    rewrite libraries_addFilesInternal. apply H. }
  assert (Hcreate : ∀ s name filePaths base,
    namesKeyed s → namesKeyed (createLibrary X name filePaths base s)).
  { intros s0 name0 filePaths base. apply createLibrary_preserves.
    - intros. by apply namesKeyed_getOrAddLibrary.
    - intros. by apply Hadd. }
  split_and!.
  - intros ->. done.
  - intros Hname. unfold getOrAddLibrary, isEmpty.
    rewrite !bool_decide_eq_false_2 by done.
    destruct (libraries s !! name) as [lib|] eqn:Hlib; cbn.
    + exists lib. rewrite Hlib. split_and!; try done.
      * by apply Hkeyed.
      * by intros known [= <-].
    + eexists. rewrite lookup_insert_eq. split_and!; done.
  - intros other Hne. unfold getOrAddLibrary. destruct (isEmpty name); [done|].
    destruct (libraries s !! name); [done|]. cbn. by rewrite lookup_insert_ne.
  - by apply namesKeyed_getOrAddLibrary.
  - intros pattern. unfold addLibraryFiles.
    pose proof (namesKeyed_getOrAddLibrary name s Hkeyed) as H1.
    destruct (getOrAddLibrary name s) as [s1 lib]. by apply Hadd.
  - intros. by apply Hcreate.
  - intros fuel pattern basePath env s'.
    apply (addLibraryMaps_preserves X namesKeyed); try done.
Qed.

Lemma libraries_kept_by_name_witness :
  namesKeyed freshLoader
  ∧ namesKeyed (addLibraryFiles demo "cells" "cell.v" freshLoader).
Proof.
  assert (H : namesKeyed freshLoader).
  { intros n lib. unfold freshLoader, newSourceLoader. cbn.
    by rewrite lookup_empty. }
  split; [exact H|].
  apply (libraries_kept_by_name demo freshLoader "cells" H).
Defined.

Lemma extensionsListed_new m : extensionsListed (newSourceLoader m).
Proof.
  unfold extensionsListed, newSourceLoader, widen. cbn.
  rewrite list_fmap_id. split; [apply NoDup_elements|].
  apply list_to_set_elements_L.
Qed.

(** X5: the search extensions are listed without repetition, and listed
    are exactly the unique extensions.  A new loader lists [.v] and [.sv];
    adding an extension keeps those listed in place, puts a new one at the
    end, and does nothing for one listed already, so that adding twice is
    adding once. *)
Theorem extensions_listed_once (s : SourceLoader) (extension : string) :
  extensionsListed s →
  extensionsListed (addSearchExtension extension s)
  ∧ extension ∈ searchExtensions (addSearchExtension extension s)
  ∧ (extension ∈ searchExtensions s → addSearchExtension extension s = s)
  ∧ (extension ∉ searchExtensions s →
     searchExtensions (addSearchExtension extension s)
     = searchExtensions s ++ [extension])
  ∧ addSearchExtension extension (addSearchExtension extension s)
    = addSearchExtension extension s
  ∧ (∀ m, extensionsListed (newSourceLoader m)
          ∧ ".v" ∈ searchExtensions (newSourceLoader m)
          ∧ ".sv" ∈ searchExtensions (newSourceLoader m)
          ∧ length (searchExtensions (newSourceLoader m)) = 2).
Proof.
  intros [Hnodup Hset].
  assert (Hin : ∀ x, x ∈ searchExtensions s ↔ x ∈ uniqueExtensions s).
  { intros x. rewrite <- Hset. by rewrite elem_of_list_to_set. }
  split_and!.
  - unfold addSearchExtension, extensionsListed, widen.
    case_bool_decide as Hext; [done|]. cbn. split.
    + apply NoDup_app. split_and!; [done| |apply NoDup_singleton].
      intros x Hx ->%list_elem_of_singleton. by apply Hext, Hin.
    + rewrite list_to_set_app_L, Hset. cbn. set_solver.
  - unfold addSearchExtension, widen. case_bool_decide as Hext.
    + by apply Hin.
    + cbn. apply elem_of_app. right. apply list_elem_of_here.
  - intros Hext%Hin. unfold addSearchExtension.
    by rewrite bool_decide_eq_true_2.
  - intros Hext. unfold addSearchExtension, widen.
    by rewrite bool_decide_eq_false_2 by (by rewrite <- Hin).
  - unfold addSearchExtension at 2. case_bool_decide as Hext.
    + unfold addSearchExtension. by rewrite bool_decide_eq_true_2.
    + unfold addSearchExtension at 1. cbn.
      rewrite bool_decide_eq_true_2 by set_solver.
      unfold addSearchExtension. by rewrite bool_decide_eq_false_2.
  - intros m. split; [apply extensionsListed_new|].
    destruct (extensionsListed_new m) as [Hnd Hs].
    assert (Hmem : ∀ x, x ∈ searchExtensions (newSourceLoader m)
                        ↔ x = ".v" ∨ x = ".sv").
    { intros x.
      rewrite <- (elem_of_list_to_set (C := gset string)), Hs.
      unfold newSourceLoader. cbn [uniqueExtensions].
      by rewrite elem_of_union, !elem_of_singleton. }
    split_and!; [apply Hmem; by left|apply Hmem; by right|].
    unfold newSourceLoader. cbn [searchExtensions]. by vm_compute.
Qed.

Lemma extensions_listed_once_witness :
  extensionsListed freshLoader
  ∧ addSearchExtension ".vh" (addSearchExtension ".vh" freshLoader)
    = addSearchExtension ".vh" freshLoader.
Proof.
  split; [apply extensionsListed_new|].
  apply (extensions_listed_once freshLoader ".vh"), extensionsListed_new.
Defined.

Lemma substring_prefix (s t : string) :
  String.substring 0 (String.length s) (s +:+ t) = s.
Proof.
  induction s as [|c s IH].
  - change ("" +:+ t) with t. by destruct t.
  - change (String c s +:+ t) with (String c (s +:+ t)).
    cbn [String.length String.substring]. by rewrite IH.
Qed.

Lemma length_string_app (s t : string) :
  String.length (s +:+ t) = String.length s + String.length t.
Proof.
  induction s as [|c s IH]; [done|].
  change (String c s +:+ t) with (String c (s +:+ t)).
  cbn [String.length]. by rewrite IH.
Qed.

Lemma length_substring_ge n (s : string) :
  n ≤ String.length s → String.length (String.substring 0 n s) = n.
Proof.
  revert n. induction s as [|c s IH]; intros [|n] Hn; cbn in *; try done; try lia.
  rewrite IH; [done|lia].
Qed.

(** X6: [getPathFromSpec] takes the first and the last character off a
    text of three characters or more, and gives the empty text for any
    shorter one; its result is empty only then, so that a quoted empty
    path is taken for no path. *)
Theorem getPathFromSpec_strips_delimiters (text : string) :
  (String.length text < 3 → getPathFromSpec text = "")
  ∧ (3 ≤ String.length text →
     String.length (getPathFromSpec text) = String.length text - 2)
  ∧ (getPathFromSpec text = "" ↔ String.length text < 3)
  ∧ (∀ (opening closing : Ascii.ascii) (inner : string),
       inner ≠ "" →
       getPathFromSpec
         (String opening (inner +:+ String closing EmptyString))
       = inner)
  ∧ (∀ (opening closing : Ascii.ascii),
       getPathFromSpec (String opening (String closing EmptyString)) = "").
Proof.
  assert (Hshort : String.length text < 3 → getPathFromSpec text = "").
  { intros H. unfold getPathFromSpec.
    by rewrite (proj2 (Nat.ltb_lt _ _) H). }
  assert (Hlong : 3 ≤ String.length text →
    String.length (getPathFromSpec text) = String.length text - 2).
  { intros H. unfold getPathFromSpec.
    rewrite (proj2 (Nat.ltb_ge _ _) H).
    destruct text as [|c rest]; cbn in *; [lia|].
    apply length_substring_ge. lia. }
  split_and!; [done|done| | |done].
  - split.
    + intros Hempty. destruct (decide (String.length text < 3)) as [|Hge]; [done|].
      rewrite Hempty in Hlong. cbn in Hlong. lia.
    + done.
  - intros opening closing inner Hinner. unfold getPathFromSpec.
    cbn [String.length]. rewrite length_string_app. cbn [String.length].
    destruct inner as [|c inner]; [done|]. cbn [String.length].
    rewrite (proj2 (Nat.ltb_ge _ _)) by lia.
    replace (S (S (String.length inner) + 1) - 2)
      with (String.length (String c inner)) by (cbn; lia).
    cbn [String.substring].
    apply (substring_prefix (String c inner)).
Qed.

Lemma getPathFromSpec_strips_delimiters_witness :
  3 ≤ String.length "<lib/*.v>"
  ∧ String.length (getPathFromSpec "<lib/*.v>") = 7.
Proof.
  split; [vm_compute; lia|].
  apply (getPathFromSpec_strips_delimiters "<lib/*.v>"). vm_compute. lia.
Defined.

(** ** Library declarations *)

Section CreateLibrary.
Context (X : Externals).

Lemma applyRequest_libraryOwned lib e r :
  regIsLibraryFile r = true → regLibrary r = Some lib →
  libraryOwned lib e → libraryOwned lib (applyRequest e r).
Proof.
  intros Hflag Hlib [He1 He2]. unfold libraryOwned, applyRequest, updateEntry.
  rewrite Hflag, Hlib, He1, He2. cbn.
  destruct (_ <? _)%Z; cbn; [done|]. by destruct (_ =? _)%Z.
Qed.

Lemma foldl_applyRequest_libraryOwned lib e rs :
  Forall (λ r, regIsLibraryFile r = true ∧ regLibrary r = Some lib) rs →
  libraryOwned lib e → libraryOwned lib (foldl applyRequest e rs).
Proof.
  intros Hall. revert e. induction Hall as [|r rs [H1 H2] _ IH]; intros e He;
    [done|].
  cbn. apply IH. by apply applyRequest_libraryOwned.
Qed.

Lemma Forall_requestsFor_requestsOf lib rank files p :
  Forall (λ r, regIsLibraryFile r = true ∧ regLibrary r = Some lib)
    (requestsFor p (requestsOf true (Some lib) rank files)).
Proof.
  apply Forall_forall. intros r Hr. unfold requestsFor in Hr.
  apply list_elem_of_filter in Hr as [_ Hr]. unfold requestsOf in Hr.
  apply list_elem_of_fmap in Hr as (q & -> & _). done.
Qed.

(** One library pattern registered: a path owned by the library stays so,
    and a path new to the registry is owned by it when globbed and stays
    unregistered otherwise. *)
Lemma addFilesInternal_libraryOwned pattern base lib s p :
  wfRegistry s →
  let s' := addFilesInternal X pattern base true (Some lib) true s in
  (∀ e, entryOf s p = Some e → libraryOwned lib e →
        ∃ e', entryOf s' p = Some e' ∧ libraryOwned lib e')
  ∧ (fileIndex s !! p = None →
     (failed (globEc (svGlob X base pattern Files true)) = false
      ∧ p ∈ globFiles (svGlob X base pattern Files true)
      ∧ ∃ e', entryOf s' p = Some e' ∧ libraryOwned lib e')
     ∨ ((failed (globEc (svGlob X base pattern Files true)) = true
         ∨ p ∉ globFiles (svGlob X base pattern Files true))
        ∧ fileIndex s' !! p = None)).
Proof.
  intros Hwf s'. unfold s', addFilesInternal.
  destruct (failed _) eqn:Hfail.
  { split; [eauto|]. intros Hp. right. split; [by left|done]. }
  set (g := svGlob X base pattern Files true).
  rewrite <- (registerAll_requestsOf true (Some lib) (globRank g) s (globFiles g)).
  split.
  - intros e He Hown. rewrite (registerAll_entry_seen s _ p e Hwf He).
    eexists. split; [done|].
    apply foldl_applyRequest_libraryOwned; [|done].
    apply Forall_requestsFor_requestsOf.
  - intros Hp. rewrite (registerAll_entry_unseen s _ p Hwf Hp).
    pose proof (Forall_requestsFor_requestsOf lib (globRank g) (globFiles g) p)
      as Hall.
    destruct (decide (p ∈ globFiles g)) as [Hin|Hnin].
    + left. split; [done|]. split; [done|].
      destruct (requestsFor p _) as [|r0 rest] eqn:Hreq.
      * exfalso. assert (Hr : {| regPath := p; regIsLibraryFile := true;
                                 regLibrary := Some lib;
                                 regRank := globRank g |}
                              ∈ requestsFor p (requestsOf true (Some lib)
                                                 (globRank g) (globFiles g))).
        { unfold requestsFor. apply list_elem_of_filter. split; [done|].
          unfold requestsOf. apply list_elem_of_fmap. by exists p. }
        rewrite Hreq in Hr. by apply elem_of_nil in Hr.
      * apply Forall_cons in Hall as [[H1 H2] Hrest].
        eexists. split; [done|].
        apply foldl_applyRequest_libraryOwned; [done|].
        unfold libraryOwned, newFileEntry. cbn. by rewrite H1, H2.
    + right. split; [by right|].
      destruct (foldl_registerFile true (Some lib) (globRank g) (globFiles g) s)
        as (Hd & _). cbn zeta in Hd.
      rewrite registerAll_requestsOf.
      apply not_elem_of_dom. rewrite Hd.
      apply not_elem_of_dom in Hp. set_solver.
Qed.

Lemma errors_addFilesInternal pattern base isLib lib env s :
  errors s `prefix_of` errors (addFilesInternal X pattern base isLib lib env s)
  ∧ (failed (globEc (svGlob X base pattern Files env)) = true →
     (widen pattern, globEc (svGlob X base pattern Files env))
     ∈ errors (addFilesInternal X pattern base isLib lib env s)).
Proof.
  unfold addFilesInternal. destruct (failed _).
  - cbn. split; [by apply prefix_app_r|]. intros _.
    apply elem_of_app. right. apply list_elem_of_here.
  - split; [|done].
    destruct (foldl_registerFile isLib lib
                (globRank (svGlob X base pattern Files env))
                (globFiles (svGlob X base pattern Files env)) s)
      as (_ & _ & -> & _). done.
Qed.

(** The loop of [createLibrary] over the file path specs. *)
Lemma createLibrary_specs lib base filePaths s p :
  wfRegistry s →
  let s' := foldl (λ s filePath,
                     let spec := getPathFromSpec filePath in
                     if isEmpty spec then s
                     else addFilesInternal X spec base true (Some lib) true s)
                  s filePaths in
  wfRegistry s'
  ∧ errors s `prefix_of` errors s'
  ∧ (∀ e, entryOf s p = Some e → libraryOwned lib e →
          ∃ e', entryOf s' p = Some e' ∧ libraryOwned lib e')
  ∧ (fileIndex s !! p = None →
     ∀ filePath, filePath ∈ filePaths →
       getPathFromSpec filePath ≠ "" →
       failed (globEc (svGlob X base (getPathFromSpec filePath) Files true))
       = false →
       p ∈ globFiles (svGlob X base (getPathFromSpec filePath) Files true) →
       ∃ e', entryOf s' p = Some e' ∧ libraryOwned lib e')
  ∧ (∀ filePath, filePath ∈ filePaths →
       getPathFromSpec filePath ≠ "" →
       failed (globEc (svGlob X base (getPathFromSpec filePath) Files true))
       = true →
       (widen (getPathFromSpec filePath),
        globEc (svGlob X base (getPathFromSpec filePath) Files true))
       ∈ errors s').
Proof.
  revert s. induction filePaths as [|fp filePaths IH]; intros s Hwf.
  - cbn. split_and!; [done|done|eauto| |].
    + intros _ filePath H. by apply elem_of_nil in H.
    + intros filePath H. by apply elem_of_nil in H.
  - cbn [foldl].
    set (s1 := if isEmpty (getPathFromSpec fp) then s
               else addFilesInternal X (getPathFromSpec fp) base true
                      (Some lib) true s).
    assert (Hwf1 : wfRegistry s1).
    { unfold s1. destruct (isEmpty _); [done|]. by apply wf_addFilesInternal. }
    assert (Herr1 : errors s `prefix_of` errors s1).
    { unfold s1. destruct (isEmpty _); [done|]. apply errors_addFilesInternal. }
    destruct (IH s1 Hwf1) as (Hwf' & Herr' & Hkeep & Hnew & Hbad).
    cbn zeta in *.
    pose proof (addFilesInternal_libraryOwned (getPathFromSpec fp) base lib s p Hwf)
      as [Hkeep1 Hnew1]. cbn zeta in *.
    split_and!.
    + done.
    + by etrans.
    + intros e He Hown.
      assert (∃ e1, entryOf s1 p = Some e1 ∧ libraryOwned lib e1)
        as (e1 & He1 & Hown1).
      { unfold s1. destruct (isEmpty _); [eauto|]. by eapply Hkeep1. }
      by eapply Hkeep.
    + intros Hp filePath Hin Hspec Hok Hglob.
      unfold isEmpty in s1.
      destruct (decide (getPathFromSpec fp = "")) as [Hempty|Hne].
      * assert (s1 = s) as Hs1.
        { unfold s1. by rewrite bool_decide_eq_true_2. }
        rewrite Hs1 in *.
        apply elem_of_cons in Hin as [->|Hin]; [done|]. by eapply Hnew.
      * assert (s1 = addFilesInternal X (getPathFromSpec fp) base true
                       (Some lib) true s) as Hs1.
        { unfold s1. by rewrite bool_decide_eq_false_2. }
        destruct (Hnew1 Hp) as [(_ & _ & e1 & He1 & Hown1)|[Hno Hp1]].
        -- rewrite <- Hs1 in He1. by eapply Hkeep.
        -- rewrite <- Hs1 in Hp1.
           apply elem_of_cons in Hin as [->|Hin].
           ++ destruct Hno as [Hno|Hno]; [congruence|done].
           ++ by eapply Hnew.
    + intros filePath [->|Hin]%elem_of_cons Hspec Hfail.
      * eapply elem_of_prefix; [|exact Herr'].
        unfold s1, isEmpty. rewrite bool_decide_eq_false_2 by done.
        by apply errors_addFilesInternal.
      * by apply Hbad.
Qed.

Lemma libraries_createLibrary_specs lib base filePaths s :
  libraries (foldl (λ s filePath,
                      let spec := getPathFromSpec filePath in
                      if isEmpty spec then s
                      else addFilesInternal X spec base true (Some lib) true s)
                   s filePaths)
  = libraries s.
Proof.
  revert s. induction filePaths as [|fp filePaths IH]; intros s; [done|].
  cbn [foldl]. rewrite IH. destruct (isEmpty _); [done|].
  apply libraries_addFilesInternal.
Qed.

End CreateLibrary.

(** X7: a library declaration of a library map.  Without a name it does
    nothing.  With a name the library is kept under that name afterwards,
    the errors recorded before stay in front, every file path spec whose
    expansion fails leaves its error, and every path new to the registry
    that some spec of the declaration expands to is registered as a
    library file of that library, whatever the other specs of the
    declaration do. *)
Theorem createLibrary_registers_specs (X : Externals) (name : string)
    (filePaths : list string) (basePath : fs_path) (s : SourceLoader)
    (p : fs_path) :
  wfRegistry s →
  wfRegistry (createLibrary X name filePaths basePath s)
  ∧ (name = "" → createLibrary X name filePaths basePath s = s)
  ∧ (name ≠ "" →
     ∃ lib,
       libraries (createLibrary X name filePaths basePath s) !! name = Some lib
       ∧ errors s `prefix_of` errors (createLibrary X name filePaths basePath s)
       ∧ (∀ filePath, filePath ∈ filePaths →
            getPathFromSpec filePath ≠ "" →
            failed (globEc (svGlob X basePath (getPathFromSpec filePath)
                              Files true)) = true →
            (widen (getPathFromSpec filePath),
             globEc (svGlob X basePath (getPathFromSpec filePath) Files true))
            ∈ errors (createLibrary X name filePaths basePath s))
       ∧ (fileIndex s !! p = None →
          ∀ filePath, filePath ∈ filePaths →
            getPathFromSpec filePath ≠ "" →
            failed (globEc (svGlob X basePath (getPathFromSpec filePath)
                              Files true)) = false →
            p ∈ globFiles (svGlob X basePath (getPathFromSpec filePath)
                             Files true) →
            ∃ e, entryOf (createLibrary X name filePaths basePath s) p = Some e
                 ∧ libraryOwned lib e)).
Proof.
  intros Hwf. split; [by apply wf_createLibrary|].
  split.
  { intros ->. done. }
  intros Hname. unfold createLibrary, isEmpty.
  rewrite bool_decide_eq_false_2 by done.
  pose proof (wf_getOrAddLibrary name s Hwf) as Hwf1.
  destruct (getOrAddLibrary_registries name s) as (Herr & Hent & Hidx & _).
  cbn zeta in *.
  assert (∃ lib, (getOrAddLibrary name s).2 = Some lib
                 ∧ libraries (getOrAddLibrary name s).1 !! name = Some lib)
    as (lib & Hlib & Hkept).
  { unfold getOrAddLibrary, isEmpty. rewrite bool_decide_eq_false_2 by done.
    destruct (libraries s !! name) as [lib|] eqn:Hl; cbn; [by eauto|].
    eexists. split; [done|]. by rewrite lookup_insert_eq. }
  destruct (getOrAddLibrary name s) as [s1 l]. cbn in *. subst l.
  exists lib.
  destruct (createLibrary_specs X lib basePath filePaths s1 p Hwf1)
    as (_ & Hpre & _ & Hnew & Hbad). cbn zeta in *.
  rewrite libraries_createLibrary_specs. split_and!.
  - done.
  - by rewrite <- Herr.
  - done.
  - intros Hp. apply Hnew. by rewrite Hidx.
Qed.

Lemma createLibrary_registers_specs_witness :
  wfRegistry freshLoader
  ∧ ∃ e, entryOf (createLibrary demo "cells" ["<cell.v>"] "" freshLoader)
           "cell.v" = Some e
         ∧ isLibraryFile e = true.
Proof.
  split; [apply wf_freshLoader|].
  destruct (createLibrary_registers_specs demo "cells" ["<cell.v>"] ""
              freshLoader "cell.v" (wf_freshLoader _)) as (_ & _ & H).
  destruct (H ltac:(done)) as (lib & _ & _ & _ & Hnew).
  destruct (Hnew ltac:(done) "<cell.v>") as (e & He & Hown & _).
  - apply list_elem_of_here.
  - done.
  - by vm_compute.
  - vm_compute. apply list_elem_of_here.
  - by exists e.
Defined.

(** ** What the loader holds only grows *)

Lemma onlyGrows_refl s : onlyGrows s s.
Proof. by unfold onlyGrows. Qed.

Lemma onlyGrows_trans s1 s2 s3 :
  onlyGrows s1 s2 → onlyGrows s2 s3 → onlyGrows s1 s3.
Proof.
  intros (H1 & H2 & H3 & H4 & H5 & H6) (G1 & G2 & G3 & G4 & G5 & G6).
  unfold onlyGrows. split_and!; by etrans.
Qed.

Lemma onlyGrows_add_error p ec s : onlyGrows s (add_error p ec s).
Proof. unfold onlyGrows. cbn. split_and!; try done. by apply prefix_app_r. Qed.

Lemma onlyGrows_getOrAddLibrary name s :
  onlyGrows s (getOrAddLibrary name s).1.
Proof.
  unfold getOrAddLibrary. destruct (isEmpty name); [apply onlyGrows_refl|].
  destruct (libraries s !! name) eqn:Hname; [apply onlyGrows_refl|].
  unfold onlyGrows. cbn. split_and!; try done. by apply insert_subseteq.
Qed.

Lemma onlyGrows_registerFile isLib lib rank s p :
  onlyGrows s (registerFile isLib lib rank s p).
Proof.
  unfold onlyGrows. rewrite errors_registerFile.
  destruct (foldl_registerFile isLib lib rank [p] s) as (_ & Hp & _ & Hl & Hd).
  cbn in Hp, Hl, Hd. rewrite Hl, Hd. split_and!; try done.
  all: unfold registerFile; by destruct (fileIndex s !! p).
Qed.

Section OnlyGrows.
Context (X : Externals).

Lemma onlyGrows_addFilesInternal pattern base isLib lib env s :
  onlyGrows s (addFilesInternal X pattern base isLib lib env s).
Proof.
  unfold addFilesInternal. destruct (failed _); [apply onlyGrows_add_error|].
  generalize (globFiles (svGlob X base pattern Files env)).
  intros files. revert s. induction files as [|p files IH]; intros s.
  - apply onlyGrows_refl.
  - cbn [foldl]. eapply onlyGrows_trans; [|apply IH].
    apply onlyGrows_registerFile.
Qed.

Lemma onlyGrows_createLibrary name filePaths base s :
  onlyGrows s (createLibrary X name filePaths base s).
Proof.
  apply (createLibrary_preserves X (onlyGrows s)).
  - intros s1 n H. eapply onlyGrows_trans; [exact H|].
    apply onlyGrows_getOrAddLibrary.
  - intros s1 pattern b isLib lib env H. eapply onlyGrows_trans; [exact H|].
    apply onlyGrows_addFilesInternal.
  - apply onlyGrows_refl.
Qed.

Lemma onlyGrows_addLibraryMaps fuel pattern base env s s' :
  addLibraryMaps X fuel pattern base env s = Done s' → onlyGrows s s'.
Proof.
  revert pattern base env s s'.
  induction fuel as [|fuel IH]; intros pattern base env s s'; [done|].
  cbn [addLibraryMaps]. destruct (failed _).
  { intros [= <-]. apply onlyGrows_add_error. }
  apply (foldC_preserves (onlyGrows s)); [|apply onlyGrows_refl].
  intros s1 p s2 Hs1 Hstep. eapply onlyGrows_trans; [exact Hs1|].
  clear s s' Hs1. revert Hstep.
  unfold readSource. destruct (fsFiles X !! p) as [text|].
  - match goal with
    | |- foldC _ ?s0 _ = _ → _ =>
        assert (Hs0 : onlyGrows s1 s0);
        [|apply (foldC_preserves (onlyGrows s1)); [|exact Hs0]]
    end.
    { unfold onlyGrows. cbn. split_and!; try done. by apply prefix_app_r. }
    intros s member s' Hs Hm. eapply onlyGrows_trans; [exact Hs|].
    destruct member as [| |fp|name fps|].
    + injection Hm as <-. apply onlyGrows_refl.
    + injection Hm as <-. apply onlyGrows_refl.
    + destruct (isEmpty _).
      * injection Hm as <-. apply onlyGrows_refl.
      * by eapply IH.
    + injection Hm as <-. apply onlyGrows_createLibrary.
    + done.
  - intros [= <-]. unfold onlyGrows. cbn. split_and!; try done.
    by apply prefix_app_r.
Qed.

End OnlyGrows.

(** X8: nothing the loader holds is ever removed or moved.  After any of
    the registration operations the error list, the paths of the file
    entries, the library map trees, the search directories and the search
    extensions have the old list as a prefix, and every library is still
    kept under its name; for [addLibraryMaps] this holds whenever it
    returns. *)
Theorem registration_only_grows (X : Externals) (s : SourceLoader) :
  (∀ pattern, onlyGrows s (addFiles X pattern s))
  ∧ (∀ name pattern, onlyGrows s (addLibraryFiles X name pattern s))
  ∧ (∀ pattern, onlyGrows s (addSearchDirectories X pattern s))
  ∧ (∀ extension, onlyGrows s (addSearchExtension extension s))
  ∧ (∀ name filePaths basePath,
       onlyGrows s (createLibrary X name filePaths basePath s))
  ∧ (∀ fuel pattern basePath expandEnvVars s',
       addLibraryMaps X fuel pattern basePath expandEnvVars s = Done s' →
       onlyGrows s s').
Proof.
  split_and!.
  - intros pattern. apply onlyGrows_addFilesInternal.
  - intros name pattern. unfold addLibraryFiles.
    pose proof (onlyGrows_getOrAddLibrary name s) as H.
    destruct (getOrAddLibrary name s) as [s1 lib]. cbn in H.
    eapply onlyGrows_trans; [exact H|]. apply onlyGrows_addFilesInternal.
  - intros pattern. unfold addSearchDirectories.
    destruct (failed _); [apply onlyGrows_add_error|].
    unfold onlyGrows. cbn. split_and!; try done. by apply prefix_app_r.
  - intros extension. unfold addSearchExtension.
    case_bool_decide; [apply onlyGrows_refl|].
    unfold onlyGrows. cbn. split_and!; try done. by apply prefix_app_r.
  - intros. apply onlyGrows_createLibrary.
  - intros fuel pattern basePath env s'. apply onlyGrows_addLibraryMaps.
Qed.

(** ** Library maps *)

Lemma foldC_app {A S} (step : S → A → Checked S) (s : S) (l1 l2 : list A) :
  foldC step s (l1 ++ l2) = foldC step s l1 ≫= λ s1, foldC step s1 l2.
Proof.
  revert s. induction l1 as [|a l1 IH]; intros s; [done|].
  cbn. destruct (step s a) as [s1|f]; cbn; [apply IH|done].
Qed.

Lemma foldC_more_fuel {A S} (step1 step2 : S → A → Checked S) (s : S)
    (l : list A) (r : Checked S) :
  (∀ s a r, step1 s a = r → r ≠ Abort OutOfFuel → step2 s a = r) →
  foldC step1 s l = r → r ≠ Abort OutOfFuel → foldC step2 s l = r.
Proof.
  intros Hstep. revert s. induction l as [|a l IH]; intros s; [done|].
  cbn. destruct (step1 s a) as [s1|f] eqn:H1.
  - rewrite (Hstep s a (Done s1) H1) by done. cbn. apply IH.
  - cbn. intros <- Hf. by rewrite (Hstep s a (Abort f) H1).
Qed.

Section LibraryMaps.
Context (X : Externals).

Lemma addLibraryMaps_more_fuel fuel pattern base env s r :
  addLibraryMaps X fuel pattern base env s = r → r ≠ Abort OutOfFuel →
  addLibraryMaps X (S fuel) pattern base env s = r.
Proof.
  revert pattern base env s r.
  induction fuel as [|fuel IH]; intros pattern base env s r.
  { cbn [addLibraryMaps]. by intros <-. }
  intros H Hr. cbn [addLibraryMaps] in H.
  change (addLibraryMaps X (S (S fuel)) pattern base env s)
    with (let g := svGlob X base pattern Files env in
          if failed (globEc g) then Done (add_error (widen pattern) (globEc g) s)
          else
            foldC (λ s p,
              match readSource (fsFiles X) (sourceManager s) p None with
              | (sm, inl ec) => Done (add_error p ec (set_sourceManager sm s))
              | (sm, inr buffer) =>
                  let tree := {| mapBuffer := buffer;
                                 members := parseLibraryMap X buffer |} in
                  let s := set_libraryMapTrees (libraryMapTrees s ++ [tree])
                             (set_sourceManager sm s) in
                  let parentPath := parent_path X p in
                  foldC (λ s member,
                    match member with
                    | ConfigDeclaration | EmptyMember => Done s
                    | LibraryIncludeStatement filePath =>
                        let spec := getPathFromSpec filePath in
                        if isEmpty spec then Done s
                        else addLibraryMaps X (S fuel) spec parentPath true s
                    | LibraryDeclaration name filePaths =>
                        Done (createLibrary X name filePaths parentPath s)
                    | OtherMember => Abort Unreachable
                    end) s (members tree)
              end) s (globFiles g)).
  cbn zeta. destruct (failed _); [done|].
  revert H Hr. apply foldC_more_fuel. clear s r. intros s p r.
  destruct (readSource _ _ _ _) as [m [ec|buffer]]; [done|].
  apply foldC_more_fuel. clear s r. intros s member r.
  destruct member as [| |fp|name fps|]; try done.
  destruct (isEmpty _); [done|]. apply IH.
Qed.

Lemma foldC_plain base fuel s plain :
  forallb plainMember plain = true →
  foldC (λ s member,
           match member with
           | ConfigDeclaration | EmptyMember => Done s
           | LibraryIncludeStatement filePath =>
               if isEmpty (getPathFromSpec filePath) then Done s
               else addLibraryMaps X fuel (getPathFromSpec filePath) base
                      true s
           | LibraryDeclaration name filePaths =>
               Done (createLibrary X name filePaths base s)
           | OtherMember => Abort Unreachable
           end) s plain
  = Done (foldl (λ s member,
                   match member with
                   | LibraryDeclaration name filePaths =>
                       createLibrary X name filePaths base s
                   | _ => s
                   end) s plain).
Proof.
  revert s. induction plain as [|m plain IH]; intros s Hall; [done|].
  cbn in Hall. apply andb_true_iff in Hall as [Hm Hall].
  destruct m; try done; cbn; by apply IH.
Qed.

End LibraryMaps.

(** A call that returns, or stops on an unknown kind of member, does the
    same under any larger bound on the nesting. *)
Lemma addLibraryMaps_enough_fuel (X : Externals) (fuel fuel' : nat)
    (pattern : string) (basePath : fs_path) (expandEnvVars : bool)
    (s : SourceLoader) (r : Checked SourceLoader) :
  addLibraryMaps X fuel pattern basePath expandEnvVars s = r →
  r ≠ Abort OutOfFuel → fuel ≤ fuel' →
  addLibraryMaps X fuel' pattern basePath expandEnvVars s = r.
Proof.
  intros H Hr Hle. induction Hle as [|fuel' Hle IH]; [done|].
  by apply addLibraryMaps_more_fuel.
Qed.

Lemma foldC_total {A S} (step : S → A → Checked S) (l : list A) :
  Forall (λ a, ∀ s, ∃ s', step s a = Done s') l →
  ∀ s, ∃ s', foldC step s l = Done s'.
Proof.
  induction 1 as [|a l Ha _ IH]; intros s; [by eexists|].
  cbn. destruct (Ha s) as [s1 ->]. rewrite bind_Done. apply IH.
Qed.

Lemma addLibraryMaps_total (X : Externals) depth pattern base env s :
  finiteIncludes X depth pattern base env = true →
  ∃ s', addLibraryMaps X depth pattern base env s = Done s'.
Proof.
  revert pattern base env s.
  induction depth as [|depth IH]; intros pattern base env s; [done|].
  cbn [finiteIncludes addLibraryMaps].
  destruct (failed _); [by eexists|]. cbn [orb].
  intros Hfiles. apply foldC_total. clear s.
  rewrite forallb_forall in Hfiles. apply Forall_forall.
  intros p Hp s. apply list_elem_of_In, Hfiles in Hp.
  unfold mapTreeOf in Hp. unfold readSource.
  destruct (fsFiles X !! p) as [text|]; [|by eexists].
  cbn [fmap option_fmap option_map members] in Hp.
  cbn [members]. apply foldC_total.
  rewrite forallb_forall in Hp. apply Forall_forall.
  intros member Hm s1. apply list_elem_of_In, Hp in Hm.
  destruct member as [| |fp|name fps|].
  - by exists s1.
  - by exists s1.
  - destruct (isEmpty _); [by exists s1|]. by apply IH.
  - by eexists.
  - done.
Qed.

(** X9: [addLibraryMaps] returns whenever the include statements reachable
    from the pattern nest to a finite depth and no member of an unknown
    kind is met: every map file on the way is read and every include
    followed, the recursion ends, and nothing the loader held before is
    lost.  The result is the same under every bound on the nesting that
    is not below that depth. *)
Theorem addLibraryMaps_returns_for_finite_nesting (X : Externals)
    (depth : nat) (pattern : string) (basePath : fs_path)
    (expandEnvVars : bool) (s : SourceLoader) :
  finiteIncludes X depth pattern basePath expandEnvVars = true →
  ∃ s',
    (∀ fuel, depth ≤ fuel →
       addLibraryMaps X fuel pattern basePath expandEnvVars s = Done s')
    ∧ onlyGrows s s'.
Proof.
  intros Hfinite.
  destruct (addLibraryMaps_total X depth pattern basePath expandEnvVars s
              Hfinite) as [s' Hrun].
  exists s'. split.
  - intros fuel Hle. by eapply addLibraryMaps_enough_fuel.
  - by eapply onlyGrows_addLibraryMaps.
Qed.

Lemma addLibraryMaps_returns_for_finite_nesting_witness :
  finiteIncludes nestedMaps 2 "top.map" "" false = true
  ∧ ∃ s', addLibraryMaps nestedMaps 2 "top.map" "" false freshLoader = Done s'
          ∧ length (libraryMapTrees s') = 2.
Proof.
  split; [by vm_compute|].
  destruct (addLibraryMaps_returns_for_finite_nesting nestedMaps 2 "top.map"
              "" false freshLoader) as (s' & Hrun & _).
  - by vm_compute.
  - exists s'. split; [by apply Hrun|].
    specialize (Hrun 2 (le_n 2)). vm_compute in Hrun.
    by injection Hrun as <-.
Defined.

(** X10: [addLibraryMaps] has no guard against maps that include each
    other.  For any set of patterns each of which leads, through an
    include statement of its first map file, to a pattern of the set
    again, the call finishes under no bound on the nesting: the recursion
    of the source never returns. *)
Theorem include_cycle_never_returns (X : Externals)
    (cyclic : string → fs_path → Prop) :
  (∀ pattern basePath, cyclic pattern basePath →
     ∃ pattern' basePath',
       includesNext X pattern basePath pattern' basePath'
       ∧ cyclic pattern' basePath') →
  ∀ pattern basePath, cyclic pattern basePath →
    ∀ fuel s, addLibraryMaps X fuel pattern basePath true s = Abort OutOfFuel.
Proof.
  intros Hnext pattern basePath Hc fuel. revert pattern basePath Hc.
  induction fuel as [|fuel IH]; intros pattern basePath Hc s; [done|].
  destruct (Hnext _ _ Hc) as (pattern' & basePath' & Hinc & Hc').
  destruct Hinc as (p & rest & text & plain & fp & others
                    & Hok & Hfiles & Htext & Hmembers & Hplain & Hspec & Hne
                    & Hparent).
  assert (Hread : readSource (fsFiles X) (sourceManager s) p None
                  = ({| cached := {[p]} ∪ cached (sourceManager s) |},
                     inr {| bufPath := p; bufData := text;
                            bufLibrary := None |})).
  { unfold readSource. by rewrite Htext. }
  cbn [addLibraryMaps]. rewrite Hok, Hfiles. cbn [foldC].
  rewrite Hread. cbn [members].
  rewrite Hmembers, foldC_app, (foldC_plain X _ fuel _ plain Hplain).
  rewrite bind_Done. cbn [foldC]. rewrite Hspec, Hparent.
  unfold isEmpty. rewrite bool_decide_eq_false_2 by done.
  by rewrite IH.
Qed.

Lemma include_cycle_never_returns_witness :
  addLibraryMaps loopMap 100 "maps.lib" "" true freshLoader = Abort OutOfFuel.
Proof.
  apply (include_cycle_never_returns loopMap
           (λ pattern basePath, pattern = "maps.lib" ∧ basePath = ""));
    [|done].
  intros pattern basePath [-> ->]. exists "maps.lib", "". split; [|done].
  exists "maps.lib", [], "include <maps.lib>;", [EmptyMember], "<maps.lib>", [].
  by vm_compute.
Defined.

Section FlatMaps.
Context (X : Externals).

Lemma libraryMapTrees_registerFile isLib lib rank s p :
  libraryMapTrees (registerFile isLib lib rank s p) = libraryMapTrees s.
Proof. unfold registerFile. by destruct (fileIndex s !! p). Qed.

Lemma libraryMapTrees_addFilesInternal pattern base isLib lib env s :
  libraryMapTrees (addFilesInternal X pattern base isLib lib env s)
  = libraryMapTrees s.
Proof.
  unfold addFilesInternal. destruct (failed _); [done|].
  generalize (globFiles (svGlob X base pattern Files env)). intros files.
  revert s. induction files as [|p files IH]; intros s; [done|].
  cbn [foldl]. by rewrite IH, libraryMapTrees_registerFile.
Qed.

Lemma libraryMapTrees_createLibrary name filePaths base s :
  libraryMapTrees (createLibrary X name filePaths base s) = libraryMapTrees s.
Proof.
  apply (createLibrary_preserves X
           (λ s', libraryMapTrees s' = libraryMapTrees s)); [| |done].
  - intros s1 n <-. unfold getOrAddLibrary. destruct (isEmpty n); [done|].
    by destruct (libraries s1 !! n).
  - intros s1 pattern b isLib lib env <-.
    apply libraryMapTrees_addFilesInternal.
Qed.

Lemma createLibrary_named name filePaths base s :
  name ≠ "" → is_Some (libraries (createLibrary X name filePaths base s) !! name).
Proof.
  intros Hname. unfold createLibrary, isEmpty.
  rewrite bool_decide_eq_false_2 by done.
  assert (∃ l, (getOrAddLibrary name s).2 = Some l
               ∧ is_Some (libraries (getOrAddLibrary name s).1 !! name))
    as (l & Hl & Hsome).
  { unfold getOrAddLibrary, isEmpty. rewrite bool_decide_eq_false_2 by done.
    destruct (libraries s !! name) as [l|] eqn:Hl; cbn.
    - exists l. by rewrite Hl.
    - eexists. split; [done|]. by rewrite lookup_insert_eq. }
  destruct (getOrAddLibrary name s) as [s1 lib]. cbn in Hl, Hsome. subst lib.
  by rewrite libraries_createLibrary_specs.
Qed.

Lemma declareLibraries_spec base s ms :
  onlyGrows s (declareLibraries X base s ms)
  ∧ libraryMapTrees (declareLibraries X base s ms) = libraryMapTrees s
  ∧ (∀ name filePaths, LibraryDeclaration name filePaths ∈ ms → name ≠ "" →
       is_Some (libraries (declareLibraries X base s ms) !! name)).
Proof.
  revert s. induction ms as [|m ms IH]; intros s.
  { split_and!; [apply onlyGrows_refl|done|].
    intros name fps H. by apply elem_of_nil in H. }
  unfold declareLibraries. cbn [foldl].
  set (s1 := match m with
             | LibraryDeclaration name filePaths =>
                 createLibrary X name filePaths base s
             | _ => s
             end).
  assert (Hg1 : onlyGrows s s1).
  { unfold s1. destruct m; try apply onlyGrows_refl.
    apply onlyGrows_createLibrary. }
  assert (Ht1 : libraryMapTrees s1 = libraryMapTrees s).
  { unfold s1. destruct m; try done. apply libraryMapTrees_createLibrary. }
  destruct (IH s1) as (Hg & Ht & Hn). fold (declareLibraries X base s1 ms).
  split_and!.
  - by eapply onlyGrows_trans.
  - by rewrite Ht.
  - intros name fps [Heq|Hin]%elem_of_cons Hname; [|by eapply Hn].
    destruct Hg as (_ & _ & Hsub & _).
    eapply lookup_weaken_is_Some; [|exact Hsub].
    unfold s1. rewrite <- Heq. by apply createLibrary_named.
Qed.

Lemma loadFlatMap_spec s p :
  onlyGrows s (loadFlatMap X s p)
  ∧ libraryMapTrees (loadFlatMap X s p)
    = libraryMapTrees s ++ option_list (mapTreeOf X p)
  ∧ (fsFiles X !! p = None →
     (p, no_such_file_or_directory) ∈ errors (loadFlatMap X s p))
  ∧ (∀ tree name filePaths,
       mapTreeOf X p = Some tree →
       LibraryDeclaration name filePaths ∈ members tree → name ≠ "" →
       is_Some (libraries (loadFlatMap X s p) !! name)).
Proof.
  unfold loadFlatMap. destruct (mapTreeOf X p) as [tree|] eqn:Htree.
  - match goal with
    | |- context [declareLibraries X ?b ?s0 ?ms] =>
        destruct (declareLibraries_spec b s0 ms) as (Hg & Ht & Hn)
    end.
    split_and!.
    + eapply onlyGrows_trans; [|exact Hg].
      unfold onlyGrows. cbn. split_and!; try done. by apply prefix_app_r.
    + by rewrite Ht.
    + intros Hnone. unfold mapTreeOf in Htree. by rewrite Hnone in Htree.
    + intros t name fps [= <-]. apply Hn.
  - split_and!.
    + unfold onlyGrows. cbn. split_and!; try done. by apply prefix_app_r.
    + cbn. by rewrite app_nil_r.
    + intros _. cbn. apply elem_of_app. right. apply list_elem_of_here.
    + done.
Qed.

Lemma foldl_loadFlatMap_spec files s :
  onlyGrows s (foldl (loadFlatMap X) s files)
  ∧ libraryMapTrees (foldl (loadFlatMap X) s files)
    = libraryMapTrees s ++ omap (mapTreeOf X) files
  ∧ (∀ p, p ∈ files → fsFiles X !! p = None →
       (p, no_such_file_or_directory)
       ∈ errors (foldl (loadFlatMap X) s files))
  ∧ (∀ p tree name filePaths,
       p ∈ files → mapTreeOf X p = Some tree →
       LibraryDeclaration name filePaths ∈ members tree → name ≠ "" →
       is_Some (libraries (foldl (loadFlatMap X) s files) !! name)).
Proof.
  revert s. induction files as [|q files IH]; intros s.
  { cbn. split_and!; [apply onlyGrows_refl|by rewrite app_nil_r| |].
    - intros p H. by apply elem_of_nil in H.
    - intros p tree name fps H. by apply elem_of_nil in H. }
  cbn [foldl]. destruct (loadFlatMap_spec s q) as (Hg1 & Ht1 & He1 & Hn1).
  destruct (IH (loadFlatMap X s q)) as (Hg & Ht & He & Hn).
  split_and!.
  - by eapply onlyGrows_trans.
  - rewrite Ht, Ht1, <- app_assoc. f_equal.
    change (omap (mapTreeOf X) (q :: files))
      with (match mapTreeOf X q with
            | Some tree => tree :: omap (mapTreeOf X) files
            | None => omap (mapTreeOf X) files
            end).
    by destruct (mapTreeOf X q).
  - intros p [->|Hin]%elem_of_cons Hnone; [|by apply He].
    destruct Hg as (Hpre & _). eapply elem_of_prefix; [|exact Hpre]. by apply He1.
  - intros p tree name fps [->|Hin]%elem_of_cons Htree Hdecl Hname;
      [|by eapply Hn].
    destruct Hg as (_ & _ & Hsub & _).
    eapply lookup_weaken_is_Some; [|exact Hsub]. by eapply Hn1.
Qed.

Lemma addLibraryMaps_flat fuel pattern base env s :
  failed (globEc (svGlob X base pattern Files env)) = false →
  forallb (flatMap X) (globFiles (svGlob X base pattern Files env)) = true →
  addLibraryMaps X (S fuel) pattern base env s
  = Done (foldl (loadFlatMap X) s (globFiles (svGlob X base pattern Files env))).
Proof.
  intros Hok. cbn [addLibraryMaps]. rewrite Hok.
  generalize (globFiles (svGlob X base pattern Files env)). intros files.
  revert s. induction files as [|p files IH]; intros s Hflat; [done|].
  cbn in Hflat. apply andb_true_iff in Hflat as [Hp Hflat].
  cbn [foldC foldl]. rewrite <- (IH (loadFlatMap X s p) Hflat).
  unfold flatMap in Hp. unfold loadFlatMap, readSource.
  unfold mapTreeOf in *. destruct (fsFiles X !! p) as [text|]; cbn in Hp |- *.
  - by rewrite (foldC_plain X _ fuel _ _ Hp).
  - done.
Qed.

End FlatMaps.

(** X11: library maps without include statements.  When the pattern
    expands and every map file it expands to is unreadable or holds
    nothing but configurations, empty members and library declarations,
    [addLibraryMaps] returns without nesting; the trees of the readable
    map files are appended to the library map trees in the order of the
    expansion; each unreadable map file leaves a read error; every library
    declared under a name exists afterwards; and nothing held before is
    lost. *)
Theorem addLibraryMaps_without_includes (X : Externals) (pattern : string)
    (basePath : fs_path) (expandEnvVars : bool) (s : SourceLoader) :
  failed (globEc (svGlob X basePath pattern Files expandEnvVars)) = false →
  forallb (flatMap X)
    (globFiles (svGlob X basePath pattern Files expandEnvVars)) = true →
  ∃ s',
    (∀ fuel, addLibraryMaps X (S fuel) pattern basePath expandEnvVars s
             = Done s')
    ∧ onlyGrows s s'
    ∧ libraryMapTrees s'
      = libraryMapTrees s
        ++ omap (mapTreeOf X)
             (globFiles (svGlob X basePath pattern Files expandEnvVars))
    ∧ (∀ p, p ∈ globFiles (svGlob X basePath pattern Files expandEnvVars) →
         fsFiles X !! p = None →
         (p, no_such_file_or_directory) ∈ errors s')
    ∧ (∀ p tree name filePaths,
         p ∈ globFiles (svGlob X basePath pattern Files expandEnvVars) →
         mapTreeOf X p = Some tree →
         LibraryDeclaration name filePaths ∈ members tree → name ≠ "" →
         is_Some (libraries s' !! name)).
Proof.
  intros Hok Hflat. eexists. split.
  { intros fuel. by apply addLibraryMaps_flat. }
  apply foldl_loadFlatMap_spec.
Qed.

Lemma addLibraryMaps_without_includes_witness :
  ∃ s', addLibraryMaps demo 1 "cell.v" "" false freshLoader = Done s'
        ∧ length (libraryMapTrees s') = 1.
Proof.
  destruct (addLibraryMaps_without_includes demo "cell.v" "" false freshLoader)
    as (s' & Hrun & _ & Htrees & _).
  - by vm_compute.
  - by vm_compute.
  - exists s'. split; [apply Hrun|]. rewrite Htrees. by vm_compute.
Defined.

(** ** Loading without parsing *)

Lemma omap_cons {A B} (f : A → option B) (x : A) (l : list A) :
  omap f (x :: l)
  = match f x with Some y => y :: omap f l | None => omap f l end.
Proof. done. Qed.

Section LoadSources.
Context (X : Externals).

Lemma loadSources_fold entries results s :
  let r := foldl (λ '(results, s) entry,
                    match readSource (fsFiles X) (sourceManager s)
                            (path entry) (library entry) with
                    | (m, inl ec) =>
                        (results, add_error (path entry) ec
                                    (set_sourceManager m s))
                    | (m, inr buffer) =>
                        (results ++ [buffer], set_sourceManager m s)
                    end) (results, s) entries in
  r.1 = results ++ omap (bufferOf X) entries
  ∧ errors r.2 = errors s ++ omap (readFailure X) entries
  ∧ fileEntries r.2 = fileEntries s
  ∧ fileIndex r.2 = fileIndex s
  ∧ libraries r.2 = libraries s
  ∧ libraryMapTrees r.2 = libraryMapTrees s
  ∧ searchDirectories r.2 = searchDirectories s
  ∧ searchExtensions r.2 = searchExtensions s.
Proof.
  revert results s. induction entries as [|e entries IH]; intros results s.
  { cbn. by rewrite !app_nil_r. }
  cbn [foldl]. rewrite !omap_cons.
  destruct (fsFiles X !! path e) as [text|] eqn:Htext.
  - assert (Hread : readSource (fsFiles X) (sourceManager s) (path e)
                      (library e)
                    = ({| cached := {[path e]} ∪ cached (sourceManager s) |},
                       inr {| bufPath := path e; bufData := text;
                              bufLibrary := library e |})).
    { unfold readSource. by rewrite Htext. }
    rewrite Hread. unfold bufferOf at 1, readFailure at 1. rewrite Htext.
    cbn [fmap option_fmap option_map].
    destruct (IH (results ++ [{| bufPath := path e; bufData := text;
                                 bufLibrary := library e |}])
                (set_sourceManager
                   {| cached := {[path e]} ∪ cached (sourceManager s) |} s))
      as (H1 & H2 & H3 & H4 & H5 & H6 & H7 & H8). cbn zeta in *.
    rewrite H1, H2, <- app_assoc. by split_and!.
  - assert (Hread : readSource (fsFiles X) (sourceManager s) (path e)
                      (library e)
                    = (sourceManager s, inl no_such_file_or_directory)).
    { unfold readSource. by rewrite Htext. }
    rewrite Hread. unfold bufferOf at 1, readFailure at 1. rewrite Htext.
    cbn [fmap option_fmap option_map].
    destruct (IH results
                (add_error (path e) no_such_file_or_directory
                   (set_sourceManager (sourceManager s) s)))
      as (H1 & H2 & H3 & H4 & H5 & H6 & H7 & H8). cbn zeta in *.
    rewrite H1, H2. cbn [errors add_error set_sourceManager].
    rewrite <- app_assoc. by split_and!.
Qed.

Lemma length_read_or_failed entries :
  length (omap (bufferOf X) entries) + length (omap (readFailure X) entries)
  = length entries.
Proof.
  induction entries as [|e entries IH]; [done|].
  rewrite !omap_cons. unfold bufferOf, readFailure in *.
  destruct (fsFiles X !! path e); cbn [fmap option_fmap option_map length];
    lia.
Qed.

Lemma failures_readFailure srcOptions entries :
  failures (outcomeOf X srcOptions <$> entries)
  = omap (readFailure X) entries.
Proof.
  induction entries as [|e entries IH]; [done|].
  rewrite fmap_cons. unfold failures in *. rewrite !omap_cons, IH.
  unfold outcomeOf, readFailure.
  destruct (fsFiles X !! path e); [|done].
  destruct (negb (isLibraryFile e) && singleUnit srcOptions); [done|].
  by destruct (librariesInheritMacros srcOptions).
Qed.

Lemma buffersOf_app ts1 ts2 : buffersOf (ts1 ++ ts2) = buffersOf ts1 ++ buffersOf ts2.
Proof. unfold buffersOf. by rewrite !flat_map_concat_map, map_app, concat_app. Qed.

Lemma buffersOf_deferred inherited bs :
  buffersOf ((λ b, Some (markLibrary (fromBuffer b inherited))) <$> bs) = bs.
Proof.
  induction bs as [|b bs IH]; [done|]. rewrite fmap_cons.
  unfold buffersOf in *. cbn [flat_map]. by rewrite IH.
Qed.

Lemma buffersOf_unit srcOptions bs :
  buffersOf match bs with
            | [] => []
            | b :: rest => [Some (unitTree srcOptions (b :: rest))]
            end = bs.
Proof.
  destruct bs as [|b bs]; [done|]. unfold buffersOf, unitTree.
  cbn [flat_map from_option]. rewrite app_nil_r.
  by destruct (onlyLint srcOptions).
Qed.

Lemma outcomeOf_bufferOf srcOptions e :
  match outcomeOf X srcOptions e with
  | LoadFailed _ _ => bufferOf X e = None
  | LoadedBuffer b _ => bufferOf X e = Some b
  | LoadedTree t =>
      ∃ tree b, t = Some tree ∧ treeBuffers tree = [b]
                ∧ bufferOf X e = Some b
  end.
Proof.
  unfold outcomeOf, bufferOf.
  destruct (fsFiles X !! path e) as [text|]; [|done].
  destruct (negb (isLibraryFile e) && singleUnit srcOptions); [done|].
  destruct (librariesInheritMacros srcOptions); [done|].
  eexists _, _. split; [done|].
  by destruct (isLibraryFile e || onlyLint srcOptions).
Qed.

Lemma buffersOf_treeOrder srcOptions entries :
  buffersOf (treeOrder X srcOptions entries) ≡ₚ omap (bufferOf X) entries.
Proof.
  unfold treeOrder. cbn zeta.
  rewrite !buffersOf_app, buffersOf_deferred, buffersOf_unit.
  induction entries as [|e entries IH]; [done|].
  rewrite fmap_cons. unfold eagerTrees, singleBuffers, deferredBuffers in *.
  rewrite !omap_cons.
  pose proof (outcomeOf_bufferOf srcOptions e) as He.
  destruct (outcomeOf X srcOptions e) as [t|b [|]|e' c].
  - destruct He as (tree & b & -> & Hb & ->).
    unfold buffersOf in *. cbn [flat_map from_option]. rewrite Hb.
    cbn [app]. by rewrite IH.
  - rewrite He, <- IH, !app_assoc. symmetry. apply Permutation_middle.
  - rewrite He, <- IH. symmetry. apply Permutation_middle.
  - by rewrite He.
Qed.

End LoadSources.

(** X12: [loadSources] reads every file entry once, in the order of the
    entries: its result holds the buffers of the readable entries, each
    carrying the path and the library of its entry; each unreadable entry
    leaves one error, so that buffers and new errors together are as many
    as the entries; the registry is left as it was.  Parsing instead gives
    the same: when no entry trips the assertion and there is no search
    directory, the trees [loadAndParseSources] returns hold, between
    them, exactly these buffers, and the same errors are recorded. *)
Theorem loadSources_reads_each_entry (X : Externals) (s : SourceLoader) :
  (loadSources X s).1 = omap (bufferOf X) (fileEntries s)
  ∧ errors (loadSources X s).2
    = errors s ++ omap (readFailure X) (fileEntries s)
  ∧ length (loadSources X s).1
    + (length (errors (loadSources X s).2) - length (errors s))
    = length (fileEntries s)
  ∧ fileEntries (loadSources X s).2 = fileEntries s
  ∧ fileIndex (loadSources X s).2 = fileIndex s
  ∧ libraries (loadSources X s).2 = libraries s
  ∧ (∀ sched fuel srcOptions,
       fair sched →
       forallb (assertionHolds X srcOptions) (fileEntries s) = true →
       searchDirectories s = [] →
       ∃ trees s',
         loadAndParseSources X sched fuel srcOptions s = Done (trees, s')
         ∧ buffersOf trees ≡ₚ (loadSources X s).1
         ∧ errors s' = errors (loadSources X s).2).
Proof.
  unfold loadSources.
  destruct (loadSources_fold X (fileEntries s) [] s)
    as (H1 & H2 & H3 & H4 & H5 & _). cbn zeta in *.
  rewrite H1, H2. cbn [app]. split_and!; try done.
  - rewrite length_app.
    pose proof (length_read_or_failed X (fileEntries s)). lia.
  - intros sched fuel srcOptions Hfair Hassert Hdirs.
    unfold loadAndParseSources.
    rewrite parsePhase_closed, Hassert, Hdirs by done. rewrite !bind_Done.
    eexists _, _. split; [done|]. rewrite parsed_trees.
    split; [apply buffersOf_treeOrder|].
    cbn [errors leaveFrame]. rewrite parsed_errs. cbn [errs enterFrame].
    by rewrite failures_readFailure.
Qed.

Lemma loadSources_reads_each_entry_witness :
  ∃ trees s',
    loadAndParseSources demo reversed 0 plainOptions
      (addFiles demo "gone.v" (addFiles demo "top.v" freshLoader))
    = Done (trees, s')
    ∧ buffersOf trees
      ≡ₚ (loadSources demo
            (addFiles demo "gone.v" (addFiles demo "top.v" freshLoader))).1.
Proof.
  destruct (loadSources_reads_each_entry demo
              (addFiles demo "gone.v" (addFiles demo "top.v" freshLoader)))
    as (_ & _ & _ & _ & _ & _ & H).
  destruct (H reversed 0 plainOptions) as (trees & s' & Hrun & Hperm & _).
  - apply fair_reversed.
  - by vm_compute.
  - by vm_compute.
  - by exists trees, s'.
Defined.

(** ** Known and missing names *)

Lemma elem_of_foldl_insertNonEmpty names known x :
  x ∈ foldl insertNonEmpty known names ↔ x ∈ known ∨ (x ≠ "" ∧ x ∈ names).
Proof.
  revert known. induction names as [|n names IH]; intros known.
  { cbn. split; [by left|]. intros [H|[_ H]]; [done|by apply elem_of_nil in H]. }
  cbn [foldl]. rewrite IH, elem_of_cons. unfold insertNonEmpty, isEmpty.
  case_bool_decide as Hn.
  - subst n. naive_solver.
  - rewrite elem_of_union, elem_of_singleton. naive_solver.
Qed.

Lemma elem_of_foldl_plain (known : gset string) names
    (missing : gset string) x :
  x ∈ foldl (λ missing name,
               if bool_decide (name ∈ known) then missing
               else {[name]} ∪ missing) missing names
  ↔ x ∈ missing ∨ ((x ∉ known) ∧ x ∈ names).
Proof.
  revert missing. induction names as [|n names IH]; intros missing.
  { cbn. split; [by left|]. intros [H|[_ H]]; [done|by apply elem_of_nil in H]. }
  cbn [foldl]. rewrite IH, elem_of_cons. case_bool_decide as Hn.
  - naive_solver.
  - rewrite elem_of_union, elem_of_singleton. naive_solver.
Qed.

Lemma elem_of_foldl_guarded (known : gset string) names
    (missing : gset string) x :
  x ∈ foldl (λ missing name,
               if negb (isEmpty name) && negb (bool_decide (name ∈ known))
               then {[name]} ∪ missing else missing) missing names
  ↔ x ∈ missing ∨ ((x ∉ known) ∧ x ≠ "" ∧ x ∈ names).
Proof.
  revert missing. induction names as [|n names IH]; intros missing.
  { cbn. split; [by left|].
    intros [H|(_ & _ & H)]; [done|by apply elem_of_nil in H]. }
  cbn [foldl]. rewrite IH, elem_of_cons. unfold isEmpty.
  do 2 case_bool_decide; cbn [negb andb];
    rewrite ?elem_of_union, ?elem_of_singleton; naive_solver.
Qed.

Lemma elem_of_foldl_foldl_guarded (known : gset string) lists
    (missing : gset string) x :
  x ∈ foldl (foldl (λ missing name,
                      if negb (isEmpty name)
                         && negb (bool_decide (name ∈ known))
                      then {[name]} ∪ missing else missing)) missing lists
  ↔ x ∈ missing ∨ ((x ∉ known) ∧ x ≠ "" ∧ x ∈ concat lists).
Proof.
  revert missing. induction lists as [|l lists IH]; intros missing.
  { cbn. split; [by left|].
    intros [H|(_ & _ & H)]; [done|by apply elem_of_nil in H]. }
  cbn [foldl concat]. rewrite IH, elem_of_foldl_guarded, elem_of_app.
  naive_solver.
Qed.

(** X13: the two name sets of discovery.  [addKnownNames] adds to the known
    names exactly the non-empty names the tree declares; it never removes
    one and never adds the empty name.  [findMissingNames] adds to the
    missing names exactly the names the tree refers to that are not known:
    instance and interface port names as they are, the empty name
    included, and class scope and package import names when not empty.  A
    name it adds is never a known one. *)
Theorem name_sets_by_membership (X : Externals) (known missing : gset string)
    (tree : SyntaxTree) (x : string) :
  (x ∈ addKnownNames X known tree
   ↔ x ∈ known ∨ (x ≠ "" ∧ x ∈ declaredNames X tree))
  ∧ (x ∈ findMissingNames X known tree missing
     ↔ x ∈ missing
       ∨ ((x ∉ known)
          ∧ (x ∈ instanceNames X tree
             ∨ (x ≠ "" ∧ x ∈ scopeNames X tree))))
  ∧ known ⊆ addKnownNames X known tree
  ∧ missing ⊆ findMissingNames X known tree missing
  ∧ ("" ∈ addKnownNames X known tree → "" ∈ known)
  ∧ (x ∈ findMissingNames X known tree missing → x ∈ known → x ∈ missing).
Proof.
  assert (Hknown : ∀ y, y ∈ addKnownNames X known tree
                        ↔ y ∈ known ∨ (y ≠ "" ∧ y ∈ declaredNames X tree)).
  { intros y. unfold addKnownNames, declaredNames. cbn zeta.
    rewrite !elem_of_foldl_insertNonEmpty, elem_of_app. naive_solver. }
  assert (Hmissing : ∀ y, y ∈ findMissingNames X known tree missing
                          ↔ y ∈ missing
                            ∨ ((y ∉ known)
                               ∧ (y ∈ instanceNames X tree
                                  ∨ (y ≠ "" ∧ y ∈ scopeNames X tree)))).
  { intros y. unfold findMissingNames, instanceNames, scopeNames. cbn zeta.
    rewrite elem_of_foldl_plain, elem_of_foldl_foldl_guarded,
      elem_of_foldl_guarded, elem_of_foldl_plain, !elem_of_app.
    naive_solver. }
  split_and!.
  - apply Hknown.
  - apply Hmissing.
  - intros y Hy. apply Hknown. by left.
  - intros y Hy. apply Hmissing. by left.
  - intros H. apply Hknown in H. naive_solver.
  - intros H Hk. apply Hmissing in H. naive_solver.
Qed.

(** ** Discovery reads new files only *)

Section FreshReads.
Context (X : Externals).

Lemma readsFresh_refl fr : readsFresh X fr fr.
Proof.
  exists []. rewrite app_nil_r. split_and!; try done.
  - constructor.
  - intros p H. by apply elem_of_nil in H.
  - cbn. set_solver.
Qed.

Lemma pathsOf_app ts1 ts2 : pathsOf (ts1 ++ ts2) = pathsOf ts1 ++ pathsOf ts2.
Proof. unfold pathsOf. by rewrite buffersOf_app, fmap_app. Qed.

Lemma readsFresh_trans fr1 fr2 fr3 :
  readsFresh X fr1 fr2 → readsFresh X fr2 fr3 → readsFresh X fr1 fr3.
Proof.
  intros (new1 & Ht1 & Hn1 & Hf1 & Hc1) (new2 & Ht2 & Hn2 & Hf2 & Hc2).
  exists (new1 ++ new2). rewrite pathsOf_app. split_and!.
  - by rewrite Ht2, Ht1, app_assoc.
  - apply NoDup_app. split_and!; [done| |done].
    intros p Hp1 Hp2. apply Hf2 in Hp2 as [Hp2 _]. apply Hp2.
    rewrite Hc1. apply elem_of_union. right. by apply elem_of_list_to_set.
  - intros p [Hp|Hp]%elem_of_app; [by apply Hf1|].
    apply Hf2 in Hp as [Hp Hr]. split; [|done].
    intros Hc. apply Hp. rewrite Hc1. apply elem_of_union. by left.
  - rewrite Hc2, Hc1, list_to_set_app_L. set_solver.
Qed.

Lemma readsFresh_discoverName dirs exts fr name :
  readsFresh X fr (discoverName X dirs exts fr name).
Proof.
  destruct (discoverName_cases X dirs exts fr name)
    as [[_ ->]|(q & text & _ & Hc & Hr & ->)]; [apply readsFresh_refl|].
  eexists [_]. cbn zeta. cbn [syntaxTrees sm]. split; [done|].
  unfold pathsOf, buffersOf. cbn. split_and!.
  - apply NoDup_singleton.
  - intros p ->%list_elem_of_singleton. split; [done|by eexists].
  - set_solver.
Qed.

Lemma readsFresh_discoverNames dirs exts names fr :
  readsFresh X fr (foldl (discoverName X dirs exts) fr names).
Proof.
  revert fr. induction names as [|name names IH]; intros fr;
    [apply readsFresh_refl|].
  cbn [foldl]. eapply readsFresh_trans; [|apply IH].
  apply readsFresh_discoverName.
Qed.

Lemma readsFresh_discoverLoop fuel dirs exts fr missing fr' :
  discoverLoop X fuel dirs exts fr missing = Done fr' → readsFresh X fr fr'.
Proof.
  revert fr missing. induction fuel as [|fuel IH]; intros fr missing; [done|].
  cbn [discoverLoop]. unfold discoverRound.
  pose proof (readsFresh_discoverNames dirs exts (elements missing) fr) as Hg.
  case_bool_decide.
  - by intros [= <-].
  - intros Hloop. apply IH in Hloop.
    eapply readsFresh_trans; [exact Hg|]. exact Hloop.
Qed.

Lemma readsFresh_discover fuel dirs exts fr fr' :
  discover X fuel dirs exts fr = Done fr' → readsFresh X fr fr'.
Proof.
  unfold discover. intros H.
  apply bind_inv_Done in H as (known & _ & H).
  apply bind_inv_Done in H as (missing & _ & H).
  by apply readsFresh_discoverLoop in H.
Qed.

Lemma parsed_sm srcOptions entries s :
  sm (parsed X srcOptions entries (enterFrame s))
  = noteReads X (sourceManager s) (path <$> entries).
Proof.
  unfold parsed, withDeferred, parseSingleUnit, handled. cbn.
  by destruct (singleBuffers _).
Qed.

End FreshReads.

(** X14: discovery reads new files only.  Whenever [loadAndParseSources]
    returns, its tree list is the tree order of the parse phase followed
    by the trees of discovery, and these were read from readable files
    that are pairwise different, were not in the cache of the source
    manager before the call, and are not among the registered file
    entries: no file is loaded twice in one call.  The cache ends as the
    old cache, the readable registered files and the discovered files. *)
Theorem discovery_reads_new_files (X : Externals) (sched : Schedule)
    (fuel : nat) (srcOptions : SourceOptions) (s s' : SourceLoader)
    (trees : list TreePtr) :
  fair sched →
  loadAndParseSources X sched fuel srcOptions s = Done (trees, s') →
  ∃ new,
    trees = treeOrder X srcOptions (fileEntries s) ++ new
    ∧ NoDup (pathsOf new)
    ∧ (∀ p, p ∈ pathsOf new →
            (p ∉ cached (sourceManager s))
            ∧ (p ∉ path <$> fileEntries s)
            ∧ is_Some (fsFiles X !! p))
    ∧ cached (sourceManager s')
      = cached (noteReads X (sourceManager s) (path <$> fileEntries s))
        ∪ list_to_set (pathsOf new)
    ∧ (searchDirectories s = [] → new = []).
Proof.
  intros Hfair. unfold loadAndParseSources.
  rewrite parsePhase_closed by done.
  destruct (forallb _ _); [|done]. rewrite bind_Done.
  set (fr := parsed X srcOptions (fileEntries s) (enterFrame s)).
  assert (Hfresh : ∀ fr', readsFresh X fr fr' →
            ∃ new,
              syntaxTrees fr' = treeOrder X srcOptions (fileEntries s) ++ new
              ∧ NoDup (pathsOf new)
              ∧ (∀ p, p ∈ pathsOf new →
                      (p ∉ cached (sourceManager s))
                      ∧ (p ∉ path <$> fileEntries s)
                      ∧ is_Some (fsFiles X !! p))
              ∧ cached (sm fr')
                = cached (noteReads X (sourceManager s)
                            (path <$> fileEntries s))
                  ∪ list_to_set (pathsOf new)).
  { intros fr' (new & Ht & Hn & Hf & Hc). exists new.
    unfold fr in Ht, Hf, Hc. rewrite parsed_trees in Ht.
    rewrite parsed_sm in Hf, Hc. split_and!; try done.
    intros p Hp. destruct (Hf p Hp) as [Hnc Hr]. split_and!; [| |done].
    - intros Hold. apply Hnc. unfold noteReads. cbn. set_solver.
    - intros Hreg. apply Hnc. unfold noteReads. cbn.
      apply elem_of_union. left. apply elem_of_list_to_set.
      by apply list_elem_of_filter. }
  intros Hrun.
  assert (∃ fr', readsFresh X fr fr' ∧ trees = syntaxTrees fr'
                 ∧ s' = leaveFrame fr' s
                 ∧ (searchDirectories s = [] → fr' = fr))
    as (fr' & Hreads & -> & -> & Hsame).
  { destruct (searchDirectories s) as [|dir dirs] eqn:Hdirs.
    - rewrite !bind_Done in Hrun. exists fr.
      split; [apply readsFresh_refl|]. by inversion Hrun.
    - apply bind_inv_Done in Hrun as (fr' & Hd & Hrun). exists fr'.
      split; [by eapply readsFresh_discover|]. by inversion Hrun. }
  destruct (Hfresh fr' Hreads) as (new & Ht & Hn & Hf & Hc).
  exists new. split_and!; try done.
  intros Hdirs. rewrite (Hsame Hdirs) in Ht. unfold fr in Ht.
  rewrite parsed_trees in Ht.
  rewrite <- (app_nil_r (treeOrder X srcOptions (fileEntries s))) in Ht at 1.
  by apply app_inv_head in Ht.
Qed.

Lemma discovery_reads_new_files_witness :
  match loadAndParseSources demo reversed 5 plainOptions demoLoader with
  | Done (trees, s') =>
      ∃ new, trees = treeOrder demo plainOptions (fileEntries demoLoader) ++ new
             ∧ NoDup (pathsOf new)
  | Abort _ => False
  end.
Proof.
  destruct (loadAndParseSources demo reversed 5 plainOptions demoLoader)
    as [[trees s']|f] eqn:Hrun.
  - destruct (discovery_reads_new_files demo reversed 5 plainOptions
                demoLoader s' trees fair_reversed Hrun)
      as (new & Ht & Hn & _).
    exists new. split; [exact Ht|exact Hn].
  - vm_compute in Hrun. discriminate Hrun.
Defined.

(** ** The search for a missing name *)

Section MissingNames.
Context (X : Externals).

Lemma find_first {A} (f : A → bool) (before after : list A) (x : A) :
  (∀ y, y ∈ before → f y = false) → f x = true →
  find f (before ++ x :: after) = Some x.
Proof.
  intros Hbefore Hx. rewrite find_app, (find_none_iff f before Hbefore).
  cbn. by rewrite Hx.
Qed.

Lemma acceptable_false m p :
  p ∈ cached m ∨ fsFiles X !! p = None → acceptable X m p = false.
Proof.
  unfold acceptable, isCached. intros [Hc|Hr].
  - by rewrite bool_decide_eq_true_2.
  - rewrite (bool_decide_eq_false_2 (is_Some (fsFiles X !! p)));
      [by rewrite andb_false_r|].
    rewrite Hr. by intros [? ?].
Qed.

(** The body of the loop over the missing names, by the candidates of the
    name: the first one that is not cached and can be read is read, parsed
    and appended, and no other file is read; when there is none, nothing
    changes. *)
Lemma discoverName_found dirs exts fr name before q after text :
  candidatePaths X name dirs exts = before ++ q :: after →
  (∀ p, p ∈ before → p ∈ cached (sm fr) ∨ fsFiles X !! p = None) →
  q ∉ cached (sm fr) → fsFiles X !! q = Some text →
  syntaxTrees (discoverName X dirs exts fr name)
  = syntaxTrees fr
    ++ [Some {| treeBuffers := [{| bufPath := q; bufData := text;
                                   bufLibrary := None |}];
                treeInherited := inheritedMacros fr;
                isLibrary := true |}]
  ∧ cached (sm (discoverName X dirs exts fr name)) = {[q]} ∪ cached (sm fr)
  ∧ inheritedMacros (discoverName X dirs exts fr name) = inheritedMacros fr
  ∧ errs (discoverName X dirs exts fr name) = errs fr.
Proof.
  intros Hsplit Hbefore Hq Htext. unfold discoverName.
  rewrite searchDirs_first. unfold firstAcceptable.
  rewrite Hsplit, (find_first _ before after q).
  - unfold accept. rewrite Htext. done.
  - intros p Hp. by apply acceptable_false, Hbefore.
  - unfold acceptable, isCached. rewrite bool_decide_eq_false_2 by done.
    rewrite bool_decide_eq_true_2; [done|by eexists].
Qed.

Lemma discoverName_nothing dirs exts fr name :
  (∀ p, p ∈ candidatePaths X name dirs exts →
        p ∈ cached (sm fr) ∨ fsFiles X !! p = None) →
  discoverName X dirs exts fr name = fr.
Proof.
  intros Hnone. unfold discoverName.
  rewrite searchDirs_first. unfold firstAcceptable.
  rewrite find_none_iff; [apply set_sm_id|].
  intros p Hp. by apply acceptable_false, Hnone.
Qed.

(** Once a name has been searched for, its first readable candidate has
    been read, by this search or before. *)
Lemma discoverName_reads dirs exts fr name before q after text :
  candidatePaths X name dirs exts = before ++ q :: after →
  (∀ p, p ∈ before → fsFiles X !! p = None) →
  fsFiles X !! q = Some text →
  q ∈ cached (sm (discoverName X dirs exts fr name)).
Proof.
  intros Hsplit Hbefore Htext.
  destruct (decide (q ∈ cached (sm fr))) as [Hc|Hc].
  - destruct (readsFresh_discoverName X dirs exts fr name)
      as (new & _ & _ & _ & ->). set_solver.
  - destruct (discoverName_found dirs exts fr name before q after text)
      as (_ & -> & _); try done; [|set_solver].
    intros p Hp. right. by apply Hbefore.
Qed.

Lemma discoverNames_read dirs exts names fr name before q after text :
  name ∈ names →
  candidatePaths X name dirs exts = before ++ q :: after →
  (∀ p, p ∈ before → fsFiles X !! p = None) →
  fsFiles X !! q = Some text →
  q ∈ cached (sm (foldl (discoverName X dirs exts) fr names)).
Proof.
  intros Hin Hsplit Hbefore Htext. revert fr.
  induction names as [|n names IH]; intros fr; [by apply elem_of_nil in Hin|].
  cbn [foldl]. apply elem_of_cons in Hin as [<-|Hin]; [|by apply IH].
  destruct (readsFresh_discoverNames X dirs exts names
              (discoverName X dirs exts fr name)) as (new & _ & _ & _ & ->).
  apply elem_of_union. left. by eapply discoverName_reads.
Qed.

Lemma discoverLoop_reads fuel dirs exts fr missing fr' name before q after
    text :
  discoverLoop X fuel dirs exts fr missing = Done fr' →
  name ∈ missing →
  candidatePaths X name dirs exts = before ++ q :: after →
  (∀ p, p ∈ before → fsFiles X !! p = None) →
  fsFiles X !! q = Some text →
  q ∈ cached (sm fr').
Proof.
  destruct fuel as [|fuel]; [done|]. cbn [discoverLoop].
  intros Hloop Hin Hsplit Hbefore Htext.
  assert (Hround : q ∈ cached (sm (discoverRound X dirs exts fr missing))).
  { unfold discoverRound. eapply discoverNames_read; try done.
    by apply elem_of_elements. }
  case_bool_decide.
  - by injection Hloop as <-.
  - apply readsFresh_discoverLoop in Hloop as (new & _ & _ & _ & ->).
    cbn [sm set_nextMissingNames]. apply elem_of_union. by left.
Qed.

(** The two name sets [discover] starts from. *)
Lemma elem_of_addKnownNames known tree x :
  x ∈ addKnownNames X known tree
  ↔ x ∈ known ∨ (x ≠ "" ∧ x ∈ declaredNames X tree).
Proof.
  unfold addKnownNames, declaredNames. cbn zeta.
  rewrite !elem_of_foldl_insertNonEmpty, elem_of_app. naive_solver.
Qed.

Lemma elem_of_findMissingNames known tree missing x :
  x ∈ findMissingNames X known tree missing
  ↔ x ∈ missing
    ∨ ((x ∉ known)
       ∧ (x ∈ instanceNames X tree ∨ (x ≠ "" ∧ x ∈ scopeNames X tree))).
Proof.
  unfold findMissingNames, instanceNames, scopeNames. cbn zeta.
  rewrite elem_of_foldl_plain, elem_of_foldl_foldl_guarded,
    elem_of_foldl_guarded, elem_of_foldl_plain, !elem_of_app.
  naive_solver.
Qed.

Lemma known_declared trees known0 known x :
  foldC (λ known tree, t ← deref tree; Done (addKnownNames X known t))
        known0 trees = Done known →
  x ∈ known →
  x ∈ known0 ∨ ∃ t, Some t ∈ trees ∧ x ≠ "" ∧ x ∈ declaredNames X t.
Proof.
  revert known0. induction trees as [|[t|] trees IH]; intros known0.
  - intros [= <-]. by left.
  - cbn. intros Hfold Hx.
    destruct (IH _ Hfold Hx) as [H|(t' & Ht' & H)].
    + apply elem_of_addKnownNames in H as [H|[Hne H]]; [by left|].
      right. exists t. split; [apply list_elem_of_here|done].
    + right. exists t'. split; [by apply list_elem_of_further|done].
  - done.
Qed.

Lemma missing_referred trees known missing0 missing x t :
  foldC (λ missing tree, t ← deref tree;
                         Done (findMissingNames X known t missing))
        missing0 trees = Done missing →
  Some t ∈ trees → x ∉ known →
  x ∈ instanceNames X t ∨ (x ≠ "" ∧ x ∈ scopeNames X t) →
  x ∈ missing.
Proof.
  intros Hfold Ht Hx Href.
  assert (Hmono : ∀ trees m0 m, 
    foldC (λ missing tree, t ← deref tree;
                           Done (findMissingNames X known t missing))
          m0 trees = Done m → x ∈ m0 → x ∈ m).
  { clear. intros trees. induction trees as [|[t|] trees IH]; intros m0 m.
    - by intros [= <-].
    - cbn. intros Hfold Hx. eapply IH; [exact Hfold|].
      apply elem_of_findMissingNames. by left.
    - done. }
  revert missing0 Hfold. induction trees as [|[t'|] trees IH]; intros missing0.
  - by apply elem_of_nil in Ht.
  - cbn. intros Hfold. apply elem_of_cons in Ht as [[= <-]|Ht].
    + eapply Hmono; [exact Hfold|]. apply elem_of_findMissingNames. by right.
    + by eapply IH.
  - done.
Qed.

Lemma discovered_at inherited new q text :
  Forall (discovered X inherited) new → q ∈ pathsOf new →
  fsFiles X !! q = Some text →
  Some {| treeBuffers := [{| bufPath := q; bufData := text;
                             bufLibrary := None |}];
          treeInherited := inherited; isLibrary := true |} ∈ new.
Proof.
  intros Hall Hq Htext. induction Hall as [|t new Ht Hall IH].
  { by apply elem_of_nil in Hq. }
  change (pathsOf (t :: new)) with (pathsOf ([t] ++ new)) in Hq.
  rewrite pathsOf_app in Hq. apply elem_of_app in Hq as [Hq|Hq].
  - destruct Ht as (b & -> & Hlib & Hdata).
    unfold pathsOf, buffersOf in Hq. cbn in Hq.
    apply list_elem_of_singleton in Hq as ->.
    destruct b as [p d l]. cbn in *. subst l.
    rewrite Htext in Hdata. injection Hdata as ->. apply list_elem_of_here.
  - apply list_elem_of_further. by apply IH.
Qed.

End MissingNames.

(** C8: without search directories the call ends with the parse phase.
    The search for a name takes the first candidate path, in the order of
    the directories and within a directory of the extensions, that is not
    cached and can be read, and looks no further: that file is read,
    parsed under the inherited macros of the frame, marked as library and
    appended to the tree list, no other file is read for the name, and
    when no candidate qualifies nothing changes.  Every tree the call
    returns beyond those of the parse phase is one buffer read for no
    library, parsed under the inherited macros the parse phase ended with
    and marked as library.  For every name that a tree of the parse phase
    refers to and none declares, the first candidate that can be read is
    loaded, unless it was read before: its tree is in the list the call
    returns.  Directories and extensions are kept in the order of their
    registration. *)
Theorem discovery_search_order (X : Externals) (sched : Schedule)
    (fuel : nat) (srcOptions : SourceOptions) (s : SourceLoader) :
  (searchDirectories s = [] →
   loadAndParseSources X sched fuel srcOptions s
   = (fr ← parsePhase X sched srcOptions (fileEntries s) (enterFrame s);
      Done (syntaxTrees fr, leaveFrame fr s)))
  ∧ (∀ m name dirs exts,
       searchDirs X m name dirs exts
       = firstAcceptable X m (candidatePaths X name dirs exts))
  ∧ (∀ name dir dirs exts,
       candidatePaths X name (dir :: dirs) exts
       = extensionChain X (path_append X dir name) exts
         ++ candidatePaths X name dirs exts)
  ∧ (∀ dirs exts fr name before q after text,
       candidatePaths X name dirs exts = before ++ q :: after →
       (∀ p, p ∈ before → p ∈ cached (sm fr) ∨ fsFiles X !! p = None) →
       q ∉ cached (sm fr) → fsFiles X !! q = Some text →
       syntaxTrees (discoverName X dirs exts fr name)
       = syntaxTrees fr
         ++ [Some {| treeBuffers := [{| bufPath := q; bufData := text;
                                        bufLibrary := None |}];
                     treeInherited := inheritedMacros fr;
                     isLibrary := true |}]
       ∧ cached (sm (discoverName X dirs exts fr name))
         = {[q]} ∪ cached (sm fr))
  ∧ (∀ dirs exts fr name,
       (∀ p, p ∈ candidatePaths X name dirs exts →
             p ∈ cached (sm fr) ∨ fsFiles X !! p = None) →
       discoverName X dirs exts fr name = fr)
  ∧ (∀ trees s',
       loadAndParseSources X sched fuel srcOptions s = Done (trees, s') →
       ∃ fr new,
         parsePhase X sched srcOptions (fileEntries s) (enterFrame s) = Done fr
         ∧ trees = syntaxTrees fr ++ new
         ∧ Forall (discovered X (inheritedMacros fr)) new)
  ∧ (∀ fr trees s' t name before q after text,
       parsePhase X sched srcOptions (fileEntries s) (enterFrame s) = Done fr →
       loadAndParseSources X sched fuel srcOptions s = Done (trees, s') →
       searchDirectories s ≠ [] →
       Some t ∈ syntaxTrees fr →
       name ∈ instanceNames X t ∨ (name ≠ "" ∧ name ∈ scopeNames X t) →
       (∀ t', Some t' ∈ syntaxTrees fr → name ∈ declaredNames X t' →
              name = "") →
       candidatePaths X name (searchDirectories s) (searchExtensions s)
       = before ++ q :: after →
       (∀ p, p ∈ before → fsFiles X !! p = None) →
       fsFiles X !! q = Some text →
       q ∉ cached (sm fr) →
       Some {| treeBuffers := [{| bufPath := q; bufData := text;
                                  bufLibrary := None |}];
               treeInherited := inheritedMacros fr;
               isLibrary := true |} ∈ trees)
  ∧ (∀ dirs exts fr missing fr',
       discoverLoop X fuel dirs exts fr missing = Done fr' → grows X fr fr')
  ∧ (∀ pattern,
       failed (globEc (svGlob X "" pattern Directories false)) = false →
       searchDirectories (addSearchDirectories X pattern s)
       = searchDirectories s
         ++ globFiles (svGlob X "" pattern Directories false))
  ∧ (∀ extension,
       searchExtensions (addSearchExtension extension s)
       = if bool_decide (extension ∈ uniqueExtensions s)
         then searchExtensions s
         else searchExtensions s ++ [widen extension]).
Proof.
  split_and!.
  - intros Hdirs. unfold loadAndParseSources. rewrite Hdirs.
    by destruct (parsePhase _ _ _ _ _).
  - intros. apply searchDirs_first.
  - done.
  - intros dirs exts fr name before q after text Hsplit Hbefore Hq Htext.
    destruct (discoverName_found X dirs exts fr name before q after text)
      as (Ht & Hc & _); done.
  - intros dirs exts fr name. apply discoverName_nothing.
  - intros trees s' H. unfold loadAndParseSources in H.
    apply bind_inv_Done in H as (fr & Hparse & H).
    apply bind_inv_Done in H as (fr' & Hd & [= <- <-]).
    exists fr. destruct (searchDirectories s) as [|dir dirs].
    + injection Hd as <-. exists []. by rewrite app_nil_r.
    + apply discover_grows in Hd as (new & Ht & Hnew & _). by exists new.
  - intros fr trees s' t name before q after text Hparse Hrun Hdirs Ht Href
      Hundeclared Hsplit Hbefore Htext Hq.
    unfold loadAndParseSources in Hrun. rewrite Hparse, bind_Done in Hrun.
    destruct (searchDirectories s) as [|dir dirs] eqn:Hd; [done|].
    apply bind_inv_Done in Hrun as (fr' & Hdiscover & [= <- <-]).
    unfold discover in Hdiscover.
    apply bind_inv_Done in Hdiscover as (known & Hknown & Hdiscover).
    apply bind_inv_Done in Hdiscover as (missing & Hmissing & Hloop).
    assert (Hnotknown : name ∉ known).
    { intros Hk.
      destruct (known_declared X _ _ _ _ Hknown Hk)
        as [H|(t' & Ht' & Hne & Hdecl)]; [by apply elem_of_empty in H|].
      by apply Hne, (Hundeclared t'). }
    pose proof (missing_referred X _ _ _ _ _ _ Hmissing Ht Hnotknown Href)
      as Hin.
    pose proof (discoverLoop_reads X _ _ _ _ _ _ _ _ _ _ _ Hloop Hin Hsplit
                  Hbefore Htext) as Hread.
    destruct (readsFresh_discoverLoop X _ _ _ _ _ _ Hloop)
      as (new & Hnew & _ & _ & Hcached).
    destruct (discoverLoop_grows X _ _ _ _ _ _ Hloop)
      as (new' & Hnew' & Hall & _).
    cbn [syntaxTrees sm inheritedMacros set_nextMissingNames set_knownNames]
      in Hnew, Hnew', Hcached, Hall.
    rewrite Hnew in Hnew'. apply app_inv_head in Hnew' as <-.
    rewrite Hnew. apply elem_of_app. right.
    apply (discovered_at X _ _ q text Hall); [|done].
    rewrite Hcached in Hread. apply elem_of_union in Hread as [Hread|Hread];
      [done|]. by apply elem_of_list_to_set in Hread.
  - intros dirs exts fr missing fr'. apply discoverLoop_grows.
  - intros pattern Hok. unfold addSearchDirectories. by rewrite Hok.
  - intros extension. unfold addSearchExtension. by case_bool_decide.
Qed.

Lemma discovery_search_order_witness :
  searchDirectories demoLoader ≠ []
  ∧ match loadAndParseSources demo reversed 5 plainOptions demoLoader with
    | Done (trees, _) =>
        Some {| treeBuffers := [{| bufPath := "lib/leaf.sv";
                                   bufData := "module leaf; endmodule";
                                   bufLibrary := None |}];
                treeInherited := []; isLibrary := true |} ∈ trees
    | Abort _ => False
    end.
Proof.
  split; [done|].
  destruct (loadAndParseSources demo reversed 5 plainOptions demoLoader)
    as [[trees s']|f] eqn:Hrun; [|vm_compute in Hrun; discriminate Hrun].
  destruct (discovery_search_order demo reversed 5 plainOptions demoLoader)
    as (_ & _ & _ & _ & _ & _ & H & _).
  assert (Htrees :
    syntaxTrees (parsed demo plainOptions (fileEntries demoLoader)
                   (enterFrame demoLoader))
    = [Some {| treeBuffers :=
                 [{| bufPath := "top.v";
                     bufData := "module top; leaf l(); ghost g(); endmodule";
                     bufLibrary := None |}];
               treeInherited := []; isLibrary := false |};
       Some {| treeBuffers :=
                 [{| bufPath := "cell.v"; bufData := "module cell; endmodule";
                     bufLibrary := Some {| libName := "cells" |} |}];
               treeInherited := []; isLibrary := true |}])
    by (vm_compute; reflexivity).
  apply (H (parsed demo plainOptions (fileEntries demoLoader)
              (enterFrame demoLoader))
           trees s'
           {| treeBuffers :=
                [{| bufPath := "top.v";
                    bufData := "module top; leaf l(); ghost g(); endmodule";
                    bufLibrary := None |}];
              treeInherited := []; isLibrary := false |}
           "leaf" [] "lib/leaf.sv" ["lib/leaf.v"] "module leaf; endmodule").
  - rewrite parsePhase_closed by apply fair_reversed. reflexivity.
  - exact Hrun.
  - done.
  - rewrite Htrees. apply list_elem_of_here.
  - left. vm_compute. apply list_elem_of_here.
  - intros t' Ht' Hdecl. rewrite Htrees in Ht'.
    apply elem_of_cons in Ht' as [Ht'|Ht'].
    + injection Ht' as ->.
      change ("leaf" ∈ ["top"]) in Hdecl.
      apply list_elem_of_singleton in Hdecl. discriminate Hdecl.
    + apply list_elem_of_singleton in Ht'. injection Ht' as ->.
      change ("leaf" ∈ ["cell"]) in Hdecl.
      apply list_elem_of_singleton in Hdecl. discriminate Hdecl.
  - vm_compute. reflexivity.
  - intros p Hp. exact (False_ind _ (proj1 (elem_of_nil p) Hp)).
  - vm_compute. reflexivity.
  - apply (bool_decide_eq_false_1
             ("lib/leaf.sv"
              ∈ cached (sm (parsed demo plainOptions (fileEntries demoLoader)
                              (enterFrame demoLoader))))).
    vm_compute. reflexivity.
Defined.

(** ** The tree list, mode by mode *)

Section Modes.
Context (X : Externals).

Lemma assertionHolds_singleUnit srcOptions entries :
  singleUnit srcOptions = true →
  forallb (assertionHolds X srcOptions) entries = true.
Proof.
  intros Hsingle. apply forallb_forall. intros e _.
  unfold assertionHolds. rewrite Hsingle.
  destruct (fsFiles X !! path e); [|done].
  by destruct (isLibraryFile e), (librariesInheritMacros srcOptions).
Qed.

Lemma assertionHolds_eager srcOptions entries :
  librariesInheritMacros srcOptions = false →
  forallb (assertionHolds X srcOptions) entries = true.
Proof.
  intros Hinherit. apply forallb_forall. intros e _.
  unfold assertionHolds. rewrite Hinherit.
  destruct (fsFiles X !! path e); [|done].
  by destruct (isLibraryFile e), (singleUnit srcOptions).
Qed.

Lemma singleUnit_outcomes srcOptions entries :
  singleUnit srcOptions = true →
  singleBuffers (outcomeOf X srcOptions <$> entries) = directBuffers X entries
  ∧ eagerTrees (outcomeOf X srcOptions <$> entries)
    = (if librariesInheritMacros srcOptions then []
       else (λ b, Some (markLibrary (fromBuffer b [])))
            <$> libraryBuffers X entries)
  ∧ deferredBuffers (outcomeOf X srcOptions <$> entries)
    = (if librariesInheritMacros srcOptions then libraryBuffers X entries
       else []).
Proof.
  intros Hsingle. unfold directBuffers, libraryBuffers.
  induction entries as [|e entries (IH1 & IH2 & IH3)].
  { by destruct (librariesInheritMacros srcOptions). }
  rewrite fmap_cons, !filter_cons.
  unfold singleBuffers, eagerTrees, deferredBuffers in *.
  rewrite !omap_cons, IH1, IH2, IH3.
  assert (Hb : bufferOf X e
               = (λ text, {| bufPath := path e; bufData := text;
                             bufLibrary := library e |})
                 <$> fsFiles X !! path e) by done.
  unfold outcomeOf. rewrite Hsingle.
  destruct (isLibraryFile e) eqn:Hlib; cbn [negb andb orb].
  - rewrite (decide_False (P := true = false)) by done.
    rewrite (decide_True (P := true = true)) by done.
    rewrite omap_cons, !Hb.
    destruct (fsFiles X !! path e) as [text|];
      cbn [fmap option_fmap option_map];
      by destruct (librariesInheritMacros srcOptions).
  - rewrite (decide_True (P := false = false)) by done.
    rewrite (decide_False (P := false = true)) by done.
    rewrite omap_cons, !Hb.
    destruct (fsFiles X !! path e) as [text|];
      cbn [fmap option_fmap option_map];
      by destruct (librariesInheritMacros srcOptions).
Qed.

Lemma eager_outcomes srcOptions entries :
  singleUnit srcOptions = false → librariesInheritMacros srcOptions = false →
  singleBuffers (outcomeOf X srcOptions <$> entries) = []
  ∧ deferredBuffers (outcomeOf X srcOptions <$> entries) = []
  ∧ eagerTrees (outcomeOf X srcOptions <$> entries)
    = omap (λ e, (λ b, Some (ownTree srcOptions e b)) <$> bufferOf X e) entries.
Proof.
  intros Hsingle Hinherit.
  induction entries as [|e entries (IH1 & IH2 & IH3)]; [done|].
  rewrite fmap_cons. unfold singleBuffers, eagerTrees, deferredBuffers in *.
  rewrite !omap_cons, IH1, IH2, IH3.
  unfold outcomeOf, bufferOf, ownTree. rewrite Hsingle, Hinherit, andb_false_r.
  by destruct (fsFiles X !! path e).
Qed.

End Modes.

(** X15: the single-unit mode.  With [singleUnit] set no entry trips the
    assertion, whatever the other options, and the call returns when the
    fuel exceeds the number of readable files.  All readable direct files
    go into one tree, in the order of the file entries, and there is no
    such tree when there is none of them; each readable library file has
    a tree of its own, marked as library: before the unit tree, inheriting
    nothing, when libraries do not inherit macros, and after it,
    inheriting the macros the unit tree defines, when they do. *)
Theorem single_unit_tree_list (X : Externals) (sched : Schedule)
    (fuel : nat) (srcOptions : SourceOptions) (s : SourceLoader) :
  fair sched → singleUnit srcOptions = true →
  size (dom (fsFiles X)) < fuel →
  ∃ new s',
    loadAndParseSources X sched fuel srcOptions s
    = Done ((if librariesInheritMacros srcOptions then []
             else (λ b, Some (markLibrary (fromBuffer b [])))
                  <$> libraryBuffers X (fileEntries s))
            ++ match directBuffers X (fileEntries s) with
               | [] => []
               | b :: rest => [Some (unitTree srcOptions (b :: rest))]
               end
            ++ (if librariesInheritMacros srcOptions
                then (λ b, Some (markLibrary
                                   (fromBuffer b
                                      (finalMacros X srcOptions
                                         (directBuffers X (fileEntries s))))))
                     <$> libraryBuffers X (fileEntries s)
                else [])
            ++ new, s')
    ∧ (searchDirectories s = [] → new = []).
Proof.
  intros Hfair Hsingle Hfuel.
  destruct (loadAndParseSources_returns X sched fuel srcOptions s Hfair
              (assertionHolds_singleUnit X srcOptions _ Hsingle) Hfuel)
    as (new & s' & Hrun & _ & _ & Hnone).
  exists new, s'. split; [|done]. rewrite Hrun. unfold treeOrder. cbn zeta.
  destruct (singleUnit_outcomes X srcOptions (fileEntries s) Hsingle)
    as (-> & -> & ->).
  rewrite <- !app_assoc.
  by destruct (librariesInheritMacros srcOptions).
Qed.

Lemma single_unit_tree_list_witness :
  ∃ new s',
    loadAndParseSources demo reversed 5 unitOptions demoLoader
    = Done ((if librariesInheritMacros unitOptions then []
             else (λ b, Some (markLibrary (fromBuffer b [])))
                  <$> libraryBuffers demo (fileEntries demoLoader))
            ++ match directBuffers demo (fileEntries demoLoader) with
               | [] => []
               | b :: rest => [Some (unitTree unitOptions (b :: rest))]
               end
            ++ (if librariesInheritMacros unitOptions
                then (λ b, Some (markLibrary
                                   (fromBuffer b
                                      (finalMacros demo unitOptions
                                         (directBuffers demo
                                            (fileEntries demoLoader))))))
                     <$> libraryBuffers demo (fileEntries demoLoader)
                else [])
            ++ new, s')
    ∧ (searchDirectories demoLoader = [] → new = []).
Proof.
  apply (single_unit_tree_list demo reversed 5 unitOptions demoLoader).
  - apply fair_reversed.
  - reflexivity.
  - vm_compute. lia.
Defined.

(** X16: the default mode.  With neither [singleUnit] nor
    [librariesInheritMacros] no entry trips the assertion; every readable
    file entry has a tree of its own, in the order of the file entries,
    over the one buffer read for it, inheriting no macros, and marked as
    library exactly when the entry is a library file or [onlyLint] is
    set. *)
Theorem default_mode_tree_per_entry (X : Externals) (sched : Schedule)
    (fuel : nat) (srcOptions : SourceOptions) (s : SourceLoader) :
  fair sched → singleUnit srcOptions = false →
  librariesInheritMacros srcOptions = false →
  size (dom (fsFiles X)) < fuel →
  ∃ new s',
    loadAndParseSources X sched fuel srcOptions s
    = Done (omap (λ e, (λ b, Some (ownTree srcOptions e b)) <$> bufferOf X e)
              (fileEntries s) ++ new, s')
    ∧ Forall (discovered X []) new
    ∧ (searchDirectories s = [] → new = []).
Proof.
  intros Hfair Hsingle Hinherit Hfuel.
  destruct (loadAndParseSources_returns X sched fuel srcOptions s Hfair
              (assertionHolds_eager X srcOptions _ Hinherit) Hfuel)
    as (new & s' & Hrun & _ & Hnew & Hnone).
  exists new, s'. rewrite Hrun. unfold treeOrder. cbn zeta.
  destruct (eager_outcomes X srcOptions (fileEntries s) Hsingle Hinherit)
    as (H1 & H2 & H3).
  rewrite H1 in Hnew. rewrite H1, H2, H3. cbn [fmap list_fmap app].
  by rewrite app_nil_r.
Qed.

Lemma default_mode_tree_per_entry_witness :
  ∃ new s',
    loadAndParseSources demo reversed 5 plainOptions demoLoader
    = Done (omap (λ e, (λ b, Some (ownTree plainOptions e b))
                       <$> bufferOf demo e)
              (fileEntries demoLoader) ++ new, s')
    ∧ Forall (discovered demo []) new
    ∧ (searchDirectories demoLoader = [] → new = []).
Proof.
  apply (default_mode_tree_per_entry demo reversed 5 plainOptions demoLoader).
  - apply fair_reversed.
  - reflexivity.
  - reflexivity.
  - vm_compute. lia.
Defined.

(** ** What the returned trees are *)

Section ReturnedTrees.
Context (X : Externals).

(** Whatever the call returns is the tree order of the parse phase
    followed by trees of discovery. *)
Lemma loadAndParseSources_inv sched fuel srcOptions s trees s' :
  fair sched →
  loadAndParseSources X sched fuel srcOptions s = Done (trees, s') →
  ∃ new,
    trees = treeOrder X srcOptions (fileEntries s) ++ new
    ∧ Forall (discovered X
                (finalMacros X srcOptions
                   (singleBuffers (outcomeOf X srcOptions <$> fileEntries s))))
             new.
Proof.
  intros Hfair. unfold loadAndParseSources.
  rewrite parsePhase_closed by done.
  destruct (forallb _ _); [|done]. rewrite bind_Done.
  set (fr := parsed X srcOptions (fileEntries s) (enterFrame s)).
  intros Hrun.
  assert (∃ fr', grows X fr fr' ∧ trees = syntaxTrees fr')
    as (fr' & (new & Ht & Hnew & _) & ->).
  { destruct (searchDirectories s) as [|dir dirs].
    - rewrite !bind_Done in Hrun. exists fr.
      split; [apply grows_refl|]. by inversion Hrun.
    - apply bind_inv_Done in Hrun as (fr' & Hd & Hrun). exists fr'.
      split; [by eapply discover_grows|]. by inversion Hrun. }
  exists new. unfold fr in Ht, Hnew.
  rewrite parsed_trees in Ht. rewrite parsed_inherited in Hnew. done.
Qed.

Lemma elem_of_eagerTrees srcOptions entries t :
  t ∈ eagerTrees (outcomeOf X srcOptions <$> entries) →
  ∃ e b, e ∈ entries ∧ bufferOf X e = Some b
         ∧ singleUnit srcOptions && negb (isLibraryFile e) = false
         ∧ librariesInheritMacros srcOptions = false
         ∧ t = Some (ownTree srcOptions e b).
Proof.
  unfold eagerTrees. intros (r & Hr & Ht)%list_elem_of_omap.
  apply list_elem_of_fmap in Hr as (e & -> & He).
  exists e. unfold outcomeOf in Ht. unfold bufferOf, ownTree.
  destruct (fsFiles X !! path e) as [text|]; [|done].
  destruct (isLibraryFile e), (singleUnit srcOptions),
    (librariesInheritMacros srcOptions); cbn in Ht; try done;
    injection Ht as <-; eexists; by split_and!.
Qed.

Lemma elem_of_singleBuffers srcOptions entries b :
  b ∈ singleBuffers (outcomeOf X srcOptions <$> entries) →
  singleUnit srcOptions = true
  ∧ ∃ e, e ∈ entries ∧ isLibraryFile e = false ∧ bufferOf X e = Some b.
Proof.
  unfold singleBuffers. intros (r & Hr & Hb)%list_elem_of_omap.
  apply list_elem_of_fmap in Hr as (e & -> & He).
  unfold outcomeOf in Hb.
  assert (Hbuf : bufferOf X e
                 = (λ text, {| bufPath := path e; bufData := text;
                               bufLibrary := library e |})
                   <$> fsFiles X !! path e) by done.
  destruct (fsFiles X !! path e) as [text|]; [|done].
  destruct (isLibraryFile e) eqn:Hlib, (singleUnit srcOptions),
    (librariesInheritMacros srcOptions); cbn in Hb; try done;
    injection Hb as <-; (split; [done|]); by exists e.
Qed.

End ReturnedTrees.

(** X17: what the trees of a returned list are.  None of them is null.  A
    tree that is not marked as library exists only without [onlyLint],
    inherits no macros and holds buffers of direct file entries only, so
    that library files and discovered files are always marked.  A tree
    that inherits macros is marked as library, exists in single-unit mode
    only, and inherits exactly the macros defined by the unit tree of the
    direct files: without [singleUnit] nothing is inherited, whether or
    not libraries are to inherit macros. *)
Theorem returned_trees_flags (X : Externals) (sched : Schedule)
    (fuel : nat) (srcOptions : SourceOptions) (s s' : SourceLoader)
    (trees : list TreePtr) :
  fair sched →
  loadAndParseSources X sched fuel srcOptions s = Done (trees, s') →
  Forall (λ t,
    ∃ tree, t = Some tree
      ∧ (isLibrary tree = false →
         onlyLint srcOptions = false
         ∧ treeInherited tree = []
         ∧ Forall (λ b, ∃ e, e ∈ fileEntries s ∧ isLibraryFile e = false
                             ∧ bufferOf X e = Some b)
                  (treeBuffers tree))
      ∧ (treeInherited tree ≠ [] →
         isLibrary tree = true
         ∧ singleUnit srcOptions = true
         ∧ treeInherited tree
           = getDefinedMacros X
               (unitTree srcOptions (directBuffers X (fileEntries s)))))
    trees.
Proof.
  intros Hfair Hrun.
  destruct (loadAndParseSources_inv X sched fuel srcOptions s trees s'
              Hfair Hrun) as (new & -> & Hnew).
  set (rs := outcomeOf X srcOptions <$> fileEntries s) in *.
  assert (Hmacros : ∀ inherited,
            inherited = finalMacros X srcOptions (singleBuffers rs) →
            inherited ≠ [] →
            singleUnit srcOptions = true
            ∧ inherited
              = getDefinedMacros X
                  (unitTree srcOptions (directBuffers X (fileEntries s)))).
  { intros inherited -> Hne. unfold finalMacros in *.
    destruct (singleBuffers rs) as [|b bs] eqn:Hbs; [done|].
    assert (Hsingle : singleUnit srcOptions = true).
    { eapply (elem_of_singleBuffers X srcOptions (fileEntries s) b).
      fold rs. rewrite Hbs. apply list_elem_of_here. }
    split; [done|].
    destruct (singleUnit_outcomes X srcOptions (fileEntries s) Hsingle)
      as (Hdirect & _). fold rs in Hdirect. by rewrite <- Hdirect, Hbs. }
  unfold treeOrder. fold rs. cbn zeta. rewrite !Forall_app. split_and!.
  - apply Forall_forall. intros t Ht.
    apply elem_of_eagerTrees in Ht as (e & b & He & Hb & Hmode & _ & ->).
    eexists. split; [done|]. unfold ownTree.
    destruct (isLibraryFile e) eqn:Hlib, (onlyLint srcOptions) eqn:Hlint;
      cbn; split; try done.
    intros _. split_and!; try done.
    constructor; [|done]. by exists e.
  - destruct (singleBuffers rs) as [|b bs] eqn:Hbs; [done|].
    constructor; [|done]. eexists. split; [done|].
    unfold unitTree. destruct (onlyLint srcOptions); cbn; split; try done.
    intros _. split_and!; try done.
    apply Forall_forall. intros b' Hb'. rewrite <- Hbs in Hb'.
    by apply elem_of_singleBuffers in Hb' as [_ ?].
  - apply Forall_forall. intros t (b & -> & Hb)%list_elem_of_fmap.
    eexists. split; [done|]. cbn. split; [done|].
    intros Hne. split; [done|]. by apply Hmacros.
  - eapply Forall_impl; [exact Hnew|]. intros t (b & -> & _ & _).
    eexists. split; [done|]. cbn. split; [done|].
    intros Hne. split; [done|]. by apply Hmacros.
Qed.

Lemma returned_trees_flags_witness :
  match loadAndParseSources demo reversed 5 unitOptions demoLoader with
  | Done (trees, s') => Forall is_Some trees
  | Abort _ => False
  end.
Proof.
  destruct (loadAndParseSources demo reversed 5 unitOptions demoLoader)
    as [[trees s']|f] eqn:Hrun.
  - eapply Forall_impl.
    + exact (returned_trees_flags demo reversed 5 unitOptions demoLoader s'
               trees fair_reversed Hrun).
    + intros t (tree & -> & _). by eexists.
  - vm_compute in Hrun. discriminate Hrun.
Defined.

(** ** Macro inheritance without a single unit *)

Section InheritWithoutUnit.
Context (X : Externals).

Lemma discoverName_deferred dirs exts d fr name :
  discoverName X dirs exts (set_deferredLibBuffers d fr) name
  = set_deferredLibBuffers d (discoverName X dirs exts fr name).
Proof.
  unfold discoverName. cbn [sm set_deferredLibBuffers].
  by destruct (searchDirs X (sm fr) name dirs exts) as [m [b|]].
Qed.

Lemma discoverNames_deferred dirs exts d names fr :
  foldl (discoverName X dirs exts) (set_deferredLibBuffers d fr) names
  = set_deferredLibBuffers d (foldl (discoverName X dirs exts) fr names).
Proof.
  revert fr. induction names as [|name names IH]; intros fr; [done|].
  cbn [foldl]. by rewrite discoverName_deferred, IH.
Qed.

Lemma discoverLoop_deferred fuel dirs exts d fr missing :
  discoverLoop X fuel dirs exts (set_deferredLibBuffers d fr) missing
  = fr' ← discoverLoop X fuel dirs exts fr missing;
    Done (set_deferredLibBuffers d fr').
Proof.
  revert fr missing. induction fuel as [|fuel IH]; intros fr missing; [done|].
  cbn [discoverLoop]. unfold discoverRound. rewrite discoverNames_deferred.
  cbn [nextMissingNames set_deferredLibBuffers].
  case_bool_decide; [done|].
  apply (IH (set_nextMissingNames ∅ _)).
Qed.

Lemma discover_deferred fuel dirs exts d fr :
  discover X fuel dirs exts (set_deferredLibBuffers d fr)
  = fr' ← discover X fuel dirs exts fr;
    Done (set_deferredLibBuffers d fr').
Proof.
  unfold discover. cbn [syntaxTrees set_deferredLibBuffers].
  destruct (foldC _ ∅ (syntaxTrees fr)) as [known|f]; [|done].
  rewrite !bind_Done.
  destruct (foldC _ ∅ (syntaxTrees fr)) as [missing|f]; [|done].
  rewrite !bind_Done.
  apply (discoverLoop_deferred fuel dirs exts d
           (set_nextMissingNames ∅ (set_knownNames known fr))).
Qed.

Lemma deferred_outcomes srcOptions entries :
  singleUnit srcOptions = false →
  forallb (assertionHolds X (inheriting true srcOptions)) entries = true →
  singleBuffers (outcomeOf X (inheriting true srcOptions) <$> entries) = []
  ∧ eagerTrees (outcomeOf X (inheriting true srcOptions) <$> entries) = []
  ∧ ((λ b, Some (markLibrary (fromBuffer b [])))
     <$> deferredBuffers (outcomeOf X (inheriting true srcOptions) <$> entries))
    = eagerTrees (outcomeOf X (inheriting false srcOptions) <$> entries)
  ∧ failures (outcomeOf X (inheriting true srcOptions) <$> entries)
    = failures (outcomeOf X (inheriting false srcOptions) <$> entries)
  ∧ singleBuffers (outcomeOf X (inheriting false srcOptions) <$> entries) = []
  ∧ deferredBuffers (outcomeOf X (inheriting false srcOptions) <$> entries)
    = [].
Proof.
  intros Hsingle.
  induction entries as [|e entries IH]; [done|].
  cbn [forallb]. intros [He Hall]%andb_true_iff.
  destruct (IH Hall) as (IH1 & IH2 & IH3 & IH4 & IH5 & IH6).
  rewrite !fmap_cons.
  unfold singleBuffers, eagerTrees, deferredBuffers, failures in *.
  rewrite !omap_cons, IH1, IH2, IH4, IH5, IH6.
  unfold assertionHolds in He. unfold outcomeOf, inheriting in *.
  cbn [singleUnit librariesInheritMacros onlyLint] in *.
  rewrite Hsingle, !andb_false_r in *.
  destruct (fsFiles X !! path e) as [text|]; [|done].
  cbn in He. rewrite He. cbn [orb]. rewrite fmap_cons, IH3. done.
Qed.

End InheritWithoutUnit.

(** X18: without [singleUnit], [librariesInheritMacros] changes nothing
    but the assertion.  When every readable file entry is a library file,
    so that the assertion of [loadAndParse] holds, the call with the
    option set gives the same trees, in the same order, and the same
    loader as the call without it: the libraries are parsed later, but
    there is no unit tree whose macros they could inherit. *)
Theorem inherit_needs_single_unit (X : Externals) (sched : Schedule)
    (fuel : nat) (srcOptions : SourceOptions) (s : SourceLoader) :
  fair sched → singleUnit srcOptions = false →
  forallb (assertionHolds X (inheriting true srcOptions)) (fileEntries s)
  = true →
  loadAndParseSources X sched fuel (inheriting true srcOptions) s
  = loadAndParseSources X sched fuel (inheriting false srcOptions) s.
Proof.
  intros Hfair Hsingle Hassert. unfold loadAndParseSources.
  rewrite !parsePhase_closed, Hassert by done.
  rewrite (assertionHolds_eager X (inheriting false srcOptions)) by done.
  rewrite !bind_Done.
  destruct (deferred_outcomes X srcOptions (fileEntries s) Hsingle Hassert)
    as (H1 & H2 & H3 & H4 & H5 & H6).
  assert (Hframes :
    parsed X (inheriting false srcOptions) (fileEntries s) (enterFrame s)
    = set_deferredLibBuffers []
        (parsed X (inheriting true srcOptions) (fileEntries s) (enterFrame s))).
  { unfold parsed, withDeferred, handled. cbn zeta.
    cbn [singleUnitBuffers deferredLibBuffers syntaxTrees errs enterFrame
         app].
    rewrite H1, H2, H5, H6, <- H3, H4. cbn [parseSingleUnit].
    unfold parseDeferred. cbn. by rewrite app_nil_r. }
  rewrite Hframes.
  destruct (searchDirectories s) as [|dir dirs]; [done|].
  rewrite discover_deferred.
  by destruct (discover X fuel _ _ _).
Qed.

Lemma inherit_needs_single_unit_witness :
  loadAndParseSources demo reversed 5 (inheriting true plainOptions) cellsOnly
  = loadAndParseSources demo reversed 5 (inheriting false plainOptions)
      cellsOnly.
Proof.
  apply (inherit_needs_single_unit demo reversed 5 plainOptions cellsOnly).
  - apply fair_reversed.
  - reflexivity.
  - by vm_compute.
Defined.

(** * Parameter assignments *)

Import ParameterBuilder.

Lemma emplace_union {V} (key : string) (value : V) (m : gmap string V) :
  emplace key value m = m ∪ {[key := value]}.
Proof.
  unfold emplace. destruct (m !! key) as [v|] eqn:Hkey.
  - apply map_eq. intros k. rewrite lookup_union.
    destruct (decide (k = key)) as [->|Hne].
    + by rewrite Hkey, lookup_singleton_eq.
    + rewrite lookup_singleton_ne by done. by destruct (m !! k).
  - rewrite insert_union_singleton_r by done. done.
Qed.

Lemma foldl_emplace {V} (l : list (string * V)) (m : gmap string V) :
  foldl (λ m '(key, value), emplace key value m) m l = m ∪ list_to_map l.
Proof.
  revert m. induction l as [|[k v] l IH]; intros m.
  { cbn. by rewrite (right_id_L ∅ (∪)). }
  cbn [foldl]. rewrite IH, emplace_union, list_to_map_cons.
  rewrite <- (assoc_L (∪)). f_equal.
  by rewrite insert_union_singleton_l.
Qed.

Lemma uint32_small (z : Z) : (0 ≤ z < 2 ^ 32)%Z → uint32 z = z.
Proof. intros H. unfold uint32. by apply Z.mod_small. Qed.

Lemma uint32_nonneg (z : Z) : (0 ≤ uint32 z)%Z.
Proof. unfold uint32. apply Z.mod_pos_bound. lia. Qed.

(** The first loop over ordered assignments only. *)
Lemma collectParams_ordered os c :
  orderedAssignments c = true →
  orderedAssignments (collectParams (OrderedParamAssignment <$> os) c) = true
  ∧ orderedParams (collectParams (OrderedParamAssignment <$> os) c)
    = orderedParams c ++ os
  ∧ collectedDiags (collectParams (OrderedParamAssignment <$> os) c)
    = collectedDiags c.
Proof.
  revert c. induction os as [|o os IH]; intros c Hc.
  { cbn. by rewrite app_nil_r. }
  rewrite fmap_cons. cbn [collectParams isOrderedKind]. rewrite Hc.
  destruct (hasParamAssignments c); cbn [negb Bool.eqb].
  - destruct (IH (recordParam (OrderedParamAssignment o) c) Hc)
      as (H1 & H2 & H3).
    rewrite H1, H2, H3. cbn. by rewrite <- app_assoc.
  - destruct (IH (recordParam (OrderedParamAssignment o) (set_kind true c)))
      as (H1 & H2 & H3); [done|].
    rewrite H1, H2, H3. cbn. by rewrite <- app_assoc.
Qed.

(** The loop over the declarations for ordered assignments: from index
    [k] on, the declarations that are not local take the assignments in
    order. *)
Lemma assignOrdered_closed os decls (k : nat) assigned :
  k ≤ length os → (Z.of_nat (length os) < 2 ^ 32)%Z →
  assignOrdered os decls (Z.of_nat k) assigned
  = Done (Z.of_nat
            (Nat.min (k + length (filter (λ d, isLocalParam d = false) decls))
                     (length os)),
          foldl (λ m '(key, value), emplace key value m) assigned
            (zip (name <$> filter (λ d, isLocalParam d = false) decls)
                 (ordExpr <$> drop k os))).
Proof.
  intros Hk Hsize. revert k assigned Hk.
  induction decls as [|param decls IH]; intros k assigned Hk.
  { cbn. do 3 f_equal. lia. }
  cbn [assignOrdered]. rewrite filter_cons.
  destruct (Z.leb_spec (Z.of_nat (length os)) (Z.of_nat k)) as [Hge|Hlt].
  { assert (k = length os) as -> by lia. rewrite drop_all.
    rewrite fmap_nil, zip_with_nil_r. cbn [foldl]. do 3 f_equal. lia. }
  destruct (isLocalParam param) eqn:Hlocal.
  { rewrite decide_False by done. by apply IH. }
  rewrite decide_True by done. rewrite Nat2Z.id.
  destruct (os !! k) as [o|] eqn:Ho.
  2: { apply lookup_ge_None in Ho. lia. }
  rewrite uint32_small by lia.
  replace (Z.of_nat k + 1)%Z with (Z.of_nat (S k)) by lia.
  rewrite IH by lia.
  rewrite (drop_S os o k Ho). cbn [fmap list_fmap zip_with foldl length].
  do 3 f_equal. lia.
Qed.

(** X19: ordered assignments.  When all parameter assignments are ordered
    ones, the parameters that are not local take them in the order of
    their declaration; local parameters are passed over; a name that has
    an assignment already keeps it.  When there are more assignments than
    such parameters, exactly one diagnostic is added, at the first
    assignment left over, with the name of the definition, the number of
    assignments and the number of parameters that took one; otherwise no
    diagnostic is added. *)
Theorem ordered_assignments_in_order (b : Builder)
    (os : list OrderedParamAssignmentSyntax) :
  (Z.of_nat (length os) < 2 ^ 32)%Z →
  ∃ b',
    setAssignments b (OrderedParamAssignment <$> os) = Done b'
    ∧ assignments b'
      = assignments b
        ∪ list_to_map
            (zip (name <$> filter (λ d, isLocalParam d = false)
                             (parameterDecls b))
                 (ordExpr <$> os))
    ∧ diags b'
      = diags b
        ++ match os !! length (filter (λ d, isLocalParam d = false)
                                 (parameterDecls b)) with
           | Some o =>
               [tooManyDiag (definitionName b) (Z.of_nat (length os))
                  (Z.of_nat
                     (length (filter (λ d, isLocalParam d = false)
                                (parameterDecls b))))
                  o]
           | None => []
           end
    ∧ definitionName b' = definitionName b
    ∧ parameterDecls b' = parameterDecls b.
Proof.
  intros Hsize. unfold setAssignments. cbn zeta.
  match goal with
  | |- context [collectParams _ ?c0] =>
      destruct (collectParams_ordered os c0) as (H1 & H2 & H3); [done|]
  end.
  rewrite H1, H2, H3. cbn [orderedParams collectedDiags app].
  rewrite (assignOrdered_closed os (parameterDecls b) 0) by (done || lia).
  rewrite bind_Done. cbn [Nat.add drop]. rewrite foldl_emplace.
  set (n := length (filter (λ d, isLocalParam d = false) (parameterDecls b))).
  destruct (Z.ltb_spec (Z.of_nat (Nat.min n (length os)))
              (Z.of_nat (length os))) as [Hlt|Hge].
  - assert (Nat.min n (length os) = n) as -> by lia. rewrite Nat2Z.id.
    destruct (os !! n) as [o|] eqn:Ho.
    + eexists. split; [done|]. by split_and!.
    + apply lookup_ge_None in Ho. lia.
  - rewrite (proj2 (lookup_ge_None os n)) by lia.
    eexists. split; [done|]. cbn. rewrite app_nil_r. by split_and!.
Qed.

Lemma ordered_assignments_in_order_witness :
  ∃ b',
    setAssignments fifoBuilder (OrderedParamAssignment <$> threeOrdered)
    = Done b'
    ∧ assignments b' !! "DEPTH" = Some "16"
    ∧ length (diags b') = 1.
Proof.
  destruct (ordered_assignments_in_order fifoBuilder threeOrdered)
    as (b' & Hrun & Ha & Hd & _).
  - by vm_compute.
  - exists b'. split; [exact Hrun|]. rewrite Ha, Hd. by vm_compute.
Defined.

(** ** What [setAssignments] never does *)

Lemma emplace_subseteq {V} (key : string) (value : V) (m : gmap string V) :
  m ⊆ emplace key value m.
Proof.
  unfold emplace. destruct (m !! key) eqn:Hkey; [done|].
  by apply insert_subseteq.
Qed.

Lemma lookup_emplace_new {V} (key : string) (value : V) (m : gmap string V)
    x v :
  emplace key value m !! x = Some v → m !! x = None → x = key ∧ v = value.
Proof.
  unfold emplace. destruct (m !! key) eqn:Hkey.
  - intros H1 H2. congruence.
  - destruct (decide (x = key)) as [->|Hne].
    + rewrite lookup_insert_eq. by intros [= <-].
    + rewrite lookup_insert_ne by done. congruence.
Qed.

Lemma recordParam_inv paramBase c :
  collectedDiags c `prefix_of` collectedDiags (recordParam paramBase c)
  ∧ orderedAssignments (recordParam paramBase c) = orderedAssignments c
  ∧ hasParamAssignments (recordParam paramBase c) = hasParamAssignments c
  ∧ (∀ o, o ∈ orderedParams (recordParam paramBase c) →
          o ∈ orderedParams c ∨ paramBase = OrderedParamAssignment o)
  ∧ (∀ x nas u,
       namedParams (recordParam paramBase c) !! x = Some (nas, u) →
       namedParams c !! x = Some (nas, u)
       ∨ (paramBase = NamedParamAssignment nas ∧ nasName nas = x
          ∧ x ≠ "" ∧ u = false)).
Proof.
  destruct paramBase as [o|nas]; cbn [recordParam].
  - cbn. split_and!; try done.
    + intros o' [H|H]%elem_of_app; [by left|].
      apply list_elem_of_singleton in H as ->. by right.
    + intros x nas u H. by left.
  - unfold isEmpty. case_bool_decide as Hname.
    { split_and!; try done; intros; by left. }
    destruct (namedParams c !! nasName nas) as [[previous used]|] eqn:Hprev.
    + cbn. split_and!; try done; [by apply prefix_app_r| |]; intros; by left.
    + cbn. split_and!; try done; [intros; by left|].
      intros x nas' u. destruct (decide (x = nasName nas)) as [->|Hne].
      * rewrite lookup_insert_eq. intros [= <- <-]. by right.
      * rewrite lookup_insert_ne by done. by left.
Qed.

Lemma collectParams_inv parameters c :
  collectedDiags c `prefix_of` collectedDiags (collectParams parameters c)
  ∧ (∀ o, o ∈ orderedParams (collectParams parameters c) →
          o ∈ orderedParams c ∨ OrderedParamAssignment o ∈ parameters)
  ∧ (∀ x nas u,
       namedParams (collectParams parameters c) !! x = Some (nas, u) →
       namedParams c !! x = Some (nas, u)
       ∨ (NamedParamAssignment nas ∈ parameters ∧ nasName nas = x
          ∧ x ≠ "" ∧ u = false)).
Proof.
  revert c. induction parameters as [|p rest IH]; intros c.
  { cbn. split_and!; try done; intros; by left. }
  assert (Hstep : ∀ c1,
    collectedDiags c `prefix_of` collectedDiags c1 →
    orderedParams c1 = orderedParams c → namedParams c1 = namedParams c →
    collectedDiags c
      `prefix_of` collectedDiags (collectParams rest (recordParam p c1))
    ∧ (∀ o, o ∈ orderedParams (collectParams rest (recordParam p c1)) →
            o ∈ orderedParams c ∨ OrderedParamAssignment o ∈ p :: rest)
    ∧ (∀ x nas u,
         namedParams (collectParams rest (recordParam p c1)) !! x
         = Some (nas, u) →
         namedParams c !! x = Some (nas, u)
         ∨ (NamedParamAssignment nas ∈ p :: rest ∧ nasName nas = x
            ∧ x ≠ "" ∧ u = false))).
  { intros c1 Hd Ho Hn.
    destruct (recordParam_inv p c1) as (R1 & _ & _ & R2 & R3).
    destruct (IH (recordParam p c1)) as (I1 & I2 & I3).
    rewrite Ho in R2. rewrite Hn in R3. split_and!.
    - etrans; [exact Hd|]. by etrans.
    - intros o [H|H]%I2.
      + apply R2 in H as [H|H]; [by left|]. subst p. right.
        apply list_elem_of_here.
      + right. by apply list_elem_of_further.
    - intros x nas u [H|(H & ?)]%I3.
      + apply R3 in H as [H|(H & ?)]; [by left|]. subst p. right.
        split; [apply list_elem_of_here|done].
      + right. split; [by apply list_elem_of_further|done]. }
  cbn [collectParams]. destruct (hasParamAssignments c); cbn [negb].
  - destruct (Bool.eqb _ _); cbn [negb].
    + by apply Hstep.
    + cbn. split_and!; [by apply prefix_app_r| |]; intros; by left.
  - by apply Hstep.
Qed.

Lemma assignOrdered_safe os decls (i : Z) assigned :
  (0 ≤ i)%Z →
  ∃ i' assigned',
    assignOrdered os decls i assigned = Done (i', assigned')
    ∧ (0 ≤ i')%Z
    ∧ assigned ⊆ assigned'
    ∧ (∀ x e, assigned' !! x = Some e → assigned !! x = None →
         (∃ d, d ∈ decls ∧ name d = x ∧ isLocalParam d = false)
         ∧ ∃ o, o ∈ os ∧ ordExpr o = e).
Proof.
  revert i assigned. induction decls as [|param decls IH]; intros i assigned Hi.
  { exists i, assigned. split_and!; try done. congruence. }
  cbn [assignOrdered].
  destruct (Z.leb_spec (Z.of_nat (length os)) i) as [Hge|Hlt].
  { exists i, assigned. split_and!; try done. congruence. }
  destruct (isLocalParam param) eqn:Hlocal.
  { destruct (IH i assigned Hi) as (i' & a' & -> & Hi' & Hsub & Hnew).
    exists i', a'. split_and!; try done.
    intros x e Hx Hn. destruct (Hnew x e Hx Hn) as ((d & Hd & ?) & ?).
    split; [|done]. exists d. split; [by apply list_elem_of_further|done]. }
  destruct (os !! Z.to_nat i) as [o|] eqn:Ho.
  2: { apply lookup_ge_None in Ho. lia. }
  destruct (IH (uint32 (i + 1)) (emplace (name param) (ordExpr o) assigned)
              (uint32_nonneg _)) as (i' & a' & -> & Hi' & Hsub & Hnew).
  exists i', a'. split_and!; try done.
  - etrans; [apply emplace_subseteq|done].
  - intros x e Hx Hn.
    destruct (emplace (name param) (ordExpr o) assigned !! x) as [e'|] eqn:He.
    + assert (e' = e) as ->.
      { eapply lookup_weaken in He; [|exact Hsub]. congruence. }
      apply lookup_emplace_new in He as [-> ->]; [|done]. split.
      * exists param. split; [apply list_elem_of_here|done].
      * exists o. split; [|done]. by eapply list_elem_of_lookup_2.
    + destruct (Hnew x e Hx He) as ((d & Hd & ?) & ?). split; [|done].
      exists d. split; [by apply list_elem_of_further|done].
Qed.

Lemma assignNamed_inv st param :
  let st' := assignNamed st param in
  st.1.2 ⊆ st'.1.2
  ∧ st.2 `prefix_of` st'.2
  ∧ (∀ x, fst <$> st'.1.1 !! x = fst <$> st.1.1 !! x)
  ∧ (∀ x e, st'.1.2 !! x = Some e → st.1.2 !! x = None →
       x = name param ∧ isLocalParam param = false
       ∧ ∃ arg used, st.1.1 !! x = Some (arg, used) ∧ nasExpr arg = Some e).
Proof.
  destruct st as [[named assigned] ds]. cbn [assignNamed].
  destruct (named !! name param) as [[arg used]|] eqn:Harg.
  2: { cbn. split_and!; try done. congruence. }
  assert (Hfst : ∀ x, fst <$> <[name param := (arg, true)]> named !! x
                      = fst <$> named !! x).
  { intros x. destruct (decide (x = name param)) as [->|Hne].
    - by rewrite lookup_insert_eq, Harg.
    - by rewrite lookup_insert_ne. }
  destruct (isLocalParam param) eqn:Hlocal.
  { cbn. split_and!; try done; [by apply prefix_app_r|congruence]. }
  destruct (nasExpr arg) as [expr|] eqn:Hexpr.
  2: { cbn. split_and!; try done. congruence. }
  cbn. split_and!; try done; [apply emplace_subseteq|].
  intros x e Hx Hn. apply lookup_emplace_new in Hx as [-> ->]; [|done].
  split_and!; try done. by exists arg, used.
Qed.

Lemma foldl_assignNamed_inv decls st :
  let st' := foldl assignNamed st decls in
  st.1.2 ⊆ st'.1.2
  ∧ st.2 `prefix_of` st'.2
  ∧ (∀ x, fst <$> st'.1.1 !! x = fst <$> st.1.1 !! x)
  ∧ (∀ x e, st'.1.2 !! x = Some e → st.1.2 !! x = None →
       (∃ d, d ∈ decls ∧ name d = x ∧ isLocalParam d = false)
       ∧ ∃ arg used, st.1.1 !! x = Some (arg, used) ∧ nasExpr arg = Some e).
Proof.
  revert st. induction decls as [|param decls IH]; intros st.
  { cbn. split_and!; try done. congruence. }
  cbn [foldl]. destruct (assignNamed_inv st param) as (S1 & S2 & S3 & S4).
  destruct (IH (assignNamed st param)) as (I1 & I2 & I3 & I4).
  cbn zeta in *. split_and!.
  - by etrans.
  - by etrans.
  - intros x. by rewrite I3, S3.
  - intros x e Hx Hn.
    destruct ((assignNamed st param).1.2 !! x) as [e'|] eqn:He.
    + assert (e' = e) as ->.
      { eapply lookup_weaken in He; [|exact I1]. congruence. }
      destruct (S4 x e He Hn) as (-> & Hlocal & Harg). split; [|done].
      exists param. split; [apply list_elem_of_here|done].
    + destruct (I4 x e Hx He) as ((d & Hd & ?) & arg & used & Harg & Hexpr).
      split.
      * exists d. split; [by apply list_elem_of_further|done].
      * specialize (S3 x). rewrite Harg in S3. cbn in S3.
        destruct (st.1.1 !! x) as [[arg' used']|]; [|done].
        injection S3 as <-. by exists arg, used'.
Qed.

Lemma reportUnused_prefix definition named ds :
  ds `prefix_of` reportUnused definition named ds.
Proof.
  unfold reportUnused. generalize (map_to_list named). intros l.
  revert ds. induction l as [|[k [arg used]] l IH]; intros ds; [done|].
  cbn [foldl]. destruct used; [apply IH|].
  etrans; [|apply IH]. by apply prefix_app_r.
Qed.

(** X20: what [setAssignments] never does.  It returns for every list of
    parameter assignments: the index into the ordered assignments is never
    out of range.  It keeps the name of the definition and the
    declarations, removes no diagnostic and changes no assignment made
    before.  Whatever it assigns, it assigns to the name of a declared
    parameter that is not local, and the value is the expression of one of
    the given assignments, for a named one of an assignment of that
    name. *)
Theorem setAssignments_only_assigns_declared (b : Builder)
    (parameters : list ParamAssignmentSyntax) :
  ∃ b',
    setAssignments b parameters = Done b'
    ∧ definitionName b' = definitionName b
    ∧ parameterDecls b' = parameterDecls b
    ∧ diags b `prefix_of` diags b'
    ∧ assignments b ⊆ assignments b'
    ∧ (∀ x e, assignments b' !! x = Some e → assignments b !! x = None →
         (∃ d, d ∈ parameterDecls b ∧ name d = x ∧ isLocalParam d = false)
         ∧ ((∃ o, OrderedParamAssignment o ∈ parameters ∧ ordExpr o = e)
            ∨ (∃ nas, NamedParamAssignment nas ∈ parameters
                      ∧ nasName nas = x ∧ nasExpr nas = Some e))).
Proof.
  unfold setAssignments. cbn zeta.
  match goal with
  | |- context [collectParams _ ?c0] =>
      destruct (collectParams_inv parameters c0) as (C1 & C2 & C3);
      set (c := collectParams parameters c0) in *
  end.
  cbn [collectedDiags orderedParams namedParams] in C1, C2, C3.
  destruct (orderedAssignments c).
  - destruct (assignOrdered_safe (orderedParams c) (parameterDecls b) 0
                (assignments b)) as (i & a' & -> & Hi & Hsub & Hnew); [done|].
    rewrite bind_Done.
    assert (Hfinal : ∀ x e, a' !! x = Some e → assignments b !! x = None →
      (∃ d, d ∈ parameterDecls b ∧ name d = x ∧ isLocalParam d = false)
      ∧ ((∃ o, OrderedParamAssignment o ∈ parameters ∧ ordExpr o = e)
         ∨ (∃ nas, NamedParamAssignment nas ∈ parameters
                   ∧ nasName nas = x ∧ nasExpr nas = Some e))).
    { intros x e Hx Hn. destruct (Hnew x e Hx Hn) as (Hd & o & Ho & He).
      split; [done|]. left. exists o. split; [|done].
      apply C2 in Ho as [Ho|Ho]; [by apply elem_of_nil in Ho|done]. }
    destruct (Z.ltb_spec i (Z.of_nat (length (orderedParams c)))) as [Hlt|Hge].
    + destruct (orderedParams c !! Z.to_nat i) as [o|] eqn:Ho.
      2: { apply lookup_ge_None in Ho. lia. }
      eexists. split; [done|]. cbn. split_and!; try done.
      by apply prefix_app_r.
    + eexists. split; [done|]. cbn. by split_and!.
  - destruct (foldl_assignNamed_inv (parameterDecls b)
                (namedParams c, assignments b, collectedDiags c))
      as (N1 & N2 & N3 & N4). cbn zeta in *.
    destruct (foldl assignNamed _ _) as [[named assigned] ds].
    cbn [fst snd] in *.
    eexists. split; [done|]. cbn. split_and!; try done.
    + etrans; [exact C1|]. etrans; [exact N2|]. apply reportUnused_prefix.
    + intros x e Hx Hn.
      destruct (N4 x e Hx Hn) as (Hd & arg & used & Harg & Hexpr).
      split; [done|]. right. exists arg.
      apply C3 in Harg as [Harg|(Hin & Hname & _)]; [|done].
      by rewrite lookup_empty in Harg.
Qed.

(** ** Named assignments *)

Lemma set_kind_id c :
  hasParamAssignments c = true → orderedAssignments c = false →
  set_kind false c = c.
Proof. destruct c. cbn. by intros -> ->. Qed.

Lemma recordParam_named_flags nas c :
  hasParamAssignments (recordParam (NamedParamAssignment nas) c)
  = hasParamAssignments c
  ∧ orderedAssignments (recordParam (NamedParamAssignment nas) c)
    = orderedAssignments c.
Proof.
  cbn [recordParam]. destruct (isEmpty _); [done|].
  by destruct (namedParams c !! nasName nas) as [[previous used]|].
Qed.

Lemma collectParams_named ns c :
  hasParamAssignments c = true → orderedAssignments c = false →
  collectParams (NamedParamAssignment <$> ns) c
  = foldl (λ c nas, recordParam (NamedParamAssignment nas) c) c ns.
Proof.
  revert c. induction ns as [|nas ns IH]; intros c Hhas Hord; [done|].
  rewrite fmap_cons. cbn [collectParams isOrderedKind foldl].
  rewrite Hhas, Hord. cbn [negb Bool.eqb].
  destruct (recordParam_named_flags nas c) as [H1 H2].
  apply IH; congruence.
Qed.

Lemma foldl_record_flags ns c :
  orderedAssignments
    (foldl (λ c nas, recordParam (NamedParamAssignment nas) c) c ns)
  = orderedAssignments c.
Proof.
  revert c. induction ns as [|nas ns IH]; intros c; [done|].
  cbn [foldl]. rewrite IH. apply recordParam_named_flags.
Qed.

Lemma firstNamed_snoc ns nas x :
  firstNamed (ns ++ [nas]) x
  = match firstNamed ns x with
    | Some first => Some first
    | None => if bool_decide (nasName nas = x) then Some nas else None
    end.
Proof. unfold firstNamed. rewrite find_app. by destruct (find _ ns). Qed.

(** The named assignments collected: each name is kept with its first
    assignment, and every later assignment of the name is reported. *)
Lemma foldl_record_spec ns c :
  namedParams c = ∅ →
  (∀ x, namedParams
          (foldl (λ c nas, recordParam (NamedParamAssignment nas) c) c ns)
        !! x
        = if bool_decide (x = "") then None
          else (λ nas, (nas, false)) <$> firstNamed ns x)
  ∧ ∃ added,
      collectedDiags
        (foldl (λ c nas, recordParam (NamedParamAssignment nas) c) c ns)
      = collectedDiags c ++ added
      ∧ Forall (λ d, code d = DuplicateParamAssignment) added
      ∧ (∀ i nas previous,
           ns !! i = Some nas → nasName nas ≠ "" →
           firstNamed (take i ns) (nasName nas) = Some previous →
           duplicateDiag nas previous ∈ added).
Proof.
  intros Hempty. induction ns as [|nas ns (IHn & added & IHd & IHc & IHi)]
    using rev_ind.
  { split.
    - intros x. cbn. rewrite Hempty, lookup_empty. by case_bool_decide.
    - exists []. rewrite app_nil_r. split_and!; [done|constructor|].
      intros i nas previous H. by rewrite lookup_nil in H. }
  rewrite foldl_app. cbn [foldl].
  set (cn := foldl (λ c nas, recordParam (NamedParamAssignment nas) c) c ns)
    in *.
  cbn [recordParam]. unfold isEmpty.
  assert (Hold : ∀ i nas0 previous,
            (ns ++ [nas]) !! i = Some nas0 → i < length ns →
            nasName nas0 ≠ "" →
            firstNamed (take i (ns ++ [nas])) (nasName nas0) = Some previous →
            duplicateDiag nas0 previous ∈ added).
  { intros i nas0 previous Hi Hlt Hname Hfirst.
    rewrite lookup_app_l in Hi by done.
    rewrite take_app_le in Hfirst by lia. by eapply IHi. }
  case_bool_decide as Hname.
  { split.
    - intros x. rewrite IHn, firstNamed_snoc. case_bool_decide as Hx; [done|].
      destruct (firstNamed ns x); [done|].
      rewrite bool_decide_eq_false_2 by congruence. done.
    - exists added. split_and!; try done.
      intros i nas0 previous Hi Hn0 Hfirst.
      destruct (decide (i < length ns)) as [Hlt|Hge]; [by eapply Hold|].
      rewrite lookup_app_r in Hi by lia.
      apply list_lookup_singleton_Some in Hi as [_ <-]. done. }
  specialize (IHn (nasName nas)) as Hlook.
  rewrite bool_decide_eq_false_2 in Hlook by done.
  destruct (namedParams cn !! nasName nas) as [[previous used]|] eqn:Hprev.
  - destruct (firstNamed ns (nasName nas)) as [first|] eqn:Hfirst; [|done].
    injection Hlook as -> ->. split.
    + intros x. cbn [namedParams add_diag]. rewrite IHn, firstNamed_snoc.
      case_bool_decide as Hx; [done|].
      destruct (firstNamed ns x) eqn:Hfx; [done|].
      rewrite bool_decide_eq_false_2; [done|]. intros <-. congruence.
    + exists (added ++ [duplicateDiag nas first]).
      cbn [collectedDiags add_diag]. rewrite IHd, <- app_assoc.
      split_and!; [done| |].
      * apply Forall_app. split; [done|]. by constructor.
      * intros i nas0 previous Hi Hn0 Hf. apply elem_of_app.
        destruct (decide (i < length ns)) as [Hlt|Hge]; [left; by eapply Hold|].
        right. assert (i = length ns) as ->.
        { apply lookup_lt_Some in Hi. rewrite length_app in Hi. cbn in Hi. lia. }
        rewrite lookup_app_r in Hi by lia.
        rewrite Nat.sub_diag in Hi. injection Hi as <-.
        rewrite take_app_length in Hf. rewrite Hfirst in Hf.
        injection Hf as <-. apply list_elem_of_here.
  - destruct (firstNamed ns (nasName nas)) as [first|] eqn:Hfirst; [done|].
    split.
    + intros x. cbn [namedParams]. rewrite firstNamed_snoc.
      destruct (decide (x = nasName nas)) as [->|Hne].
      * rewrite lookup_insert_eq, Hfirst.
        rewrite bool_decide_eq_false_2 by done.
        by rewrite bool_decide_eq_true_2.
      * rewrite lookup_insert_ne by done. rewrite IHn.
        case_bool_decide; [done|]. destruct (firstNamed ns x); [done|].
        by rewrite bool_decide_eq_false_2.
    + exists added. cbn [collectedDiags]. split_and!; try done.
      intros i nas0 previous Hi Hn0 Hf.
      destruct (decide (i < length ns)) as [Hlt|Hge]; [by eapply Hold|].
      assert (i = length ns) as ->.
      { apply lookup_lt_Some in Hi. rewrite length_app in Hi. cbn in Hi. lia. }
      rewrite lookup_app_r in Hi by lia.
      rewrite Nat.sub_diag in Hi. injection Hi as <-.
      rewrite take_app_length in Hf. congruence.
Qed.

(** The loop over the declarations for named assignments. *)
Lemma foldl_assignNamed_complete decls named assigned ds x arg e :
  fst <$> named !! x = Some arg → nasExpr arg = Some e →
  assigned !! x = None →
  (∃ d, d ∈ decls ∧ name d = x ∧ isLocalParam d = false) →
  (foldl assignNamed (named, assigned, ds) decls).1.2 !! x = Some e.
Proof.
  revert named assigned ds.
  induction decls as [|param decls IH]; intros named assigned ds Harg He Hx
    (d & Hd & Hname & Hlocal).
  { by apply elem_of_nil in Hd. }
  cbn [foldl].
  destruct (assignNamed_inv (named, assigned, ds) param) as (_ & _ & S3 & S4).
  cbn zeta in S3, S4. cbn [fst snd] in S3, S4.
  destruct (decide (name param = x ∧ isLocalParam param = false))
    as [[Hp Hl]|Hother].
  - destruct (foldl_assignNamed_inv decls (assignNamed (named, assigned, ds) param))
      as (I1 & _). cbn zeta in I1.
    eapply lookup_weaken; [|exact I1].
    unfold assignNamed. rewrite Hp.
    destruct (named !! x) as [[arg' used]|]; [|done].
    injection Harg as ->. rewrite Hl, He. cbn [fst snd].
    unfold emplace. rewrite Hx. by rewrite lookup_insert_eq.
  - destruct (assignNamed (named, assigned, ds) param)
      as [[named1 assigned1] ds1] eqn:Hstep.
    cbn [fst snd] in S3, S4. apply IH.
    + by rewrite S3.
    + done.
    + destruct (assigned1 !! x) as [e'|] eqn:He'; [|done].
      destruct (S4 x e' He' Hx) as (-> & Hl & _). by destruct Hother.
    + apply elem_of_cons in Hd as [->|Hd]; [by destruct Hother|].
      by exists d.
Qed.

Lemma foldl_assignNamed_used decls named assigned ds x arg used :
  named !! x = Some (arg, used) →
  (foldl assignNamed (named, assigned, ds) decls).1.1 !! x
  = Some (arg, used || bool_decide (x ∈ name <$> decls)).
Proof.
  revert named assigned ds used.
  induction decls as [|param decls IH]; intros named assigned ds used Hx.
  { cbn. rewrite Hx, orb_false_r. done. }
  cbn [foldl]. rewrite fmap_cons.
  assert (∃ named1 assigned1 ds1,
            assignNamed (named, assigned, ds) param = (named1, assigned1, ds1)
            ∧ named1 !! x
              = Some (arg, used || bool_decide (x = name param)))
    as (named1 & assigned1 & ds1 & -> & Hx1).
  { unfold assignNamed.
    destruct (named !! name param) as [[arg' used']|] eqn:Hp.
    - destruct (decide (x = name param)) as [->|Hne].
      + rewrite Hx in Hp. injection Hp as <- <-.
        rewrite bool_decide_eq_true_2, orb_true_r by done.
        destruct (isLocalParam param); [|destruct (nasExpr arg)];
          eexists _, _, _; (split; [done|]); by rewrite lookup_insert_eq.
      + rewrite bool_decide_eq_false_2, orb_false_r by done.
        destruct (isLocalParam param); [|destruct (nasExpr arg')];
          eexists _, _, _; (split; [done|]); by rewrite lookup_insert_ne.
    - eexists _, _, _. split; [done|].
      rewrite bool_decide_eq_false_2, orb_false_r; [done|].
      intros ->. congruence. }
  rewrite (IH _ _ _ _ Hx1). do 2 f_equal. rewrite <- orb_assoc. f_equal.
  rewrite <- bool_decide_or. apply bool_decide_ext. by rewrite elem_of_cons.
Qed.

Lemma foldl_assignNamed_diags decls named assigned ds :
  ∃ added,
    (foldl assignNamed (named, assigned, ds) decls).2 = ds ++ added
    ∧ Forall (λ d, code d = AssignedToLocalPortParam
                   ∨ code d = AssignedToLocalBodyParam) added
    ∧ (∀ param arg, param ∈ decls → isLocalParam param = true →
         fst <$> named !! name param = Some arg →
         localDiag param arg ∈ added).
Proof.
  revert named assigned ds.
  induction decls as [|param decls IH]; intros named assigned ds.
  { exists []. rewrite app_nil_r. split_and!; [done|constructor|].
    intros param arg H. by apply elem_of_nil in H. }
  cbn [foldl].
  destruct (assignNamed_inv (named, assigned, ds) param) as (_ & _ & S3 & _).
  cbn zeta in S3. cbn [fst snd] in S3.
  assert (∃ first,
            (assignNamed (named, assigned, ds) param).2 = ds ++ first
            ∧ Forall (λ d, code d = AssignedToLocalPortParam
                           ∨ code d = AssignedToLocalBodyParam) first
            ∧ (∀ arg, isLocalParam param = true →
                 fst <$> named !! name param = Some arg →
                 localDiag param arg ∈ first))
    as (first & Hfirst & Hcodes & Hlocal).
  { unfold assignNamed.
    destruct (named !! name param) as [[arg used]|] eqn:Hp.
    - destruct (isLocalParam param) eqn:Hl.
      + exists [localDiag param arg]. split_and!; [done| |].
        * constructor; [|done]. unfold localDiag. cbn.
          destruct (isPortParam param); [by left|by right].
        * intros arg' _ [= <-]. apply list_elem_of_here.
      + exists []. rewrite app_nil_r.
        split_and!; [by destruct (nasExpr arg)|constructor|done].
    - exists []. rewrite app_nil_r. split_and!; [done|constructor|done]. }
  destruct (assignNamed (named, assigned, ds) param)
    as [[named1 assigned1] ds1] eqn:Hstep.
  cbn [fst snd] in *. subst ds1.
  destruct (IH named1 assigned1 (ds ++ first)) as (rest & -> & Hc & Hr).
  exists (first ++ rest). rewrite app_assoc. split_and!; [done| |].
  - by apply Forall_app.
  - intros p arg [->|Hin]%elem_of_cons Hl Harg; apply elem_of_app.
    + left. by apply Hlocal.
    + right. apply Hr; [done|done|]. by rewrite S3.
Qed.

Lemma reportUnused_spec definition named ds :
  ∃ added,
    reportUnused definition named ds = ds ++ added
    ∧ (∀ d, d ∈ added
            ↔ ∃ key arg, named !! key = Some (arg, false)
                         ∧ d = unknownDiag definition arg).
Proof.
  unfold reportUnused.
  assert (Hlist : ∀ l ds,
    ∃ added,
      foldl (λ ds '(_, (argSyntax, used)),
               if used : bool then ds
               else ds ++ [unknownDiag definition argSyntax])
            ds l
      = ds ++ added
      ∧ (∀ d, d ∈ added
              ↔ ∃ key arg,
                  (key, (arg, false)) ∈ (l : list (string * _))
                  ∧ d = unknownDiag definition arg)).
  { clear. intros l. induction l as [|[key [arg used]] l IH]; intros ds.
    { exists []. rewrite app_nil_r. split; [done|]. intros d. split.
      - intros H. by apply elem_of_nil in H.
      - intros (k & a & H & _). by apply elem_of_nil in H. }
    cbn [foldl]. destruct used.
    - destruct (IH ds) as (added & -> & Hadded). exists added.
      split; [done|]. intros d. rewrite Hadded. split.
      + intros (k & a & Hin & ->). exists k, a.
        split; [by apply list_elem_of_further|done].
      + intros (k & a & [Heq|Hin]%elem_of_cons & ->); [done|]. by exists k, a.
    - destruct (IH (ds ++ [unknownDiag definition arg]))
        as (added & -> & Hadded).
      exists (unknownDiag definition arg :: added).
      rewrite <- app_assoc. split; [done|]. intros d.
      rewrite elem_of_cons, Hadded. split.
      + intros [->|(k & a & Hin & ->)].
        * exists key, arg. split; [apply list_elem_of_here|done].
        * exists k, a. split; [by apply list_elem_of_further|done].
      + intros (k & a & [Heq|Hin]%elem_of_cons & ->).
        * injection Heq as -> ->. by left.
        * right. by exists k, a. }
  destruct (Hlist (map_to_list named) ds) as (added & -> & Hadded).
  exists added. split; [done|]. intros d. rewrite Hadded.
  split; intros (k & a & H & ->); exists k, a; (split; [|done]).
  - by apply elem_of_map_to_list in H.
  - by apply elem_of_map_to_list.
Qed.

(** X21: named assignments.  When all parameter assignments are named
    ones, a name gets as its value the expression of the first assignment
    of that name, provided a parameter of that name is declared that is
    not local, the assignment has an expression, and no assignment was
    made to the name before; and it gets no value otherwise.  The
    diagnostics added tell, for every name that is assigned and not
    declared, that the parameter does not exist, once and for that name
    only; for every local parameter with an assignment, that it was
    assigned to; and for every assignment after the first of a name, that
    it is a duplicate, with a note naming the first. *)
Theorem named_assignments_by_name (b : Builder)
    (ns : list NamedParamAssignmentSyntax) :
  ns ≠ [] →
  ∃ b' added,
    setAssignments b (NamedParamAssignment <$> ns) = Done b'
    ∧ diags b' = diags b ++ added
    ∧ (∀ x e,
         assignments b' !! x = Some e
         ↔ assignments b !! x = Some e
           ∨ (assignments b !! x = None ∧ x ≠ ""
              ∧ (∃ d, d ∈ parameterDecls b ∧ name d = x
                      ∧ isLocalParam d = false)
              ∧ ∃ nas, firstNamed ns x = Some nas ∧ nasExpr nas = Some e))
    ∧ (∀ d, d ∈ added → code d = ParameterDoesNotExist →
         ∃ nas, nasName nas ≠ ""
                ∧ firstNamed ns (nasName nas) = Some nas
                ∧ (∀ param, param ∈ parameterDecls b →
                            name param ≠ nasName nas)
                ∧ d = unknownDiag (definitionName b) nas)
    ∧ (∀ nas, nasName nas ≠ "" → firstNamed ns (nasName nas) = Some nas →
         (∀ param, param ∈ parameterDecls b → name param ≠ nasName nas) →
         unknownDiag (definitionName b) nas ∈ added)
    ∧ (∀ param nas, param ∈ parameterDecls b → isLocalParam param = true →
         name param ≠ "" → firstNamed ns (name param) = Some nas →
         localDiag param nas ∈ added)
    ∧ (∀ i nas previous,
         ns !! i = Some nas → nasName nas ≠ "" →
         firstNamed (take i ns) (nasName nas) = Some previous →
         duplicateDiag nas previous ∈ added).
Proof.
  intros Hne. destruct ns as [|nas0 rest]; [done|]. clear Hne.
  set (ns := nas0 :: rest).
  unfold setAssignments. cbn zeta.
  set (c0 := {| hasParamAssignments := false; orderedAssignments := true;
                orderedParams := []; namedParams := ∅;
                collectedDiags := diags b |}).
  assert (Hcollect : collectParams (NamedParamAssignment <$> ns) c0
            = foldl (λ c nas, recordParam (NamedParamAssignment nas) c)
                (set_kind false c0) ns).
  { unfold ns. rewrite fmap_cons. cbn [collectParams foldl].
    cbn [hasParamAssignments c0 negb isOrderedKind].
    destruct (recordParam_named_flags nas0 (set_kind false c0)) as [H1 H2].
    by apply collectParams_named. }
  rewrite Hcollect. rewrite foldl_record_flags. cbn [orderedAssignments set_kind].
  destruct (foldl_record_spec ns (set_kind false c0))
    as (Hnamed & dups & Hdups & Hdupcodes & Hdupall); [done|].
  set (c := foldl (λ c nas, recordParam (NamedParamAssignment nas) c)
              (set_kind false c0) ns) in *.
  cbn [collectedDiags set_kind c0] in Hdups.
  destruct (foldl_assignNamed_inv (parameterDecls b)
              (namedParams c, assignments b, collectedDiags c))
    as (N1 & _ & N3 & N4).
  destruct (foldl_assignNamed_diags (parameterDecls b) (namedParams c)
              (assignments b) (collectedDiags c))
    as (locals & Hlocals & Hlocalcodes & Hlocalall).
  pose proof (foldl_assignNamed_complete (parameterDecls b) (namedParams c)
                (assignments b) (collectedDiags c)) as Hcomplete.
  pose proof (foldl_assignNamed_used (parameterDecls b) (namedParams c)
                (assignments b) (collectedDiags c)) as Hused.
  cbn zeta in *.
  destruct (foldl assignNamed _ _) as [[named assigned] ds].
  cbn [fst snd] in *.
  destruct (reportUnused_spec (definitionName b) named ds)
    as (unknown & Hreport & Hunknown).
  eexists _, (dups ++ locals ++ unknown). split; [done|].
  cbn [diags assignments].
  assert (Hfirst : ∀ x nas, x ≠ "" → firstNamed ns x = Some nas →
            namedParams c !! x = Some (nas, false)).
  { intros x nas Hx Hf. rewrite Hnamed, bool_decide_eq_false_2 by done.
    by rewrite Hf. }
  assert (Hkeys : ∀ x nas used, namedParams c !! x = Some (nas, used) →
            x ≠ "" ∧ firstNamed ns x = Some nas ∧ nasName nas = x).
  { intros x nas used. rewrite Hnamed. case_bool_decide; [done|].
    destruct (firstNamed ns x) as [first|] eqn:Hf; [|done].
    intros [= <- <-]. split_and!; try done.
    unfold firstNamed in Hf. apply find_some in Hf as [_ Hf].
    by apply bool_decide_eq_true in Hf. }
  split_and!.
  - rewrite Hreport, Hlocals, Hdups. by rewrite <- !app_assoc.
  - intros x e. split.
    + intros Hx. destruct (assignments b !! x) as [e'|] eqn:Hb.
      * left. eapply lookup_weaken in Hb; [|exact N1]. congruence.
      * right. destruct (N4 x e Hx Hb) as (Hd & arg & used & Harg & Hexpr).
        apply Hkeys in Harg as (? & ? & ?). split_and!; try done.
        by exists arg.
    + intros [Hx|(Hx & Hne & Hd & nas & Hf & Hexpr)].
      * by eapply lookup_weaken.
      * eapply Hcomplete; try done. by rewrite (Hfirst x nas).
  - intros d [Hd|[Hd|Hd]%elem_of_app]%elem_of_app Hcode.
    + rewrite Forall_forall in Hdupcodes. apply Hdupcodes in Hd. congruence.
    + rewrite Forall_forall in Hlocalcodes.
      apply Hlocalcodes in Hd as [Hd|Hd]; congruence.
    + apply Hunknown in Hd as (key & arg & Harg & ->).
      assert (∃ used, namedParams c !! key = Some (arg, used)) as [used Hc].
      { specialize (N3 key). rewrite Harg in N3.
        destruct (namedParams c !! key) as [[arg' used]|]; [|done].
        cbn in N3. injection N3 as <-. by exists used. }
      destruct (Hkeys key arg used Hc) as (Hk & Hf & Hn). subst key.
      exists arg. split_and!; try done.
      intros param Hp Heq.
      rewrite (Hused (nasName arg) arg used Hc) in Harg.
      injection Harg as Hfalse. apply orb_false_iff in Hfalse as [_ Hfalse].
      apply bool_decide_eq_false in Hfalse. apply Hfalse.
      apply list_elem_of_fmap. by exists param.
  - intros nas Hn Hf Hnone. apply elem_of_app. right. apply elem_of_app. right.
    apply Hunknown. exists (nasName nas), nas. split; [|done].
    rewrite (Hused (nasName nas) nas false (Hfirst _ _ Hn Hf)).
    rewrite bool_decide_eq_false_2; [done|].
    intros (param & Heq & Hp)%list_elem_of_fmap. by eapply Hnone.
  - intros param nas Hp Hl Hn Hf. apply elem_of_app. right.
    apply elem_of_app. left. apply Hlocalall; [done|done|].
    by rewrite (Hfirst _ _ Hn Hf).
  - intros i nas previous Hi Hn Hf. apply elem_of_app. left.
    by eapply Hdupall.
Qed.

Lemma named_assignments_by_name_witness :
  ∃ b' added,
    setAssignments fifoBuilder (NamedParamAssignment <$> threeNamed) = Done b'
    ∧ diags b' = diags fifoBuilder ++ added
    ∧ assignments b' !! "DEPTH" = Some "16"
    ∧ length added = 2.
Proof.
  destruct (named_assignments_by_name fifoBuilder threeNamed)
    as (b' & added & Hrun & Hd & Ha & _).
  - done.
  - exists b', added. split; [exact Hrun|]. split; [exact Hd|]. split.
    + apply Ha. right. split_and!; [done|done| |].
      * eexists. split; [apply list_elem_of_further, list_elem_of_further,
                         list_elem_of_here|done].
      * eexists. split; reflexivity.
    + vm_compute in Hrun. injection Hrun as <-. vm_compute in Hd.
      by rewrite <- Hd.
Defined.

(** ** Mixing ordered and named assignments *)

Lemma collectParams_mixing same other rest c :
  hasParamAssignments c = true →
  Forall (λ p, isOrderedKind p = orderedAssignments c) same →
  isOrderedKind other ≠ orderedAssignments c →
  collectParams (same ++ other :: rest) c
  = add_diag (mixingDiag other) (collectParams same c).
Proof.
  intros Hhas Hsame Hother. revert c Hhas Hsame Hother.
  induction same as [|p same IH]; intros c Hhas Hsame Hother.
  { cbn [app collectParams]. rewrite Hhas. cbn [negb].
    destruct (isOrderedKind other), (orderedAssignments c); done. }
  apply Forall_cons in Hsame as [Hp Hsame].
  cbn [app collectParams]. rewrite Hhas, Hp. cbn [negb].
  rewrite eqb_reflx. cbn [negb].
  destruct (recordParam_inv p c) as (_ & Hord & Hhas' & _).
  apply IH; rewrite ?Hord, ?Hhas'; done.
Qed.

Lemma assignNamed_diags_apart named assigned ds param :
  assignNamed (named, assigned, ds) param
  = ((assignNamed (named, assigned, []) param).1,
     ds ++ (assignNamed (named, assigned, []) param).2).
Proof.
  unfold assignNamed.
  destruct (named !! name param) as [[arg used]|];
    [|by rewrite app_nil_r].
  destruct (isLocalParam param); [done|].
  destruct (nasExpr arg); by rewrite app_nil_r.
Qed.

Lemma foldl_assignNamed_diags_apart decls named assigned ds :
  foldl assignNamed (named, assigned, ds) decls
  = ((foldl assignNamed (named, assigned, []) decls).1,
     ds ++ (foldl assignNamed (named, assigned, []) decls).2).
Proof.
  revert named assigned ds.
  induction decls as [|param decls IH]; intros named assigned ds.
  { cbn. by rewrite app_nil_r. }
  cbn [foldl]. rewrite (assignNamed_diags_apart named assigned ds).
  destruct (assignNamed (named, assigned, []) param)
    as [[named1 assigned1] ds1]. cbn [fst snd].
  rewrite (IH named1 assigned1 (ds ++ ds1)), (IH named1 assigned1 ds1).
  cbn [fst snd]. by rewrite app_assoc.
Qed.

Lemma reportUnused_apart definition named ds :
  reportUnused definition named ds = ds ++ reportUnused definition named [].
Proof.
  unfold reportUnused. generalize (map_to_list named). intros l.
  assert (H : ∀ ds1 ds2,
    foldl (λ ds '(_, (argSyntax, used)),
             if used : bool then ds
             else ds ++ [unknownDiag definition argSyntax])
          (ds1 ++ ds2) l
    = ds1 ++ foldl (λ ds '(_, (argSyntax, used)),
                      if used : bool then ds
                      else ds ++ [unknownDiag definition argSyntax])
                   ds2 (l : list (string * (NamedParamAssignmentSyntax * bool)))).
  { induction l as [|[key [arg used]] l IH]; intros ds1 ds2; [done|].
    cbn [foldl]. destruct used; [apply IH|].
    rewrite <- app_assoc. apply IH. }
  rewrite <- (H ds []). by rewrite app_nil_r.
Qed.

(** X22: mixing the two kinds of assignment.  At the first assignment
    whose kind differs from that of the first one, [setAssignments] adds
    one diagnostic at that assignment and looks no further: the
    assignments after it have no effect at all, and the values assigned
    are those of the assignments before it alone.  The other diagnostics
    are those of the assignments before it, the ones of the first loop
    ahead of the new diagnostic and the others behind it. *)
Theorem mixed_assignments_stop_at_first (b : Builder)
    (first other : ParamAssignmentSyntax)
    (same rest : list ParamAssignmentSyntax) :
  Forall (λ p, isOrderedKind p = isOrderedKind first) same →
  isOrderedKind other ≠ isOrderedKind first →
  ∃ b1 b2 early late,
    setAssignments b (first :: same ++ other :: rest) = Done b1
    ∧ setAssignments b (first :: same) = Done b2
    ∧ assignments b1 = assignments b2
    ∧ diags b2 = early ++ late
    ∧ diags b1 = early ++ mixingDiag other :: late
    ∧ (∀ rest',
         setAssignments b (first :: same ++ other :: rest') = Done b1).
Proof.
  intros Hsame Hother.
  set (c0 := {| hasParamAssignments := false; orderedAssignments := true;
                orderedParams := []; namedParams := ∅;
                collectedDiags := diags b |}).
  set (c1 := recordParam first (set_kind (isOrderedKind first) c0)).
  assert (Hc1 : hasParamAssignments c1 = true
                ∧ orderedAssignments c1 = isOrderedKind first).
  { destruct (recordParam_inv first (set_kind (isOrderedKind first) c0))
      as (_ & Hord & Hhas & _). by split. }
  destruct Hc1 as [Hhas Hord].
  assert (Hmix : ∀ rest',
    collectParams (first :: same ++ other :: rest') c0
    = add_diag (mixingDiag other) (collectParams (first :: same) c0)).
  { intros rest'. cbn [collectParams hasParamAssignments c0 negb].
    fold c1. apply collectParams_mixing; by rewrite ?Hord. }
  set (c := collectParams (first :: same) c0) in *.
  assert (Hrun : ∀ rest',
    setAssignments b (first :: same ++ other :: rest')
    = (if orderedAssignments c then
         '(orderedIndex, assigned) ←
           assignOrdered (orderedParams c) (parameterDecls b) 0
             (assignments b);
         if (orderedIndex <? Z.of_nat (length (orderedParams c)))%Z then
           match orderedParams c !! Z.to_nat orderedIndex with
           | Some o =>
               Done {| definitionName := definitionName b;
                       parameterDecls := parameterDecls b;
                       assignments := assigned;
                       diags := (collectedDiags c ++ [mixingDiag other])
                                ++ [tooManyDiag (definitionName b)
                                      (Z.of_nat (length (orderedParams c)))
                                      orderedIndex o] |}
           | None => Abort OutOfRange
           end
         else
           Done {| definitionName := definitionName b;
                   parameterDecls := parameterDecls b;
                   assignments := assigned;
                   diags := collectedDiags c ++ [mixingDiag other] |}
       else
         let '(named, assigned, ds) :=
           foldl assignNamed
             (namedParams c, assignments b,
              collectedDiags c ++ [mixingDiag other])
             (parameterDecls b) in
         Done {| definitionName := definitionName b;
                 parameterDecls := parameterDecls b;
                 assignments := assigned;
                 diags := reportUnused (definitionName b) named ds |})).
  { intros rest'. unfold setAssignments. cbn zeta. fold c0.
    by rewrite (Hmix rest'). }
  assert (Hplain : setAssignments b (first :: same)
    = (if orderedAssignments c then
         '(orderedIndex, assigned) ←
           assignOrdered (orderedParams c) (parameterDecls b) 0
             (assignments b);
         if (orderedIndex <? Z.of_nat (length (orderedParams c)))%Z then
           match orderedParams c !! Z.to_nat orderedIndex with
           | Some o =>
               Done {| definitionName := definitionName b;
                       parameterDecls := parameterDecls b;
                       assignments := assigned;
                       diags := collectedDiags c
                                ++ [tooManyDiag (definitionName b)
                                      (Z.of_nat (length (orderedParams c)))
                                      orderedIndex o] |}
           | None => Abort OutOfRange
           end
         else
           Done {| definitionName := definitionName b;
                   parameterDecls := parameterDecls b;
                   assignments := assigned;
                   diags := collectedDiags c |}
       else
         let '(named, assigned, ds) :=
           foldl assignNamed
             (namedParams c, assignments b, collectedDiags c)
             (parameterDecls b) in
         Done {| definitionName := definitionName b;
                 parameterDecls := parameterDecls b;
                 assignments := assigned;
                 diags := reportUnused (definitionName b) named ds |})).
  { done. }
  rewrite Hplain.
  assert (∃ b1 b2 early late,
            setAssignments b (first :: same ++ other :: []) = Done b1
            ∧ setAssignments b (first :: same) = Done b2
            ∧ assignments b1 = assignments b2
            ∧ diags b2 = early ++ late
            ∧ diags b1 = early ++ mixingDiag other :: late)
    as (b1 & b2 & early & late & H1 & H2 & H3 & H4 & H5).
  { rewrite Hplain, (Hrun []). destruct (orderedAssignments c).
    - destruct (assignOrdered_safe (orderedParams c) (parameterDecls b) 0
                  (assignments b)) as (i & a' & -> & Hi & _); [done|].
      rewrite !bind_Done.
      destruct (Z.ltb_spec i (Z.of_nat (length (orderedParams c))))
        as [Hlt|Hge].
      + destruct (orderedParams c !! Z.to_nat i) as [o|] eqn:Ho.
        * eexists _, _, (collectedDiags c), [_].
          split_and!; try done. cbn [diags]. by rewrite <- app_assoc.
        * apply lookup_ge_None in Ho. lia.
      + eexists _, _, (collectedDiags c), [].
        split_and!; try done. cbn [diags]. by rewrite app_nil_r.
    - rewrite (foldl_assignNamed_diags_apart _ _ _ (collectedDiags c ++ _)).
      rewrite (foldl_assignNamed_diags_apart _ _ _ (collectedDiags c)).
      destruct (foldl assignNamed (namedParams c, assignments b, []) _)
        as [[named assigned] ds]. cbn [fst snd].
      rewrite (reportUnused_apart _ _ (_ ++ ds)).
      rewrite (reportUnused_apart _ _ (collectedDiags c ++ ds)).
      eexists _, _, (collectedDiags c),
        (ds ++ reportUnused (definitionName b) named []).
      split_and!; try done; cbn [diags]; by rewrite <- !app_assoc. }
  exists b1, b2, early, late. rewrite <- Hplain.
  split_and!; try done.
  - by rewrite Hrun, <- (Hrun []).
  - intros rest'. by rewrite Hrun, <- (Hrun []).
Qed.

Lemma mixed_assignments_stop_at_first_witness :
  ∃ b1 b2 early late,
    setAssignments fifoBuilder
      (mixedFirst :: [] ++ mixedOther :: [mixedFirst; mixedOther]) = Done b1
    ∧ setAssignments fifoBuilder (mixedFirst :: []) = Done b2
    ∧ assignments b1 = assignments b2
    ∧ diags b2 = early ++ late
    ∧ diags b1 = early ++ mixingDiag mixedOther :: late
    ∧ (∀ rest',
         setAssignments fifoBuilder (mixedFirst :: [] ++ mixedOther :: rest')
         = Done b1).
Proof.
  apply (mixed_assignments_stop_at_first fifoBuilder mixedFirst mixedOther []
           [mixedFirst; mixedOther]).
  - constructor.
  - done.
Defined.

(** ** Declarations of a parameter port list *)

Lemma foldl_snoc_fmap {A B} (f : A → B) (l : list A) (results : list B) :
  foldl (λ results x, results ++ [f x]) results l = results ++ (f <$> l).
Proof.
  revert results. induction l as [|x l IH]; intros results.
  { by rewrite app_nil_r. }
  cbn [foldl]. by rewrite IH, fmap_cons, <- app_assoc.
Qed.

Lemma createDecls_fmap syntax isLocal isPort results :
  createDecls syntax isLocal isPort results
  = results ++ (declFor syntax isLocal isPort <$> declaratorsOf syntax).
Proof.
  unfold createDecls.
  destruct syntax as [keyword declarators|keyword declarators];
    cbn [declaratorsOf].
  - apply (foldl_snoc_fmap
             (declFor (ParameterDeclaration keyword declarators)
                isLocal isPort)).
  - apply (foldl_snoc_fmap
             (declFor (TypeParameterDeclaration keyword declarators)
                isLocal isPort)).
Qed.

Lemma portStep_lastLocal declarations start :
  (foldl portStep start declarations).1
  = match last (omap keywordOf declarations) with
    | Some LocalParamKeyword => true
    | Some ParameterKeyword => false
    | None => start.1
    end.
Proof.
  induction declarations as [|d ds IH] using rev_ind; [done|].
  rewrite foldl_app, omap_app. cbn [foldl].
  destruct (foldl portStep start ds) as [l r]. cbn [fst] in IH.
  rewrite omap_cons. unfold portStep.
  destruct (keywordOf d) as [[|]|]; cbn [fst omap list_omap].
  - by rewrite last_snoc.
  - by rewrite last_snoc.
  - by rewrite app_nil_r.
Qed.

Lemma createPortDecls_snoc declarations declaration results :
  createPortDecls (declarations ++ [declaration]) results
  = createDecls declaration (inheritedLocal (declarations ++ [declaration]))
      true (createPortDecls declarations results).
Proof.
  unfold createPortDecls. rewrite foldl_app. cbn [foldl].
  pose proof (portStep_lastLocal declarations (false, results)) as Hlocal.
  destruct (foldl portStep (false, results) declarations) as [l r].
  cbn [fst snd] in *. unfold inheritedLocal. rewrite omap_app, omap_cons.
  unfold portStep.
  destruct (keywordOf declaration) as [[|]|]; cbn [snd omap list_omap].
  - by rewrite last_snoc.
  - by rewrite last_snoc.
  - rewrite app_nil_r, Hlocal.
    by destruct (last (omap keywordOf declarations)) as [[|]|].
Qed.

(** X23: the declarations [createDecls] makes.  For one declaration every
    declarator gives one result, in order, after what was there before,
    with the flags as given, and of a type parameter exactly when the
    declaration is a type parameter declaration.  For a parameter port
    list this is done declaration by declaration; every result is a port
    parameter, and it is local exactly when the last keyword up to and
    including its declaration is [localparam]: a declaration without
    keyword inherits the keyword of the one before, and the list starts
    out with [parameter]. *)
Theorem port_list_inherits_keyword
    (declarations : list ParameterDeclarationBaseSyntax)
    (results : list DeclArgs) :
  createPortDecls declarations results
  = results
    ++ flat_map (λ i, match declarations !! i with
                      | Some declaration =>
                          declFor declaration
                            (inheritedLocal (take (S i) declarations)) true
                          <$> declaratorsOf declaration
                      | None => []
                      end)
         (seq 0 (length declarations))
  ∧ (∀ syntax isLocal isPort,
       createDecls syntax isLocal isPort results
       = results ++ (declFor syntax isLocal isPort <$> declaratorsOf syntax))
  ∧ (∀ declaration keyword,
       keywordOf declaration = Some keyword →
       inheritedLocal (declarations ++ [declaration])
       = match keyword with
         | LocalParamKeyword => true
         | ParameterKeyword => false
         end)
  ∧ (∀ declaration,
       keywordOf declaration = None →
       inheritedLocal (declarations ++ [declaration])
       = inheritedLocal declarations)
  ∧ inheritedLocal [] = false.
Proof.
  split_and!.
  - induction declarations as [|d ds IH] using rev_ind.
    { cbn. by rewrite app_nil_r. }
    rewrite createPortDecls_snoc, createDecls_fmap, IH.
    rewrite length_app. cbn [length]. rewrite Nat.add_1_r, seq_S.
    rewrite flat_map_app. cbn [flat_map Nat.add].
    rewrite lookup_app_r by done. rewrite Nat.sub_diag. cbn [lookup list_lookup].
    rewrite app_nil_r, <- app_assoc. f_equal. f_equal.
    + rewrite !flat_map_concat_map. f_equal. apply map_ext_in.
      intros i Hi%in_seq.
      rewrite lookup_app_l by lia. rewrite take_app_le by lia. done.
    + rewrite take_ge; [done|]. rewrite length_app. cbn. lia.
  - intros syntax isLocal isPort. apply createDecls_fmap.
  - intros declaration keyword Hk. unfold inheritedLocal.
    rewrite omap_app, omap_cons, Hk. cbn [omap list_omap].
    by rewrite last_snoc.
  - intros declaration Hk. unfold inheritedLocal.
    rewrite omap_app, omap_cons, Hk. cbn [omap list_omap].
    by rewrite app_nil_r.
  - done.
Qed.
